(** * LocalStorageCryptoStore: a shallow embedding

    The end-to-end encryption store backed by [localStorage]
    (class [LocalStorageCryptoStore]).  The store keeps JSON text under
    string keys of one flat namespace; every query is a scan over
    [store.key(i)] filtered by a key prefix.

    Conventions of the embedding:
    - a JavaScript string is a [string]; [length], [slice], [startsWith] and
      [split] count its characters;
    - a decoded JSON value is a [json]; its objects are association lists
      of their own properties in the order of enumeration, and their
      prototype is [Object.prototype] (for arrays, [Array.prototype]);
    - an object that the store builds with [{}] and assignments is an
      [object]: own properties in the order of enumeration, array indices
      first, and the prototype, which an assignment to [__proto__] changes;
      a read follows the prototype chain, so it can give a member of
      [Object.prototype] or [Array.prototype], and what the store hands to
      its caller is a [value];
    - [localStorage] is an association list of key and text in [key(i)]
      order; writing an existing key keeps its place, a new key goes last;
    - [JSON.parse] and [JSON.stringify] belong to the platform: the store is
      defined over any pair of functions, and the two laws that some proofs
      need from them are hypotheses; [MiniJson] is one concrete pair that
      keeps the laws, used to run the store on concrete [localStorage]
      contents;
    - [async] methods and methods that hand their result to a callback
      [func] are functions returning that result; all of them run in the
      monad [M] of a world (storage and log) with JavaScript exceptions. *)

From Stdlib Require Import String Ascii List Bool Arith ZArith Lia.
From Stdlib Require Import DecimalString DecimalNat DecimalPos.
From Stdlib Require Import Permutation.
Import ListNotations.
Open Scope string_scope.

(** ** JavaScript strings *)

(** [s.startsWith(p)] *)
Fixpoint startsWith (s p : string) {struct p} : bool :=
  match p with
  | EmptyString => true
  | String a p' =>
      match s with
      | EmptyString => false
      | String b s' => Ascii.eqb a b && startsWith s' p'
      end
  end.

(** [s.slice(n)], for [0 <= n] *)
Fixpoint slice_from (n : nat) (s : string) : string :=
  match n, s with
  | 0, _ => s
  | S n', String _ r => slice_from n' r
  | S _, EmptyString => EmptyString
  end.

(** [s.slice(0, n)], for [0 <= n] *)
Fixpoint slice_to (n : nat) (s : string) : string :=
  match n, s with
  | S n', String c r => String c (slice_to n' r)
  | _, _ => EmptyString
  end.

(** [s.split(sep)] for a one-character separator: never empty. *)
Fixpoint split (sep : ascii) (s : string) : list string :=
  match s with
  | EmptyString => [EmptyString]
  | String c r =>
      if Ascii.eqb c sep then EmptyString :: split sep r
      else match split sep r with
           | h :: t => String c h :: t
           | [] => [String c EmptyString]
           end
  end.

(** Does the character occur in the string? *)
Fixpoint contains_char (c : ascii) (s : string) : bool :=
  match s with
  | EmptyString => false
  | String d r => Ascii.eqb d c || contains_char c r
  end.

(** The decimal spelling of an array index, as property names have it. *)
Definition index_name (i : nat) : string :=
  NilEmpty.string_of_uint (Nat.to_uint i).

(** ** Association lists: JavaScript objects and the storage *)

Section AList.
Context {V : Type}.

(** [o[k]]: the first binding of [k]. *)
Fixpoint alist_get (l : list (string * V)) (k : string) : option V :=
  match l with
  | [] => None
  | (k', v) :: r => if String.eqb k' k then Some v else alist_get r k
  end.

(** [o[k] = v]: overwrite in place, or add as the last property. *)
Fixpoint alist_set (l : list (string * V)) (k : string) (v : V)
  : list (string * V) :=
  match l with
  | [] => [(k, v)]
  | (k', v') :: r =>
      if String.eqb k' k then (k', v) :: r else (k', v') :: alist_set r k v
  end.

(** [delete o[k]] *)
Fixpoint alist_remove (l : list (string * V)) (k : string)
  : list (string * V) :=
  match l with
  | [] => []
  | (k', v') :: r =>
      if String.eqb k' k then alist_remove r k
      else (k', v') :: alist_remove r k
  end.

(** [k in o], own properties. *)
Definition alist_has (l : list (string * V)) (k : string) : bool :=
  match alist_get l k with Some _ => true | None => false end.

(** [Object.keys(o)] and [Object.values(o)] *)
Definition alist_keys (l : list (string * V)) : list string := map fst l.
Definition alist_values (l : list (string * V)) : list V := map snd l.
End AList.

(** Are the strings of a list pairwise different? *)
Fixpoint distinct (l : list string) : bool :=
  match l with
  | [] => true
  | k :: r => negb (existsb (String.eqb k) r) && distinct r
  end.

(** ** JSON values *)

(** A value that [JSON.parse] returns and [JSON.stringify] takes.  Numbers
    are the integers: the store's own numbers are enum tags and time
    stamps. *)
Unset Elimination Schemes.
Inductive json : Type :=
| JNull
| JBool (b : bool)
| JNum (n : Z)
| JStr (s : string)
| JArr (items : list json)
| JObj (props : list (string * json)).
Set Elimination Schemes.

(** A value as the platform builds it: no object has a property twice. *)
Fixpoint json_wf (v : json) : bool :=
  match v with
  | JArr items => forallb json_wf items
  | JObj props =>
      distinct (map fst props)
      && (fix props_wf (l : list (string * json)) : bool :=
            match l with
            | [] => true
            | (_, x) :: r => json_wf x && props_wf r
            end) props
  | _ => true
  end.

(** Truthiness, for [v || d]. *)
Definition truthy (v : json) : bool :=
  match v with
  | JNull => false
  | JBool b => b
  | JNum n => negb (Z.eqb n 0)
  | JStr s => negb (String.eqb s EmptyString)
  | JArr _ | JObj _ => true
  end.

(** [v || {}] *)
Definition or_empty_object (v : json) : json :=
  if truthy v then v else JObj [].

(** [v ?? d] *)
Definition nullish_or (v d : json) : json :=
  match v with JNull => d | _ => v end.

(** The characters of a string as indexed properties. *)
Fixpoint string_entries (i : nat) (s : string) : list (string * json) :=
  match s with
  | EmptyString => []
  | String c r => (index_name i, JStr (String c EmptyString)) :: string_entries (S i) r
  end.

(** The items of an array as indexed properties. *)
Fixpoint array_entries (i : nat) (l : list json) : list (string * json) :=
  match l with
  | [] => []
  | x :: r => (index_name i, x) :: array_entries (S i) r
  end.

(** [Object.entries(v)], for [v] not null: callers pass [v || {}] or
    [v ?? {}].  Numbers and booleans have no own enumerable property. *)
Definition Object_entries (v : json) : list (string * json) :=
  match v with
  | JObj props => props
  | JArr items => array_entries 0 items
  | JStr s => string_entries 0 s
  | JNull | JBool _ | JNum _ => []
  end.

(** [Object.keys(v)] *)
Definition Object_keys (v : json) : list string := alist_keys (Object_entries v).

(** ** JavaScript objects

    What [{}] builds, and what assignments, reads, [in] and the enumeration
    do with it. *)

(** The number that a property name spells when the name is an array
    index: the decimal spelling, with no sign and no leading zero, of an
    integer below 2^32 - 1.  The enumeration of an object gives the array
    indices first, in ascending order, and then the other names in the order
    in which the properties were created. *)
Definition array_index (k : string) : option N :=
  match NilEmpty.uint_of_string k with
  | Some u =>
      let n := N.of_uint u in
      if String.eqb (NilEmpty.string_of_uint (N.to_uint n)) k
         && N.ltb n 4294967295
      then Some n
      else None
  | None => None
  end.

(** A new property with the array index [n] takes its place among the
    array indices. *)
Fixpoint insert_index (l : list (string * json)) (n : N) (k : string)
    (v : json) : list (string * json) :=
  match l with
  | [] => [(k, v)]
  | (k', v') :: r =>
      match array_index k' with
      | Some m =>
          if N.ltb m n then (k', v') :: insert_index r n k v
          else (k, v) :: l
      | None => (k, v) :: l
      end
  end.

(** The own properties after [k] is given the value [v]: a property that
    exists keeps its place, a new array index goes among the array indices,
    any other new name goes last. *)
Definition define_property (l : list (string * json)) (k : string) (v : json)
  : list (string * json) :=
  match array_index k with
  | Some n => if alist_has l k then alist_set l k v else insert_index l n k v
  | None => alist_set l k v
  end.

(** The string-named properties of [Object.prototype] (ECMAScript 2023,
    with Annex B); [__proto__] is an accessor, the others are functions. *)
Definition Object_prototype_names : list string :=
  ["constructor"; "__defineGetter__"; "__defineSetter__"; "hasOwnProperty";
   "__lookupGetter__"; "__lookupSetter__"; "isPrototypeOf";
   "propertyIsEnumerable"; "toString"; "valueOf"; "__proto__";
   "toLocaleString"].

(** The string-named properties of [Array.prototype] (ECMAScript 2023),
    but for [length], which every array has itself. *)
Definition Array_prototype_names : list string :=
  ["at"; "concat"; "constructor"; "copyWithin"; "entries"; "every"; "fill";
   "filter"; "find"; "findIndex"; "findLast"; "findLastIndex"; "flat";
   "flatMap"; "forEach"; "includes"; "indexOf"; "join"; "keys";
   "lastIndexOf"; "map"; "pop"; "push"; "reduce"; "reduceRight"; "reverse";
   "shift"; "slice"; "some"; "sort"; "splice"; "toLocaleString";
   "toReversed"; "toSorted"; "toSpliced"; "toString"; "unshift"; "values";
   "with"].

(** Is the name a property of [Object.prototype]: does every object that
    has it in its prototype chain answer to the name? *)
Definition Object_prototype_has (k : string) : bool :=
  existsb (String.eqb k) Object_prototype_names.

(** Is the name a property of [Array.prototype], or of [Object.prototype]
    behind it? *)
Definition Array_prototype_has (k : string) : bool :=
  existsb (String.eqb k) Array_prototype_names || Object_prototype_has k.

(** The prototype of an object that the store builds: [Object.prototype]
    to start with; [null], a decoded object or a decoded array once the
    setter of [__proto__] has been given one. *)
Inductive prototype : Type :=
| Object_prototype
| Null_prototype
| Stored_object (props : list (string * json))
| Stored_array (items : list json).

(** An object that the store builds: its own properties, in the order of
    enumeration, and its prototype. *)
Record object : Type := mkObject {
  own : list (string * json);
  proto : prototype
}.

(** [{}] *)
Definition empty_object : object := mkObject [] Object_prototype.

(** What the store hands to a caller: a decoded value, or an object it
    built with [{}] and nothing but properties (the object of the same
    properties); an object it built whose prototype is no longer
    [Object.prototype]; [Object.prototype] itself; a function of
    [Object.prototype] or of [Array.prototype]. *)
Inductive value : Type :=
| Data (v : json)
| Derived (o : object)
| ObjectPrototype
| ObjectBuiltin (name : string)
| ArrayBuiltin (name : string).

Coercion Data : json >-> value.

(** An object that the store built, as a value. *)
Definition as_value (o : object) : value :=
  match proto o with
  | Object_prototype => Data (JObj (own o))
  | _ => Derived o
  end.

(** [Object.prototype[k]], reached from an object whose prototype is
    [asked]: the getter of [__proto__] answers with the prototype of the
    object that the read started from. *)
Definition Object_prototype_get (asked : value) (k : string) : option value :=
  if String.eqb k "__proto__" then Some asked
  else if Object_prototype_has k then Some (ObjectBuiltin k)
  else None.

(** [o[k]]: the own property, or else what the prototype chain has;
    [None] is [undefined]. *)
Definition js_get (o : object) (k : string) : option value :=
  match alist_get (own o) k with
  | Some v => Some (Data v)
  | None =>
      match proto o with
      | Object_prototype => Object_prototype_get ObjectPrototype k
      | Null_prototype => None
      | Stored_object props =>
          match alist_get props k with
          | Some v => Some (Data v)
          | None => Object_prototype_get (Data (JObj props)) k
          end
      | Stored_array items =>
          match alist_get (array_entries 0 items) k with
          | Some v => Some (Data v)
          | None =>
              if String.eqb k "length"
              then Some (Data (JNum (Z.of_nat (List.length items))))
              else if existsb (String.eqb k) Array_prototype_names
              then Some (ArrayBuiltin k)
              else Object_prototype_get (Data (JArr items)) k
          end
      end
  end.

(** [v ?? {}] *)
Definition or_empty (v : option value) : value :=
  match v with
  | None | Some (Data JNull) => Data (JObj [])
  | Some x => x
  end.

(** Does an assignment to [__proto__] end at the setter of
    [Object.prototype]?  It does unless the object has a property of that
    name itself, or its prototype chain has one before [Object.prototype],
    or does not lead there. *)
Definition proto_setter_reached (o : object) : bool :=
  negb (alist_has (own o) "__proto__")
  && match proto o with
     | Object_prototype | Stored_array _ => true
     | Null_prototype => false
     | Stored_object props => negb (alist_has props "__proto__")
     end.

(** What the setter of [__proto__] makes of the prototype [p] when it is
    given [v]: an object, an array or [null] becomes the prototype, any
    other value is ignored. *)
Definition set_prototype (v : json) (p : prototype) : prototype :=
  match v with
  | JNull => Null_prototype
  | JObj props => Stored_object props
  | JArr items => Stored_array items
  | JBool _ | JNum _ | JStr _ => p
  end.

(** [o[k] = v], for a decoded value [v]: the setter of [__proto__], where
    the assignment reaches it; in every other case the object gets the
    property, the properties of the prototypes being writable. *)
Definition js_put (o : object) (k : string) (v : json) : object :=
  if String.eqb k "__proto__" && proto_setter_reached o
  then mkObject (own o) (set_prototype v (proto o))
  else mkObject (define_property (own o) k v) (proto o).

(** A run of assignments [o[k] = v], one for each pair of a list. *)
Definition put_all (l : list (string * json)) (o : object) : object :=
  fold_left (fun o e => js_put o (fst e) (snd e)) l o.

(** Does the name [k] come before the name [k'] when both are enumerated,
    [k'] being the younger property where neither is an array index? *)
Definition enumerated_before (k k' : string) : Prop :=
  match array_index k, array_index k' with
  | Some n, Some m => (n < m)%N
  | Some _, None => True
  | None, Some _ => False
  | None, None => True
  end.

(** Names in an order in which an object can enumerate them. *)
Fixpoint enumeration (ks : list string) : Prop :=
  match ks with
  | [] => True
  | k :: r => Forall (enumerated_before k) r /\ enumeration r
  end.

(** [k in v] for an object or an array [v]: the own properties, and the
    properties of the prototypes. *)
Definition has_property (k : string) (v : json) : bool :=
  match v with
  | JObj props => alist_has props k || Object_prototype_has k
  | JArr items =>
      alist_has (array_entries 0 items) k || String.eqb k "length"
      || Array_prototype_has k
  | _ => false
  end.

(** ** The world: [localStorage], the logger, exceptions *)

(** [localStorage]: keys and their text, in the order of [key(i)]. *)
Definition Storage : Type := list (string * string).

(** An exception object, as far as the store looks at it. *)
Record Exn : Type := mkExn { message : string; stack : string }.

(** What [logger.log] was called with. *)
Inductive LogEntry : Type :=
| LogFailedToGetKey (key : string) (msg : string)
| LogStack (stk : string).

(** What a method can read and change: the storage and the log. *)
Record World : Type := mkWorld { storage : Storage; logs : list LogEntry }.

(** How a method ends: with a value or with an exception. *)
Inductive outcome (A : Type) : Type :=
| Return (a : A)
| Throw (e : Exn).
Arguments Return {A} & a.
Arguments Throw {A} e.

(** Computations of the store. *)
Definition M (A : Type) : Type := World -> outcome A * World.

Definition ret {A} (a : A) : M A := fun w => (Return a, w).

Definition bind {A B} (m : M A) (k : A -> M B) : M B :=
  fun w =>
    match m w with
    | (Return a, w') => k a w'
    | (Throw e, w') => (Throw e, w')
    end.

Definition throw {A} (e : Exn) : M A := fun w => (Throw e, w).

Notation "x <- m ;; k" := (bind m (fun x => k))
  (at level 61, m at next level, right associativity).
Notation "m ;;; k" := (bind m (fun _ => k))
  (at level 61, right associativity).

(** [store.getItem(key)] *)
Definition getItem (key : string) : M (option string) :=
  fun w => (Return (alist_get (storage w) key), w).

(** [store.setItem(key, text)] *)
Definition setItem (key text : string) : M unit :=
  fun w => (Return tt, mkWorld (alist_set (storage w) key text) (logs w)).

(** [store.removeItem(key)] *)
Definition removeItem (key : string) : M unit :=
  fun w => (Return tt, mkWorld (alist_remove (storage w) key) (logs w)).

(** [store.length] *)
Definition store_length : M nat :=
  fun w => (Return (List.length (storage w)), w).

(** [store.key(i)] *)
Definition store_key (i : nat) : M (option string) :=
  fun w => (Return (option_map fst (nth_error (storage w) i)), w).

(** [logger.log(...)] *)
Definition logger_log (e : LogEntry) : M unit :=
  fun w => (Return tt, mkWorld (storage w) (logs w ++ [e])%list).

(** [key?.startsWith(p)], with [undefined] read as false by [if]. *)
Definition key_startsWith (key : option string) (p : string) : bool :=
  match key with Some k => startsWith k p | None => false end.

(** The body of a [for] loop either falls through to the next round or
    leaves the method with [return]. *)
Inductive step (A R : Type) : Type :=
| Next (acc : A)
| Done (r : R).
Arguments Next {A R} acc.
Arguments Done {A R} r.

(** [for (let i = i0; i < this.store.length; ++i) body]: the bound is read
    again before every round.  [fuel] bounds the rounds; the callers give
    the length of the storage, which is enough because no body adds a key. *)
Fixpoint for_keys_from {A R} (fuel i : nat)
    (body : nat -> A -> M (step A R)) (acc : A) : M (step A R) :=
  match fuel with
  | 0 => ret (Next acc)
  | S fuel' =>
      n <- store_length ;;
      if Nat.ltb i n then
        s <- body i acc ;;
        match s with
        | Next acc' => for_keys_from fuel' (S i) body acc'
        | Done r => ret (Done r)
        end
      else ret (Next acc)
  end.

Definition for_keys {A R} (body : nat -> A -> M (step A R)) (acc : A)
  : M (step A R) :=
  n <- store_length ;; for_keys_from n 0 body acc.

(** [for (const x of xs) body] *)
Fixpoint for_of {X} (xs : list X) (body : X -> M unit) : M unit :=
  match xs with
  | [] => ret tt
  | x :: r => body x ;;; for_of r body
  end.

(** ** MiniJson: a reader and a writer of compact JSON text

    The writer emits what [JSON.stringify] emits for values without control
    characters: no white space, integers in decimal, the quote and the
    backslash escaped.  The reader accepts exactly that grammar and, like
    [JSON.parse], keeps the last value of a repeated property name at the
    place of its first occurrence.  Both carry the rest of the text along. *)

Module MiniJson.

Definition dquote : ascii := "034"%char.
Definition backslash : ascii := "092"%char.

Definition needs_escape (c : ascii) : bool :=
  Ascii.eqb c dquote || Ascii.eqb c backslash.

(** *** Writer *)

Fixpoint write_chars (s : string) (k : string) : string :=
  match s with
  | EmptyString => String dquote k
  | String c r =>
      if needs_escape c then String backslash (String c (write_chars r k))
      else String c (write_chars r k)
  end.

Definition write_string (s : string) (k : string) : string :=
  String dquote (write_chars s k).

Fixpoint write_digits (u : Decimal.uint) (k : string) : string :=
  match u with
  | Decimal.Nil => k
  | Decimal.D0 u' => String "0" (write_digits u' k)
  | Decimal.D1 u' => String "1" (write_digits u' k)
  | Decimal.D2 u' => String "2" (write_digits u' k)
  | Decimal.D3 u' => String "3" (write_digits u' k)
  | Decimal.D4 u' => String "4" (write_digits u' k)
  | Decimal.D5 u' => String "5" (write_digits u' k)
  | Decimal.D6 u' => String "6" (write_digits u' k)
  | Decimal.D7 u' => String "7" (write_digits u' k)
  | Decimal.D8 u' => String "8" (write_digits u' k)
  | Decimal.D9 u' => String "9" (write_digits u' k)
  end.

Definition write_number (n : Z) (k : string) : string :=
  match n with
  | Z0 => String "0" k
  | Zpos p => write_digits (Pos.to_uint p) k
  | Zneg p => String "-" (write_digits (Pos.to_uint p) k)
  end.

Fixpoint write (v : json) (k : string) : string :=
  match v with
  | JNull => "null" ++ k
  | JBool true => "true" ++ k
  | JBool false => "false" ++ k
  | JNum n => write_number n k
  | JStr s => write_string s k
  | JArr [] => "[]" ++ k
  | JArr (x :: r) =>
      String "[" (write x
        ((fix more (l : list json) : string :=
            match l with
            | [] => String "]" k
            | y :: l' => String "," (write y (more l'))
            end) r))
  | JObj [] => "{}" ++ k
  | JObj ((name, x) :: r) =>
      String "{" (write_string name (String ":" (write x
        ((fix more (l : list (string * json)) : string :=
            match l with
            | [] => String "}" k
            | (name', y) :: l' =>
                String "," (write_string name' (String ":" (write y (more l'))))
            end) r))))
  end.

Definition stringify (v : json) : string := write v EmptyString.

(** *** Reader *)

(** The characters of a string literal after its opening quote. *)
Fixpoint read_chars (s : string) : option (string * string) :=
  match s with
  | EmptyString => None
  | String c r =>
      if Ascii.eqb c dquote then Some (EmptyString, r)
      else if Ascii.eqb c backslash then
        match r with
        | String d r' =>
            if needs_escape d then
              match read_chars r' with
              | Some (t, rest) => Some (String d t, rest)
              | None => None
              end
            else None
        | EmptyString => None
        end
      else
        match read_chars r with
        | Some (t, rest) => Some (String c t, rest)
        | None => None
        end
  end.

Definition digit_of (c : ascii) : option (Decimal.uint -> Decimal.uint) :=
  if Ascii.eqb c "0" then Some Decimal.D0
  else if Ascii.eqb c "1" then Some Decimal.D1
  else if Ascii.eqb c "2" then Some Decimal.D2
  else if Ascii.eqb c "3" then Some Decimal.D3
  else if Ascii.eqb c "4" then Some Decimal.D4
  else if Ascii.eqb c "5" then Some Decimal.D5
  else if Ascii.eqb c "6" then Some Decimal.D6
  else if Ascii.eqb c "7" then Some Decimal.D7
  else if Ascii.eqb c "8" then Some Decimal.D8
  else if Ascii.eqb c "9" then Some Decimal.D9
  else None.

(** The longest run of digits at the head of the text. *)
Fixpoint read_digits (s : string) : Decimal.uint * string :=
  match s with
  | EmptyString => (Decimal.Nil, s)
  | String c r =>
      match digit_of c with
      | Some d => let (u, rest) := read_digits r in (d u, rest)
      | None => (Decimal.Nil, s)
      end
  end.

(** An unsigned integer: at least one digit. *)
Definition read_natural (s : string) : option (Z * string) :=
  match read_digits s with
  | (Decimal.Nil, _) => None
  | (u, rest) => Some (Z.of_N (Pos.of_uint u), rest)
  end.

Definition expect (word : string) (s : string) (v : json)
  : option (json * string) :=
  if startsWith s word then Some (v, slice_from (String.length word) s)
  else None.

(** Record a member the way property creation does. *)
Definition add_member (props : list (string * json)) (m : string * json)
  : list (string * json) :=
  alist_set props (fst m) (snd m).

Fixpoint read_value (fuel : nat) (s : string) : option (json * string) :=
  match fuel with
  | 0 => None
  | S fuel' =>
      match s with
      | EmptyString => None
      | String c r =>
          if Ascii.eqb c "n" then expect "ull" r JNull
          else if Ascii.eqb c "t" then expect "rue" r (JBool true)
          else if Ascii.eqb c "f" then expect "alse" r (JBool false)
          else if Ascii.eqb c dquote then
            match read_chars r with
            | Some (t, rest) => Some (JStr t, rest)
            | None => None
            end
          else if Ascii.eqb c "-" then
            match read_natural r with
            | Some (n, rest) => Some (JNum (Z.opp n), rest)
            | None => None
            end
          else if Ascii.eqb c "[" then
            match read_value fuel' r with
            | Some (x, rest) =>
                match read_items fuel' rest with
                | Some (xs, rest') => Some (JArr (x :: xs), rest')
                | None => None
                end
            | None =>
                match r with
                | String d rest =>
                    if Ascii.eqb d "]" then Some (JArr [], rest) else None
                | EmptyString => None
                end
            end
          else if Ascii.eqb c "{" then
            match r with
            | String d rest =>
                if Ascii.eqb d "}" then Some (JObj [], rest)
                else
                  match read_member fuel' r with
                  | Some (m, rest1) =>
                      match read_members fuel' rest1 with
                      | Some (ms, rest') =>
                          Some (JObj (fold_left add_member (m :: ms) []), rest')
                      | None => None
                      end
                  | None => None
                  end
            | EmptyString => None
            end
          else
            match read_natural s with
            | Some (n, rest) => Some (JNum n, rest)
            | None => None
            end
      end
  end

with read_items (fuel : nat) (s : string) : option (list json * string) :=
  match fuel with
  | 0 => None
  | S fuel' =>
      match s with
      | EmptyString => None
      | String c r =>
          if Ascii.eqb c "]" then Some ([], r)
          else if Ascii.eqb c "," then
            match read_value fuel' r with
            | Some (x, rest) =>
                match read_items fuel' rest with
                | Some (xs, rest') => Some (x :: xs, rest')
                | None => None
                end
            | None => None
            end
          else None
      end
  end

with read_member (fuel : nat) (s : string)
  : option ((string * json) * string) :=
  match fuel with
  | 0 => None
  | S fuel' =>
      match s with
      | EmptyString => None
      | String c r =>
          if Ascii.eqb c dquote then
            match read_chars r with
            | Some (name, String d rest) =>
                if Ascii.eqb d ":" then
                  match read_value fuel' rest with
                  | Some (x, rest') => Some ((name, x), rest')
                  | None => None
                  end
                else None
            | _ => None
            end
          else None
      end
  end

with read_members (fuel : nat) (s : string)
  : option (list (string * json) * string) :=
  match fuel with
  | 0 => None
  | S fuel' =>
      match s with
      | EmptyString => None
      | String c r =>
          if Ascii.eqb c "}" then Some ([], r)
          else if Ascii.eqb c "," then
            match read_member fuel' r with
            | Some (m, rest) =>
                match read_members fuel' rest with
                | Some (ms, rest') => Some (m :: ms, rest')
                | None => None
                end
            | None => None
            end
          else None
      end
  end.

(** How many rounds reading a value back takes at most. *)
Fixpoint size (v : json) : nat :=
  match v with
  | JArr items =>
      S ((fix sum (l : list json) : nat :=
            match l with
            | [] => 0
            | x :: r => S (size x) + sum r
            end) items)
  | JObj props =>
      S ((fix sum (l : list (string * json)) : nat :=
            match l with
            | [] => 0
            | (_, x) :: r => S (S (size x)) + sum r
            end) props)
  | _ => 1
  end.

Fixpoint items_size (l : list json) : nat :=
  match l with
  | [] => 0
  | x :: r => S (size x) + items_size r
  end.

Fixpoint members_size (l : list (string * json)) : nat :=
  match l with
  | [] => 0
  | (_, x) :: r => S (S (size x)) + members_size r
  end.

(** The rest of an array and of an object, as [write] writes them. *)
Fixpoint write_items (l : list json) (k : string) : string :=
  match l with
  | [] => String "]" k
  | y :: l' => String "," (write y (write_items l' k))
  end.

Fixpoint write_members (l : list (string * json)) (k : string) : string :=
  match l with
  | [] => String "}" k
  | (name, y) :: l' =>
      String "," (write_string name (String ":" (write y (write_members l' k))))
  end.

(** The text after a number does not go on with a digit. *)
Definition ends_number (k : string) : Prop :=
  match k with
  | EmptyString => True
  | String c _ => digit_of c = None
  end.

Definition syntax_error : Exn :=
  mkExn "Unexpected token in JSON" "SyntaxError: Unexpected token in JSON".

(** [JSON.parse(text)]: the value, or the [SyntaxError] thrown. *)
Definition parse (text : string) : json + Exn :=
  match read_value (S (String.length text)) text with
  | Some (v, EmptyString) => inl v
  | _ => inr syntax_error
  end.

(** What is asked of a value for it to read back. *)
Definition reads_back (v : json) : Prop :=
  json_wf v = true ->
  forall k fuel, ends_number k -> size v <= fuel ->
  read_value fuel (write v k) = Some (v, k).

Definition long_enough (v : json) : Prop :=
  forall k, String.length k + size v <= String.length (write v k).

End MiniJson.

(** ** Key names *)

Definition E2E_PREFIX : string := "crypto.".
Definition KEY_END_TO_END_MIGRATION_STATE : string := E2E_PREFIX ++ "migration".
Definition KEY_END_TO_END_ACCOUNT : string := E2E_PREFIX ++ "account".
Definition KEY_CROSS_SIGNING_KEYS : string := E2E_PREFIX ++ "cross_signing_keys".
Definition KEY_INBOUND_SESSION_PREFIX : string :=
  E2E_PREFIX ++ "inboundgroupsessions/".
Definition KEY_INBOUND_SESSION_WITHHELD_PREFIX : string :=
  E2E_PREFIX ++ "inboundgroupsessions.withheld/".
Definition KEY_ROOMS_PREFIX : string := E2E_PREFIX ++ "rooms/".
Definition KEY_SESSIONS_NEEDING_BACKUP : string :=
  E2E_PREFIX ++ "sessionsneedingbackup".

Definition keyEndToEndSessions (deviceKey : string) : string :=
  (E2E_PREFIX ++ "sessions/") ++ deviceKey.

Definition keyEndToEndInboundGroupSession (senderKey sessionId : string)
  : string :=
  ((KEY_INBOUND_SESSION_PREFIX ++ senderKey) ++ "/") ++ sessionId.

Definition keyEndToEndInboundGroupSessionWithheld (senderKey sessionId : string)
  : string :=
  ((KEY_INBOUND_SESSION_WITHHELD_PREFIX ++ senderKey) ++ "/") ++ sessionId.

Definition keyEndToEndRoomsPrefix (roomId : string) : string :=
  KEY_ROOMS_PREFIX ++ roomId.

Definition keySecretStorePrivateKey (type : string) : string :=
  E2E_PREFIX ++ ("ssss_cache." ++ type).

(** ** Values of the store *)

(** An element of the batch of Megolm sessions. *)
Record SessionExtended : Type := mkSessionExtended {
  senderKey : string;
  sessionId : string;
  sessionData : json;
  needsBackup : bool
}.

(** [{ session: pickle }] *)
Definition session_info (pickle : string) : json :=
  JObj [("session", JStr pickle)].

(** One round of the loop of [_getEndToEndSessions]: an old session, stored
    as the bare pickle, becomes an object. *)
Definition fix_entry (fixedSessions : object) (entry : string * json)
  : object :=
  match snd entry with
  | JStr val => js_put fixedSessions (fst entry) (session_info val)
  | val => js_put fixedSessions (fst entry) val
  end.

(** The loop of [_getEndToEndSessions] over [Object.entries(sessions || {})],
    from [fixedSessions = {}]. *)
Definition fix_sessions (sessions : json) : object :=
  fold_left fix_entry (Object_entries (or_empty_object sessions)) empty_object.

(** The type error of an operator applied to a primitive value. *)
Definition TypeError : Exn := mkExn "TypeError" "TypeError".

(** [k in v], for [v] not null: a primitive value raises. *)
Definition js_in (k : string) (v : json) : M bool :=
  match v with
  | JObj _ | JArr _ => ret (has_property k v)
  | _ => throw TypeError
  end.

(** [v[k] = true] for a name [k] that contains a slash, in strict mode: an
    object gets the property, an array gets a property that its JSON text
    does not show, a primitive value raises. *)
Definition set_flag (v : json) (k : string) : M json :=
  match v with
  | JObj props => ret (JObj (alist_set props k (JBool true)))
  | JArr items => ret (JArr items)
  | _ => throw TypeError
  end.

(** [split("/")[1]], spelled as [undefined] spells when there is none. *)
Definition second_segment (key : string) : string :=
  match nth_error (split "/" key) 1 with
  | Some d => d
  | None => "undefined"
  end.

(** The result of a loop that has no [return] in its body. *)
Definition fall_through {A} (s : step A A) : A :=
  match s with Next a => a | Done a => a end.

(** The end of the batch methods: [null] for an empty result. *)
Definition batch_result {A} (s : step (list A) (list A)) : option (list A) :=
  match s with
  | Done result => Some result
  | Next [] => None
  | Next result => Some result
  end.

(** ** Stores to run the methods on *)

Module Examples.

(** A sender key: 43 characters. *)
Definition sender_key : string := "abcdefghijklmnopqrstuvwxyzABCDEFGHIJKLMNOPQ".

(** A session id with the separator in it. *)
Definition session_id : string := "abc/def".

(** A world with nothing logged yet. *)
Definition world_of (st : Storage) : World := mkWorld st [].

(** Text that is not JSON. *)
Definition broken_text : string := "{oops".

(** A device with an old session [s1], a bare pickle, and a session [s2]. *)
Definition legacy_props : list (string * json) :=
  [("s1", JStr "pickle"); ("s2", session_info "p2")].

(** The store of that device. *)
Definition legacy_world : World :=
  world_of [(keyEndToEndSessions "DEVICE", MiniJson.stringify (JObj legacy_props))].

(** A device with one session, and a device with two. *)
Definition two_devices : World :=
  world_of
    [(keyEndToEndSessions "DEVICE",
      MiniJson.stringify (JObj [("s1", session_info "p1")]));
     (keyEndToEndSessions "OTHER",
      MiniJson.stringify
        (JObj [("t1", session_info "q1"); ("t2", session_info "q2")]))].

(** A device key, base64 of 32 bytes, with a slash in it. *)
Definition slash_device_key : string :=
  "hPQNcabIABgGnx3/ACvjmMmiQHoeFfuLB17tzWp6Hw0".

(** A device whose key has a slash, with one session. *)
Definition slash_world : World :=
  world_of
    [(keyEndToEndSessions slash_device_key,
      MiniJson.stringify (JObj [("s1", session_info "p1")]))].


(** A device with an old session under the name [__proto__], a bare
    pickle, and a session [s2]. *)
Definition proto_props : list (string * json) :=
  [("__proto__", JStr "pickle"); ("s2", session_info "p2")].

(** The store of that device. *)
Definition proto_world : World :=
  world_of [(keyEndToEndSessions "DEVICE", MiniJson.stringify (JObj proto_props))].

(** A migration state that does not parse. *)
Definition broken_migration_world : World :=
  world_of [(KEY_END_TO_END_MIGRATION_STATE, broken_text)].

(** An inbound group session whose text does not parse. *)
Definition broken_inbound_world : World :=
  world_of
    [(keyEndToEndInboundGroupSession sender_key session_id, broken_text)].

(** An index of sessions needing backup with one flag. *)
Definition flagged_world : World :=
  world_of
    [(KEY_SESSIONS_NEEDING_BACKUP,
      MiniJson.stringify (JObj [("other/session", JBool true)]))].

(** A batch size, and a device that fills a batch before the device with
    the old session is reached. *)
Definition batch_size : nat := 50.

(** As many sessions as a batch holds. *)
Definition many_sessions : list (string * json) :=
  map (fun i => ("s" ++ index_name i, session_info "p")) (seq 0 batch_size).

(** A device with a full batch of sessions, then the device with the old
    session. *)
Definition crowded_world : World :=
  world_of
    [(keyEndToEndSessions "A", MiniJson.stringify (JObj many_sessions));
     (keyEndToEndSessions "DEVICE", MiniJson.stringify (JObj legacy_props))].

(** Another sender key: 43 characters. *)
Definition other_sender_key : string :=
  "QPONMLKJIHGFEDCBAzyxwvutsrqponmlkjihgfedcba".

(** The data of an inbound group session of a room. *)
Definition session_of_room (room : string) : json :=
  JObj [("room_id", JStr room); ("session", JStr "pickle")].

(** Two inbound group sessions, a key of another user of the storage
    between them, and an index that flags the second. *)
Definition inbound_world : World :=
  world_of
    [(keyEndToEndInboundGroupSession sender_key session_id,
      MiniJson.stringify (session_of_room "!a:example.org"));
     ("theme", "dark");
     (keyEndToEndInboundGroupSession other_sender_key "sid2",
      MiniJson.stringify (session_of_room "!b:example.org"));
     (KEY_SESSIONS_NEEDING_BACKUP,
      MiniJson.stringify
        (JObj [(other_sender_key ++ "/sid2", JBool true)]))].

(** The element of the batch for the first session: not flagged. *)
Definition first_session : SessionExtended :=
  mkSessionExtended sender_key session_id
    (session_of_room "!a:example.org") false.

(** The element of the batch for the second session: flagged. *)
Definition second_session : SessionExtended :=
  mkSessionExtended other_sender_key "sid2"
    (session_of_room "!b:example.org") true.

(** A storage that only other users of the storage have written to. *)
Definition foreign_world : World :=
  world_of [("theme", "dark"); ("mx_access_token", "secret")].

(** An inbound group session whose name the index has with the value
    [false]. *)
Definition false_flag_world : World :=
  world_of
    [(keyEndToEndInboundGroupSession sender_key session_id,
      MiniJson.stringify (session_of_room "!a:example.org"));
     (KEY_SESSIONS_NEEDING_BACKUP,
      MiniJson.stringify
        (JObj [((sender_key ++ "/") ++ session_id, JBool false)]))].

(** The element of the batch for that session. *)
Definition false_flag_session : SessionExtended :=
  mkSessionExtended sender_key session_id
    (session_of_room "!a:example.org") true.

End Examples.

Section LocalStorageCryptoStore.

(** The platform's JSON. *)
Variable JSON_parse : string -> json + Exn.
Variable JSON_stringify : json -> string.

(** Constants of [base.ts]: the batch size, and the number that the enum
    [MigrationState] gives [NOT_STARTED]. *)
Variable SESSION_BATCH_SIZE : nat.
Variable NOT_STARTED : Z.

(** What the store relies on from the platform's JSON, where a statement
    below says so: parsing yields proper values, and a proper value
    survives writing and parsing. *)
Hypothesis JSON_parse_wf :
  forall text v, JSON_parse text = inl v -> json_wf v = true.
Hypothesis JSON_parse_stringify :
  forall v, json_wf v = true -> JSON_parse (JSON_stringify v) = inl v.

Definition getJsonItem (key : string) : M json :=
  item <- getItem key ;;
  match item with
  | None => ret JNull
  | Some text =>
      match JSON_parse text with
      | inl v => ret v
      | inr e =>
          logger_log (LogFailedToGetKey key (message e)) ;;;
          logger_log (LogStack (stack e)) ;;;
          ret JNull
      end
  end.

Definition setJsonItem (key : string) (val : json) : M unit :=
  setItem key (JSON_stringify val).

(** The loop of [exists] over the indices still to visit. *)
Fixpoint exists_from (indices : list nat) : M bool :=
  match indices with
  | [] => ret false
  | i :: rest =>
      key <- store_key i ;;
      if key_startsWith key E2E_PREFIX then ret true else exists_from rest
  end.

(** [LocalStorageCryptoStore.exists(store)]: the length is read once. *)
Definition exists_ : M bool :=
  length <- store_length ;; exists_from (seq 0 length).

Definition containsData : M bool := exists_.

Definition getMigrationState : M json :=
  v <- getJsonItem KEY_END_TO_END_MIGRATION_STATE ;;
  ret (nullish_or v (JNum NOT_STARTED)).

Definition setMigrationState (migrationState : json) : M unit :=
  setJsonItem KEY_END_TO_END_MIGRATION_STATE migrationState.

(** *** Olm sessions *)

Definition countEndToEndSessions : M nat :=
  s <- for_keys (R := nat)
         (fun i count =>
            key <- store_key i ;;
            match key with
            | Some k =>
                if startsWith k (keyEndToEndSessions "") then
                  sessions <- getJsonItem k ;;
                  ret (Next (count
                    + List.length (Object_keys (nullish_or sessions (JObj [])))))
                else ret (Next count)
            | None => ret (Next count)
            end) 0 ;;
  ret (fall_through s).

Definition _getEndToEndSessions (deviceKey : string) : M object :=
  sessions <- getJsonItem (keyEndToEndSessions deviceKey) ;;
  ret (fix_sessions sessions).

Definition getEndToEndSession (deviceKey sessionId : string) : M value :=
  sessions <- _getEndToEndSessions deviceKey ;;
  ret (or_empty (js_get sessions sessionId)).

Definition getEndToEndSessions (deviceKey : string) : M value :=
  sessions <- _getEndToEndSessions deviceKey ;;
  ret (as_value sessions).

(** [JSON.stringify] of an object that the store built writes its own
    properties. *)
Definition storeEndToEndSession (deviceKey sessionId : string)
    (sessionInfo : json) : M unit :=
  sessions <- _getEndToEndSessions deviceKey ;;
  setJsonItem (keyEndToEndSessions deviceKey)
    (JObj (own (js_put sessions sessionId sessionInfo))).

(** [result.push(x)] for each [x], leaving at the batch size. *)
Fixpoint push_batch {A} (xs : list A) (result : list A)
  : step (list A) (list A) :=
  match xs with
  | [] => Next result
  | x :: rest =>
      let result' := (result ++ [x])%list in
      if Nat.leb SESSION_BATCH_SIZE (List.length result') then Done result'
      else push_batch rest result'
  end.

Definition getEndToEndSessionsBatch : M (option (list json)) :=
  s <- for_keys
         (fun i result =>
            key <- store_key i ;;
            if key_startsWith key (keyEndToEndSessions "") then
              key' <- store_key i ;;
              match key' with
              | Some k =>
                  let deviceKey := second_segment k in
                  sessions <- _getEndToEndSessions deviceKey ;;
                  ret (push_batch (alist_values (own sessions)) result)
              | None => ret (Next result)
              end
            else ret (Next result)) [] ;;
  ret (batch_result s).

Definition deleteEndToEndSessionsBatch (sessions : list (string * string))
  : M unit :=
  for_of sessions
    (fun '(deviceKey, sessionId) =>
       deviceSessions <- _getEndToEndSessions deviceKey ;;
       let deviceSessions' := alist_remove (own deviceSessions) sessionId in
       if Nat.eqb (List.length (alist_keys deviceSessions')) 0 then
         removeItem (keyEndToEndSessions deviceKey)
       else
         setJsonItem (keyEndToEndSessions deviceKey) (JObj deviceSessions')).

(** *** Inbound group sessions *)

Definition getEndToEndInboundGroupSession (senderCurve25519Key sessionId : string)
  : M (json * json) :=
  groupSession <-
    getJsonItem (keyEndToEndInboundGroupSession senderCurve25519Key sessionId) ;;
  groupSessionWithheld <-
    getJsonItem
      (keyEndToEndInboundGroupSessionWithheld senderCurve25519Key sessionId) ;;
  ret (groupSession, groupSessionWithheld).

Definition storeEndToEndInboundGroupSession
    (senderCurve25519Key sessionId : string) (sessionData : json) : M unit :=
  setJsonItem (keyEndToEndInboundGroupSession senderCurve25519Key sessionId)
    sessionData.

Definition countEndToEndInboundGroupSessions : M nat :=
  s <- for_keys (R := nat)
         (fun i count =>
            key <- store_key i ;;
            if key_startsWith key KEY_INBOUND_SESSION_PREFIX
            then ret (Next (count + 1))
            else ret (Next count)) 0 ;;
  ret (fall_through s).

Definition getEndToEndInboundGroupSessionsBatch
  : M (option (list SessionExtended)) :=
  stored <- getJsonItem KEY_SESSIONS_NEEDING_BACKUP ;;
  let sessionsNeedingBackup := or_empty_object stored in
  s <- for_keys
         (fun i result =>
            key <- store_key i ;;
            match key with
            | Some k =>
                if startsWith k KEY_INBOUND_SESSION_PREFIX then
                  let key2 :=
                    slice_from (String.length KEY_INBOUND_SESSION_PREFIX) k in
                  data <- getJsonItem k ;;
                  flag <- js_in key2 sessionsNeedingBackup ;;
                  ret (push_batch
                         [mkSessionExtended (slice_to 43 key2)
                            (slice_from 44 key2) data flag]
                         result)
                else ret (Next result)
            | None => ret (Next result)
            end) [] ;;
  ret (batch_result s).

Definition deleteEndToEndInboundGroupSessionsBatch
    (sessions : list (string * string)) : M unit :=
  for_of sessions
    (fun '(senderKey, sessionId) =>
       removeItem (keyEndToEndInboundGroupSession senderKey sessionId)).

Definition getEndToEndRooms : M value :=
  s <- for_keys (R := object)
         (fun i result =>
            key <- store_key i ;;
            match key with
            | Some k =>
                if startsWith k (keyEndToEndRoomsPrefix "") then
                  let roomId :=
                    slice_from (String.length (keyEndToEndRoomsPrefix "")) k in
                  room <- getJsonItem k ;;
                  ret (Next (js_put result roomId room))
                else ret (Next result)
            | None => ret (Next result)
            end) empty_object ;;
  ret (as_value (fall_through s)).

(** The loop of [markSessionsNeedingBackup] over the sessions given. *)
Fixpoint mark_each (sessions : list (string * string)) (index : json)
  : M json :=
  match sessions with
  | [] => ret index
  | (senderKey, sessionId) :: rest =>
      index' <- set_flag index ((senderKey ++ "/") ++ sessionId) ;;
      mark_each rest index'
  end.

Definition markSessionsNeedingBackup (sessions : list (string * string))
  : M unit :=
  stored <- getJsonItem KEY_SESSIONS_NEEDING_BACKUP ;;
  sessionsNeedingBackup <- mark_each sessions (or_empty_object stored) ;;
  setJsonItem KEY_SESSIONS_NEEDING_BACKUP sessionsNeedingBackup.

Definition deleteAllData : M unit :=
  removeItem KEY_END_TO_END_ACCOUNT.

(** *** Olm account, cross-signing keys, secret storage *)

Definition getAccount : M json :=
  getJsonItem KEY_END_TO_END_ACCOUNT.

Definition storeAccount (accountPickle : string) : M unit :=
  setJsonItem KEY_END_TO_END_ACCOUNT (JStr accountPickle).

Definition getCrossSigningKeys : M json :=
  getJsonItem KEY_CROSS_SIGNING_KEYS.

Definition getSecretStorePrivateKey (type : string) : M json :=
  getJsonItem (keySecretStorePrivateKey type).

Definition storeSecretStorePrivateKey (type : string) (key : json) : M unit :=
  setJsonItem (keySecretStorePrivateKey type) key.

Definition doTxn {T} (func : M T) : M T := func.

(** *** What a read sees

    The value [getJsonItem] has for a key, as a function of the storage. *)
Definition decode (st : Storage) (key : string) : json :=
  match alist_get st key with
  | None => JNull
  | Some text =>
      match JSON_parse text with
      | inl v => v
      | inr _ => JNull
      end
  end.

(** The object [_getEndToEndSessions] builds for a device. *)
Definition session_object (st : Storage) (deviceKey : string) : object :=
  fix_sessions (decode st (keyEndToEndSessions deviceKey)).

(** The sessions [_getEndToEndSessions] has for a device: the own
    properties of the object. *)
Definition sessions_of (st : Storage) (deviceKey : string)
  : list (string * json) :=
  own (session_object st deviceKey).

(** The prototype of the object [_getEndToEndSessions] builds for a
    device. *)
Definition prototype_of (st : Storage) (deviceKey : string) : prototype :=
  proto (session_object st deviceKey).

(** A computation that only reads: its outcome is a function of the
    storage, the storage stays, the log may grow. *)
Definition reads {A} (m : M A) (f : Storage -> outcome A) : Prop :=
  forall w, exists l,
    m w = (f (storage w), mkWorld (storage w) (logs w ++ l)%list).

(** A scan over the keys, as the loops over [store.key(i)] do it. *)
Fixpoint scan_keys {A R} (g : option string -> A -> outcome (step A R))
    (keys : list string) (acc : A) : outcome (step A R) :=
  match keys with
  | [] => Return (Next acc)
  | k :: rest =>
      match g (Some k) acc with
      | Return (Next acc') => scan_keys g rest acc'
      | o => o
      end
  end.

(** [store.key(i)] as a function of the storage. *)
Definition key_at (st : Storage) (i : nat) : option string :=
  option_map fst (nth_error st i).

(** The number of sessions that [countEndToEndSessions] adds for a key. *)
Definition sessions_under (st : Storage) (k : string) : nat :=
  if startsWith k (keyEndToEndSessions "")
  then List.length (Object_keys (nullish_or (decode st k) (JObj [])))
  else 0.

(** The sessions that [getEndToEndSessionsBatch] collects at a key. *)
Definition batch_under (st : Storage) (k : string) : list json :=
  if startsWith k (keyEndToEndSessions "")
  then alist_values (sessions_of st (second_segment k))
  else [].

(** The world without a key. *)
Definition without (key : string) (w : World) : World :=
  mkWorld (alist_remove (storage w) key) (logs w).

(** What the loop of [_getEndToEndSessions] stores for a value. *)
Definition fix_value (val : json) : json :=
  match val with
  | JStr pickle => session_info pickle
  | _ => val
  end.

(** A property whose value is not a bare pickle. *)
Definition not_pickle (kv : string * json) : Prop :=
  forall s, snd kv <> JStr s.

(** A property whose value is a proper value. *)
Definition value_wf (kv : string * json) : Prop := json_wf (snd kv) = true.

(** The storage after [storeEndToEndSession]. *)
Definition store_session (st : Storage) (deviceKey sessionId : string)
    (sessionInfo : json) : Storage :=
  alist_set st (keyEndToEndSessions deviceKey)
    (JSON_stringify
       (JObj (own (js_put (session_object st deviceKey) sessionId
                     sessionInfo)))).

(** The storage after one round of [deleteEndToEndSessionsBatch]. *)
Definition delete_session (st : Storage) (s : string * string) : Storage :=
  let deviceSessions := alist_remove (sessions_of st (fst s)) (snd s) in
  if Nat.eqb (List.length (alist_keys deviceSessions)) 0
  then alist_remove st (keyEndToEndSessions (fst s))
  else alist_set st (keyEndToEndSessions (fst s))
         (JSON_stringify (JObj deviceSessions)).

(** What [deleteEndToEndSessionsBatch] leaves under the key of a device
    whose sessions are [sessions]: no key when there are none, else the
    text of the sessions. *)
Definition sessions_text (sessions : list (string * json)) : option string :=
  match sessions with
  | [] => None
  | _ => Some (JSON_stringify (JObj sessions))
  end.

(** Does the key of a device hold what a write of its sessions, as they
    are read, would leave? *)
Definition settled (st : Storage) (deviceKey : string) : Prop :=
  alist_get st (keyEndToEndSessions deviceKey)
  = sessions_text (sessions_of st deviceKey).

(** The storage after the sessions of a device, as they are read, have
    been written back. *)
Definition rewrite_device (st : Storage) (deviceKey : string) : Storage :=
  match sessions_text (sessions_of st deviceKey) with
  | None => alist_remove st (keyEndToEndSessions deviceKey)
  | Some text => alist_set st (keyEndToEndSessions deviceKey) text
  end.

(** A computation that returns and leaves the storage as [f] says. *)
Definition writes (m : M unit) (f : Storage -> Storage) : Prop :=
  forall w, exists l,
    m w = (Return tt, mkWorld (f (storage w)) (logs w ++ l)%list).

(** The methods of the store, with their arguments. *)
Inductive Call : Type :=
| CallContainsData
| CallGetMigrationState
| CallSetMigrationState (migrationState : json)
| CallCountEndToEndSessions
| CallGetEndToEndSession (deviceKey sessionId : string)
| CallGetEndToEndSessions (deviceKey : string)
| CallStoreEndToEndSession (deviceKey sessionId : string) (sessionInfo : json)
| CallGetEndToEndSessionsBatch
| CallDeleteEndToEndSessionsBatch (sessions : list (string * string))
| CallGetEndToEndInboundGroupSession (senderKey sessionId : string)
| CallStoreEndToEndInboundGroupSession (senderKey sessionId : string)
    (sessionData : json)
| CallCountEndToEndInboundGroupSessions
| CallGetEndToEndInboundGroupSessionsBatch
| CallDeleteEndToEndInboundGroupSessionsBatch (sessions : list (string * string))
| CallGetEndToEndRooms
| CallMarkSessionsNeedingBackup (sessions : list (string * string))
| CallDeleteAllData
| CallGetAccount
| CallStoreAccount (accountPickle : string)
| CallGetCrossSigningKeys
| CallGetSecretStorePrivateKey (type : string)
| CallStoreSecretStorePrivateKey (type : string) (key : json).

(** Run a computation for its effect. *)
Definition effect {A} (m : M A) : M unit := m ;;; ret tt.

(** A call of a method, for its effect on the world. *)
Definition exec (c : Call) : M unit :=
  match c with
  | CallContainsData => effect containsData
  | CallGetMigrationState => effect getMigrationState
  | CallSetMigrationState ms => setMigrationState ms
  | CallCountEndToEndSessions => effect countEndToEndSessions
  | CallGetEndToEndSession d s => effect (getEndToEndSession d s)
  | CallGetEndToEndSessions d => effect (getEndToEndSessions d)
  | CallStoreEndToEndSession d s info => storeEndToEndSession d s info
  | CallGetEndToEndSessionsBatch => effect getEndToEndSessionsBatch
  | CallDeleteEndToEndSessionsBatch l => deleteEndToEndSessionsBatch l
  | CallGetEndToEndInboundGroupSession k s =>
      effect (getEndToEndInboundGroupSession k s)
  | CallStoreEndToEndInboundGroupSession k s data =>
      storeEndToEndInboundGroupSession k s data
  | CallCountEndToEndInboundGroupSessions =>
      effect countEndToEndInboundGroupSessions
  | CallGetEndToEndInboundGroupSessionsBatch =>
      effect getEndToEndInboundGroupSessionsBatch
  | CallDeleteEndToEndInboundGroupSessionsBatch l =>
      deleteEndToEndInboundGroupSessionsBatch l
  | CallGetEndToEndRooms => effect getEndToEndRooms
  | CallMarkSessionsNeedingBackup l => markSessionsNeedingBackup l
  | CallDeleteAllData => deleteAllData
  | CallGetAccount => effect getAccount
  | CallStoreAccount p => storeAccount p
  | CallGetCrossSigningKeys => effect getCrossSigningKeys
  | CallGetSecretStorePrivateKey t => effect (getSecretStorePrivateKey t)
  | CallStoreSecretStorePrivateKey t k => storeSecretStorePrivateKey t k
  end.




(** A computation that leaves the storage as it is, whatever it returns. *)
Definition keeps {A} (m : M A) : Prop :=
  forall w, storage (snd (m w)) = storage w.

(** The name of a session in the index of sessions needing backup. *)
Definition backup_name (s : string * string) : string :=
  (fst s ++ "/") ++ snd s.

(** What [mark_each] makes of the index, as a function. *)
Fixpoint mark_all (sessions : list (string * string)) (index : json)
  : outcome json :=
  match sessions with
  | [] => Return index
  | s :: rest =>
      match index with
      | JObj props =>
          mark_all rest (JObj (alist_set props (backup_name s) (JBool true)))
      | JArr items => mark_all rest (JArr items)
      | _ => Throw TypeError
      end
  end.

(** The entries of the index, as [markSessionsNeedingBackup] and the
    batch of Megolm sessions read it. *)
Definition backup_flags (st : Storage) : list (string * json) :=
  Object_entries (or_empty_object (decode st KEY_SESSIONS_NEEDING_BACKUP)).

(** [k in v] as a function. *)
Definition in_index (k : string) (v : json) : outcome bool :=
  match v with
  | JObj _ | JArr _ => Return (has_property k v)
  | _ => Throw TypeError
  end.

(** The index is not a primitive value: [in] does not raise. *)
Definition index_ok (st : Storage) : bool :=
  match or_empty_object (decode st KEY_SESSIONS_NEEDING_BACKUP) with
  | JObj _ | JArr _ => true
  | _ => false
  end.

(** [needsBackup] for a name, with an index that is not a primitive value. *)
Definition flag_of (index : json) (k : string) : bool :=
  match in_index k index with Return b => b | Throw _ => false end.

(** The element of the batch that a key of an inbound group session gives. *)
Definition session_at (st : Storage) (k : string) : SessionExtended :=
  let key2 := slice_from (String.length KEY_INBOUND_SESSION_PREFIX) k in
  mkSessionExtended (slice_to 43 key2) (slice_from 44 key2) (decode st k)
    (flag_of (or_empty_object (decode st KEY_SESSIONS_NEEDING_BACKUP)) key2).

(** What the batch of inbound group sessions collects at a key. *)
Definition inbound_under (st : Storage) (k : string) : list SessionExtended :=
  if startsWith k KEY_INBOUND_SESSION_PREFIX then [session_at st k] else [].

(** The inbound group sessions of the storage, in the order of the keys. *)
Definition inbound_sessions (st : Storage) : list SessionExtended :=
  flat_map (inbound_under st) (alist_keys st).

(** One round of the loop of [getEndToEndInboundGroupSessionsBatch]. *)
Definition inbound_round (index : json) (st : Storage) (key : option string)
    (result : list SessionExtended)
  : outcome (step (list SessionExtended) (list SessionExtended)) :=
  match key with
  | Some k =>
      if startsWith k KEY_INBOUND_SESSION_PREFIX then
        let key2 := slice_from (String.length KEY_INBOUND_SESSION_PREFIX) k in
        match in_index key2 index with
        | Return flag =>
            Return (push_batch
                      [mkSessionExtended (slice_to 43 key2)
                         (slice_from 44 key2) (decode st k) flag] result)
        | Throw e => Throw e
        end
      else Return (Next result)
  | None => Return (Next result)
  end.

(** A computation that never raises. *)
Definition returns {A} (m : M A) : Prop :=
  forall w, exists a, fst (m w) = Return a.

(** The device key that a key of sessions was made of. *)
Definition device_of (k : string) : string :=
  slice_from (String.length (keyEndToEndSessions "")) k.

(** A key of sessions whose device key has no slash; any other key. *)
Definition plain_device_key (k : string) : bool :=
  negb (startsWith k (keyEndToEndSessions "")
        && contains_char "/" (device_of k)).

(** The sessions under the keys of sessions, in the order of the keys. *)
Definition all_sessions (st : Storage) : list json :=
  flat_map
    (fun k =>
       if startsWith k (keyEndToEndSessions "")
       then alist_values (own (fix_sessions (decode st k)))
       else []) (alist_keys st).

(** Does the mapping stored under a key have an entry named
    [__proto__]?  [_getEndToEndSessions] gives such an entry to the setter
    of [Object.prototype]; [countEndToEndSessions] counts it. *)
Definition has_proto_entry (st : Storage) (k : string) : bool :=
  alist_has (Object_entries (or_empty_object (decode st k))) "__proto__".

(** *** What the methods write, and when they raise *)

(** The keys that a call gives to [setItem] or [removeItem]: the keys of
    the records the method is about.  The getters, the counters and the
    batch readers give none. *)
Definition touched (c : Call) : list string :=
  match c with
  | CallSetMigrationState _ => [KEY_END_TO_END_MIGRATION_STATE]
  | CallStoreEndToEndSession deviceKey _ _ => [keyEndToEndSessions deviceKey]
  | CallDeleteEndToEndSessionsBatch sessions =>
      map (fun s => keyEndToEndSessions (fst s)) sessions
  | CallStoreEndToEndInboundGroupSession senderKey sessionId _ =>
      [keyEndToEndInboundGroupSession senderKey sessionId]
  | CallDeleteEndToEndInboundGroupSessionsBatch sessions =>
      map (fun s => keyEndToEndInboundGroupSession (fst s) (snd s)) sessions
  | CallMarkSessionsNeedingBackup _ => [KEY_SESSIONS_NEEDING_BACKUP]
  | CallDeleteAllData => [KEY_END_TO_END_ACCOUNT]
  | CallStoreAccount _ => [KEY_END_TO_END_ACCOUNT]
  | CallStoreSecretStorePrivateKey type _ => [keySecretStorePrivateKey type]
  | _ => []
  end.

(** A storage reached from [st] by [setItem] and [removeItem] on keys of a
    list. *)
Inductive changed (keys : list string) (st : Storage) : Storage -> Prop :=
| changed_none : changed keys st st
| changed_set st' k text :
    In k keys -> changed keys st st' -> changed keys st (alist_set st' k text)
| changed_remove st' k :
    In k keys -> changed keys st st' -> changed keys st (alist_remove st' k).

(** Is the key the key of an inbound group session? *)
Definition is_inbound_key (k : string) : bool :=
  startsWith k KEY_INBOUND_SESSION_PREFIX.

(** The keys of the inbound group sessions, in the order of [key(i)]. *)
Definition inbound_keys (st : Storage) : list string :=
  filter is_inbound_key (alist_keys st).

(** Does a call raise on a storage?  The two methods that apply an operator
    to the index of sessions needing backup do, when the index is a
    primitive value: [in] for each inbound group session of the batch, the
    assignment for each session to mark.  Writing to the storage always
    succeeds here: the quota of [localStorage] is outside the model. *)
Definition raises (c : Call) (st : Storage) : bool :=
  match c with
  | CallGetEndToEndInboundGroupSessionsBatch =>
      negb (index_ok st) && existsb is_inbound_key (alist_keys st)
  | CallMarkSessionsNeedingBackup (_ :: _) => negb (index_ok st)
  | _ => false
  end.

(** The room id that a key of a room was made of. *)
Definition room_of (k : string) : string :=
  slice_from (String.length (keyEndToEndRoomsPrefix "")) k.

(** Is the key the key of a room? *)
Definition is_room_key (k : string) : bool :=
  startsWith k (keyEndToEndRoomsPrefix "").

(** The rooms that [getEndToEndRooms] collects, as a function of the
    storage. *)
Definition rooms_of (st : Storage) : object :=
  fold_left (fun result k => js_put result (room_of k) (decode st k))
    (filter is_room_key (alist_keys st)) empty_object.

(** The part of the key of an inbound group session after the prefix. *)
Definition inbound_suffix (k : string) : string :=
  slice_from (String.length KEY_INBOUND_SESSION_PREFIX) k.

(** The key has the separator where a sender key of 43 characters puts
    it: after the prefix and 43 characters. *)
Definition inbound_key_ok (k : string) : bool :=
  String.eqb (slice_to 1 (slice_from 43 (inbound_suffix k))) "/".

(** The sender key and the session id of an element of the batch, as
    [deleteEndToEndInboundGroupSessionsBatch] and
    [markSessionsNeedingBackup] take them. *)
Definition session_name (e : SessionExtended) : string * string :=
  (senderKey e, sessionId e).

(** An element of the batch, flagged if it is one of the sessions marked. *)
Definition marked (sessions : list (string * string)) (e : SessionExtended)
  : SessionExtended :=
  mkSessionExtended (senderKey e) (sessionId e) (sessionData e)
    (needsBackup e
     || existsb (String.eqb (backup_name (session_name e)))
          (map backup_name sessions)).

(** Is the call a method that writes the sessions of devices? *)
Definition writes_sessions (c : Call) : bool :=
  match c with
  | CallStoreEndToEndSession _ _ _ | CallDeleteEndToEndSessionsBatch _ => true
  | _ => false
  end.

(** Is the call a method that writes inbound group sessions? *)
Definition writes_inbound (c : Call) : bool :=
  match c with
  | CallStoreEndToEndInboundGroupSession _ _ _
  | CallDeleteEndToEndInboundGroupSessionsBatch _ => true
  | _ => false
  end.

(** Is the key the key of the sessions of a device? *)
Definition is_sessions_key (k : string) : bool :=
  startsWith k (keyEndToEndSessions "").

(** Does every text under a key of the store parse? *)
Definition readable (st : Storage) : bool :=
  forallb
    (fun kv =>
       negb (startsWith (fst kv) E2E_PREFIX)
       || match JSON_parse (snd kv) with inl _ => true | inr _ => false end)
    st.

(** A computation that leaves a storage whose texts parse, and the log,
    as they are. *)
Definition quiet {A} (m : M A) : Prop :=
  forall w, readable (storage w) = true -> snd (m w) = w.

(** The values that a caller passes are values of JavaScript: no object
    has a property twice. *)
Definition proper_call (c : Call) : bool :=
  match c with
  | CallSetMigrationState v
  | CallStoreEndToEndSession _ _ v
  | CallStoreEndToEndInboundGroupSession _ _ v
  | CallStoreSecretStorePrivateKey _ v => json_wf v
  | _ => true
  end.

(** ** Lemmas *)

Lemma reads_ret {A} (a : A) : reads (ret a) (fun _ => Return a).
Proof. intros w. exists []. unfold ret. rewrite app_nil_r. now destruct w. Qed.

Lemma reads_throw {A} (e : Exn) : reads (@throw A e) (fun _ => Throw e).
Proof. intros w. exists []. unfold throw. rewrite app_nil_r. now destruct w. Qed.

Lemma reads_bind {A B} (m : M A) (k : A -> M B) f g :
  reads m f -> (forall a, reads (k a) (g a)) ->
  reads (bind m k)
    (fun st => match f st with Return a => g a st | Throw e => Throw e end).
Proof.
  intros Hm Hk w. unfold bind.
  destruct (Hm w) as [l ->].
  destruct (f (storage w)) as [a|e].
  - destruct (Hk a (mkWorld (storage w) (logs w ++ l)%list)) as [l' ->].
    cbn. exists (l ++ l')%list. now rewrite app_assoc.
  - now exists l.
Qed.

Lemma reads_ext {A} (m : M A) f g :
  reads m f -> (forall st, f st = g st) -> reads m g.
Proof. intros H E w. destruct (H w) as [l ->]. exists l. now rewrite E. Qed.

Lemma reads_getItem key :
  reads (getItem key) (fun st => Return (alist_get st key)).
Proof. intros w. exists []. unfold getItem. rewrite app_nil_r. now destruct w. Qed.

Lemma reads_store_length :
  reads store_length (fun st => Return (List.length st)).
Proof. intros w. exists []. unfold store_length. rewrite app_nil_r. now destruct w. Qed.

Lemma reads_store_key i :
  reads (store_key i) (fun st => Return (key_at st i)).
Proof. intros w. exists []. unfold store_key. rewrite app_nil_r. now destruct w. Qed.

Lemma reads_logger_log e : reads (logger_log e) (fun _ => Return tt).
Proof. intros w. now exists [e]. Qed.

Lemma reads_getJsonItem key :
  reads (getJsonItem key) (fun st => Return (decode st key)).
Proof.
  unfold getJsonItem.
  eapply reads_ext.
  - apply reads_bind; [apply reads_getItem|].
    intros item.
    instantiate (1 := fun item st =>
      Return match item with
             | None => JNull
             | Some text =>
                 match JSON_parse text with inl v => v | inr _ => JNull end
             end).
    destruct item as [text|]; [|apply reads_ret].
    destruct (JSON_parse text) as [v|e]; [apply reads_ret|].
    eapply reads_ext.
    + apply reads_bind; [apply reads_logger_log|]. intros u1.
      instantiate (1 := fun _ _ => Return JNull).
      eapply reads_ext.
      * apply reads_bind; [apply reads_logger_log|]. intros u2.
        instantiate (1 := fun _ _ => Return JNull). apply reads_ret.
      * reflexivity.
    + reflexivity.
  - reflexivity.
Qed.

Lemma reads_bind_as {A B} (m : M A) (k : A -> M B) f g h :
  reads m f -> (forall a, reads (k a) (g a)) ->
  (forall st, h st = match f st with Return a => g a st | Throw e => Throw e end) ->
  reads (bind m k) h.
Proof.
  intros Hm Hk E. eapply reads_ext; [apply (reads_bind _ _ _ _ Hm Hk)|].
  intros st. now rewrite E.
Qed.

Lemma skipn_cons_nth {X} (l : list X) i x :
  nth_error l i = Some x -> skipn i l = x :: skipn (S i) l.
Proof.
  revert i. induction l as [|y l IH]; intros [|i] H; cbn in *; try discriminate.
  - now injection H as ->.
  - now apply IH.
Qed.

Lemma key_at_keys st i :
  key_at st i = nth_error (alist_keys st) i.
Proof. unfold key_at, alist_keys. symmetry. apply nth_error_map. Qed.

(** A loop over the keys whose body only reads is a scan of the key list. *)
Lemma for_keys_from_scan {A R} (body : nat -> A -> M (step A R))
    (g : Storage -> option string -> A -> outcome (step A R)) :
  (forall i acc, reads (body i acc) (fun st => g st (key_at st i) acc)) ->
  forall fuel i acc w,
    fuel + i = List.length (storage w) ->
    exists l,
      for_keys_from fuel i body acc w
      = (scan_keys (g (storage w)) (skipn i (alist_keys (storage w))) acc,
         mkWorld (storage w) (logs w ++ l)%list).
Proof.
  intros Hb fuel. induction fuel as [|fuel IH]; intros i acc w Hlen.
  - cbn in Hlen. subst i. unfold alist_keys.
    rewrite <- (length_map fst), skipn_all. cbn.
    exists []. rewrite app_nil_r. now destruct w.
  - cbn [for_keys_from]. unfold bind at 1. unfold store_length at 1.
    assert (Hi : i < List.length (storage w)) by lia.
    apply Nat.ltb_lt in Hi as Hi'. rewrite Hi'.
    unfold bind at 1.
    destruct (Hb i acc w) as [l ->].
    assert (Hk : exists k, nth_error (alist_keys (storage w)) i = Some k).
    { destruct (nth_error (alist_keys (storage w)) i) eqn:E; [eauto|].
      apply nth_error_None in E. unfold alist_keys in E.
      rewrite length_map in E. lia. }
    destruct Hk as [k Hk].
    rewrite (skipn_cons_nth _ _ _ Hk). cbn [scan_keys].
    rewrite key_at_keys, Hk.
    destruct (g (storage w) (Some k) acc) as [[acc'|r]|e].
    + destruct (IH (S i) acc' (mkWorld (storage w) (logs w ++ l)%list))
        as [l' E]; [cbn; lia|].
      rewrite E. cbn. exists (l ++ l')%list. now rewrite app_assoc.
    + now exists l.
    + now exists l.
Qed.

Lemma for_keys_reads {A R} (body : nat -> A -> M (step A R))
    (g : Storage -> option string -> A -> outcome (step A R)) acc :
  (forall i acc, reads (body i acc) (fun st => g st (key_at st i) acc)) ->
  reads (for_keys body acc)
    (fun st => scan_keys (g st) (alist_keys st) acc).
Proof.
  intros Hb w. unfold for_keys, bind, store_length.
  destruct (for_keys_from_scan body g Hb (List.length (storage w)) 0 acc w)
    as [l E]; [lia|].
  exists l. now rewrite E.
Qed.

(** *** Association lists *)

Lemma alist_get_set {V} (l : list (string * V)) k v k' :
  alist_get (alist_set l k v) k'
  = if String.eqb k k' then Some v else alist_get l k'.
Proof.
  induction l as [|[k0 v0] l IH]; cbn.
  - destruct (String.eqb k k'); reflexivity.
  - destruct (String.eqb k0 k) eqn:E0; cbn.
    + apply String.eqb_eq in E0. subst k0.
      destruct (String.eqb k k'); reflexivity.
    + destruct (String.eqb k0 k') eqn:E1; [|exact IH].
      apply String.eqb_eq in E1. subst k0.
      rewrite String.eqb_sym, E0. reflexivity.
Qed.

Lemma alist_get_remove {V} (l : list (string * V)) k k' :
  alist_get (alist_remove l k) k'
  = if String.eqb k k' then None else alist_get l k'.
Proof.
  induction l as [|[k0 v0] l IH]; cbn.
  - destruct (String.eqb k k'); reflexivity.
  - destruct (String.eqb k0 k) eqn:E0; cbn.
    + rewrite IH. apply String.eqb_eq in E0. subst k0.
      destruct (String.eqb k k'); reflexivity.
    + rewrite IH. destruct (String.eqb k0 k') eqn:E1; [|reflexivity].
      apply String.eqb_eq in E1. subst k0.
      rewrite String.eqb_sym, E0. reflexivity.
Qed.

Lemma alist_keys_remove {V} (l : list (string * V)) k :
  alist_keys (alist_remove l k)
  = filter (fun k' => negb (String.eqb k' k)) (alist_keys l).
Proof.
  induction l as [|[k0 v0] l IH]; cbn; [reflexivity|].
  destruct (String.eqb k0 k); cbn; [exact IH|]. f_equal. exact IH.
Qed.

(** ** Migration state *)

Lemma reads_getMigrationState :
  reads getMigrationState
    (fun st => Return (nullish_or (decode st KEY_END_TO_END_MIGRATION_STATE)
                         (JNum NOT_STARTED))).
Proof.
  unfold getMigrationState.
  eapply (reads_bind_as _ _ _
            (fun v _ => Return (nullish_or v (JNum NOT_STARTED))));
    [apply reads_getJsonItem | intros v; apply reads_ret | reflexivity].
Qed.

(** C6.  A store whose migration-state key is absent, or holds text that
    [JSON.parse] rejects, answers [getMigrationState] with [NOT_STARTED]; and
    in no store does [getMigrationState] answer [null] or raise.  The
    storage is left as it was. *)
Theorem getMigrationState_defaults_to_NOT_STARTED (w : World) :
  (alist_get (storage w) KEY_END_TO_END_MIGRATION_STATE = None
   \/ (exists text e,
         alist_get (storage w) KEY_END_TO_END_MIGRATION_STATE = Some text
         /\ JSON_parse text = inr e)) ->
  fst (getMigrationState w) = Return (JNum NOT_STARTED)
  /\ storage (snd (getMigrationState w)) = storage w
  /\ (forall w', exists v,
        fst (getMigrationState w') = Return v /\ v <> JNull).
Proof.
  intros H.
  assert (G : forall w', exists l,
             getMigrationState w'
             = (Return (nullish_or (decode (storage w')
                                      KEY_END_TO_END_MIGRATION_STATE)
                          (JNum NOT_STARTED)),
                mkWorld (storage w') (logs w' ++ l)%list))
    by exact reads_getMigrationState.
  destruct (G w) as [l E]. rewrite E. cbn [fst snd storage].
  repeat split.
  - unfold decode.
    destruct H as [-> | (text & e & -> & ->)]; reflexivity.
  - intros w'. destruct (G w') as [l' E']. rewrite E'. cbn [fst].
    eexists. split; [reflexivity|].
    destruct (decode (storage w') KEY_END_TO_END_MIGRATION_STATE);
      cbn; discriminate.
Qed.

(** ** Delete all data *)

(** C7.  [deleteAllData] removes the record under [crypto.account] and
    nothing else: every other key reads as before, the remaining keys keep
    their order, nothing is logged, nothing is raised.  In particular the
    sessions, inbound group sessions, withheld records, rooms, backup
    index, cross-signing keys, secret-store keys and the migration state
    are as before. *)
Theorem deleteAllData_removes_only_account (w : World) :
  let w' := snd (deleteAllData w) in
  fst (deleteAllData w) = Return tt
  /\ logs w' = logs w
  /\ (forall k, alist_get (storage w') k
                = if String.eqb KEY_END_TO_END_ACCOUNT k then None
                  else alist_get (storage w) k)
  /\ alist_keys (storage w')
     = filter (fun k => negb (String.eqb k KEY_END_TO_END_ACCOUNT))
         (alist_keys (storage w))
  /\ (forall d, alist_get (storage w') (keyEndToEndSessions d)
                = alist_get (storage w) (keyEndToEndSessions d))
  /\ (forall k s, alist_get (storage w') (keyEndToEndInboundGroupSession k s)
                  = alist_get (storage w) (keyEndToEndInboundGroupSession k s))
  /\ (forall k s,
        alist_get (storage w') (keyEndToEndInboundGroupSessionWithheld k s)
        = alist_get (storage w) (keyEndToEndInboundGroupSessionWithheld k s))
  /\ (forall r, alist_get (storage w') (keyEndToEndRoomsPrefix r)
                = alist_get (storage w) (keyEndToEndRoomsPrefix r))
  /\ alist_get (storage w') KEY_SESSIONS_NEEDING_BACKUP
     = alist_get (storage w) KEY_SESSIONS_NEEDING_BACKUP
  /\ alist_get (storage w') KEY_CROSS_SIGNING_KEYS
     = alist_get (storage w) KEY_CROSS_SIGNING_KEYS
  /\ (forall t, alist_get (storage w') (keySecretStorePrivateKey t)
                = alist_get (storage w) (keySecretStorePrivateKey t))
  /\ alist_get (storage w') KEY_END_TO_END_MIGRATION_STATE
     = alist_get (storage w) KEY_END_TO_END_MIGRATION_STATE.
Proof.
  cbn. repeat split.
  - intros k. apply alist_get_remove.
  - apply alist_keys_remove.
  - intros d. now rewrite alist_get_remove.
  - intros k s. now rewrite alist_get_remove.
  - intros k s. now rewrite alist_get_remove.
  - intros r. now rewrite alist_get_remove.
  - now rewrite alist_get_remove.
  - now rewrite alist_get_remove.
  - intros t. now rewrite alist_get_remove.
  - now rewrite alist_get_remove.
Qed.

Lemma distinct_NoDup (l : list string) : distinct l = true <-> NoDup l.
Proof.
  induction l as [|k l IH]; cbn.
  - split; [constructor | reflexivity].
  - rewrite andb_true_iff, negb_true_iff, IH. split.
    + intros [Hk Hl]. constructor; [|exact Hl].
      intros Hin.
      assert (existsb (String.eqb k) l = true); [|congruence].
      apply existsb_exists. exists k. split; [exact Hin|apply String.eqb_refl].
    + intros H. inversion H as [|? ? Hk Hl]; subst. split; [|exact Hl].
      destruct (existsb (String.eqb k) l) eqn:E; [|reflexivity].
      apply existsb_exists in E as (x & Hx & Ex).
      apply String.eqb_eq in Ex. now subst x.
Qed.

Lemma alist_set_fresh {V} (l : list (string * V)) k v :
  ~ In k (alist_keys l) -> alist_set l k v = (l ++ [(k, v)])%list.
Proof.
  induction l as [|[k0 v0] l IH]; cbn; intros H; [reflexivity|].
  destruct (String.eqb k0 k) eqn:E.
  - apply String.eqb_eq in E. tauto.
  - f_equal. apply IH. tauto.
Qed.

Lemma alist_keys_set {V} (l : list (string * V)) k v :
  alist_keys (alist_set l k v)
  = if existsb (String.eqb k) (alist_keys l) then alist_keys l
    else (alist_keys l ++ [k])%list.
Proof.
  unfold alist_keys.
  induction l as [|[k0 v0] l IH]; cbn; [reflexivity|].
  rewrite (String.eqb_sym k k0).
  destruct (String.eqb k0 k) eqn:E; cbn; [reflexivity|].
  rewrite IH. now destruct (existsb (String.eqb k) (map fst l)).
Qed.

Lemma alist_set_NoDup {V} (l : list (string * V)) k v :
  NoDup (alist_keys l) -> NoDup (alist_keys (alist_set l k v)).
Proof.
  intros H. rewrite alist_keys_set.
  destruct (existsb (String.eqb k) (alist_keys l)) eqn:E; [exact H|].
  apply NoDup_app; [exact H | repeat constructor; intros [] |].
  intros x Hx [E'|[]]. subst x.
  assert (existsb (String.eqb k) (alist_keys l) = true); [|congruence].
  apply existsb_exists. exists k. split; [exact Hx|apply String.eqb_refl].
Qed.

Lemma alist_set_Forall {V} (P : string * V -> Prop) (l : list (string * V)) k v :
  (forall k', P (k', v)) -> Forall P l -> Forall P (alist_set l k v).
Proof.
  intros Hv. induction 1 as [|[k0 v0] l H0 Hl IH]; cbn.
  - repeat constructor. apply Hv.
  - destruct (String.eqb k0 k); constructor; auto.
Qed.

Lemma alist_remove_absent {V} (l : list (string * V)) k :
  alist_get l k = None -> alist_remove l k = l.
Proof.
  induction l as [|[k0 v0] l IH]; cbn; [reflexivity|].
  destruct (String.eqb k0 k); [discriminate|].
  intros H. f_equal. now apply IH.
Qed.

Lemma alist_get_In {V} (l : list (string * V)) k v :
  alist_get l k = Some v -> In (k, v) l.
Proof.
  induction l as [|[k0 v0] l IH]; cbn; [discriminate|].
  destruct (String.eqb k0 k) eqn:E.
  - apply String.eqb_eq in E. intros [= ->]. left. now subst.
  - intros H. right. now apply IH.
Qed.

(** Setting the members of a list with distinct names one after the
    other lists them in order. *)
Lemma fold_set_distinct {V W} (f : V -> W) (l : list (string * V))
    (acc : list (string * W)) :
  NoDup (alist_keys acc ++ alist_keys l) ->
  fold_left (fun a kv => alist_set a (fst kv) (f (snd kv))) l acc
  = (acc ++ map (fun kv => (fst kv, f (snd kv))) l)%list.
Proof.
  revert acc. induction l as [|[k v] l IH]; intros acc H; cbn.
  - now rewrite app_nil_r.
  - cbn in H. rewrite alist_set_fresh.
    + rewrite IH.
      * now rewrite <- app_assoc.
      * unfold alist_keys. rewrite map_app. cbn.
        rewrite <- app_assoc. exact H.
    + apply NoDup_remove_2 in H. intros Hin. apply H.
      apply in_or_app. now left.
Qed.

(** *** Objects *)

Lemma alist_has_keys {V} (l : list (string * V)) k :
  alist_has l k = existsb (String.eqb k) (alist_keys l).
Proof.
  unfold alist_has. induction l as [|[k' v] l IH]; [reflexivity|].
  cbn. rewrite (String.eqb_sym k k').
  destruct (String.eqb k' k); [reflexivity|exact IH].
Qed.

Lemma existsb_eqb_In k keys :
  existsb (String.eqb k) keys = true <-> In k keys.
Proof.
  rewrite existsb_exists. split.
  - intros [x [Hx E]]. apply String.eqb_eq in E. now subst.
  - intros H. exists k. split; [exact H|apply String.eqb_refl].
Qed.

Lemma alist_has_In {V} (l : list (string * V)) k :
  alist_has l k = true <-> In k (alist_keys l).
Proof. rewrite alist_has_keys. apply existsb_eqb_In. Qed.

Lemma alist_has_false {V} (l : list (string * V)) k :
  alist_has l k = false <-> ~ In k (alist_keys l).
Proof.
  rewrite <- alist_has_In. destruct (alist_has l k); split; congruence.
Qed.

Lemma alist_get_None {V} (l : list (string * V)) k :
  alist_get l k = None <-> ~ In k (alist_keys l).
Proof.
  rewrite <- alist_has_false. unfold alist_has.
  destruct (alist_get l k); split; congruence.
Qed.

Lemma array_index_spelling k n :
  array_index k = Some n -> k = NilEmpty.string_of_uint (N.to_uint n).
Proof.
  unfold array_index.
  destruct (NilEmpty.uint_of_string k) as [u|]; [|discriminate].
  cbv zeta.
  destruct (String.eqb (NilEmpty.string_of_uint (N.to_uint (N.of_uint u))) k
            && N.ltb (N.of_uint u) 4294967295) eqn:E; [|discriminate].
  intros [= <-]. apply andb_true_iff in E as [E _].
  apply String.eqb_eq in E. now symmetry.
Qed.

Lemma array_index_inj k k' n :
  array_index k = Some n -> array_index k' = Some n -> k = k'.
Proof.
  intros H H'. apply array_index_spelling in H, H'. congruence.
Qed.

Lemma insert_index_Permutation l n k v :
  Permutation (insert_index l n k v) ((k, v) :: l).
Proof.
  induction l as [|[k' v'] l IH]; cbn [insert_index]; [reflexivity|].
  destruct (array_index k') as [m|]; [|reflexivity].
  destruct (N.ltb m n); [|reflexivity].
  eapply perm_trans; [apply perm_skip, IH|apply perm_swap].
Qed.

Lemma alist_get_insert_index l n k v k' :
  alist_get l k = None ->
  alist_get (insert_index l n k v) k'
  = if String.eqb k k' then Some v else alist_get l k'.
Proof.
  induction l as [|[k0 v0] l IH]; cbn [insert_index alist_get]; intros H.
  - reflexivity.
  - destruct (String.eqb k0 k) eqn:E0; [discriminate|].
    destruct (array_index k0) as [m|]; [destruct (N.ltb m n)|];
      cbn [alist_get]; try reflexivity.
    rewrite IH by exact H.
    destruct (String.eqb k0 k') eqn:E1; [|reflexivity].
    apply String.eqb_eq in E1. subst k'.
    now rewrite String.eqb_sym, E0.
Qed.

Lemma alist_get_define l k v k' :
  alist_get (define_property l k v) k'
  = if String.eqb k k' then Some v else alist_get l k'.
Proof.
  unfold define_property.
  destruct (array_index k) as [n|]; [|apply alist_get_set].
  unfold alist_has. destruct (alist_get l k) eqn:E; [apply alist_get_set|].
  now apply alist_get_insert_index.
Qed.

Lemma define_property_plain l k v :
  array_index k = None -> define_property l k v = alist_set l k v.
Proof. unfold define_property. now intros ->. Qed.

Lemma define_property_known l k v :
  alist_has l k = true -> define_property l k v = alist_set l k v.
Proof.
  intros H. unfold define_property. rewrite H.
  now destruct (array_index k).
Qed.

Lemma define_property_Permutation l k v :
  alist_has l k = false -> Permutation (define_property l k v) ((k, v) :: l).
Proof.
  intros H. unfold define_property. rewrite H.
  destruct (array_index k) as [n|]; [apply insert_index_Permutation|].
  rewrite alist_set_fresh by now apply alist_has_false.
  apply Permutation_sym, Permutation_cons_append.
Qed.

Lemma define_property_keys l k v :
  alist_has l k = true ->
  alist_keys (define_property l k v) = alist_keys l.
Proof.
  intros H. rewrite define_property_known by exact H.
  rewrite alist_keys_set, <- alist_has_keys. now rewrite H.
Qed.

Lemma define_property_new_keys l k v :
  alist_has l k = false ->
  Permutation (alist_keys (define_property l k v)) (k :: alist_keys l).
Proof.
  intros H. unfold alist_keys.
  apply (Permutation_map fst (define_property_Permutation l k v H)).
Qed.

Lemma In_keys_define l k v k' :
  In k' (alist_keys (define_property l k v)) <-> k' = k \/ In k' (alist_keys l).
Proof.
  destruct (alist_has l k) eqn:E.
  - rewrite define_property_keys by exact E. apply alist_has_In in E.
    split; [now right|]. now intros [->|H].
  - pose proof (define_property_new_keys l k v E) as HP. split; intros H.
    + apply (Permutation_in _ HP) in H as [<-|H]; [now left|now right].
    + apply (Permutation_in _ (Permutation_sym HP)).
      destruct H as [->|H]; [now left|now right].
Qed.

Lemma define_property_NoDup l k v :
  NoDup (alist_keys l) -> NoDup (alist_keys (define_property l k v)).
Proof.
  intros H. destruct (alist_has l k) eqn:E.
  - now rewrite define_property_keys.
  - apply (Permutation_NoDup
             (Permutation_sym (define_property_new_keys l k v E))).
    constructor; [now apply alist_has_false|exact H].
Qed.

Lemma define_property_Forall (P : string * json -> Prop) l k v :
  (forall k', P (k', v)) -> Forall P l -> Forall P (define_property l k v).
Proof.
  intros Hv Hl. destruct (alist_has l k) eqn:E.
  - rewrite define_property_known by exact E. now apply alist_set_Forall.
  - apply (Permutation_Forall
             (Permutation_sym (define_property_Permutation l k v E))).
    constructor; [apply Hv|exact Hl].
Qed.

Lemma length_alist_set {V} (l : list (string * V)) k v :
  List.length (alist_set l k v)
  = List.length l + (if alist_has l k then 0 else 1).
Proof.
  unfold alist_has. induction l as [|[k' v'] l IH]; [reflexivity|].
  cbn. destruct (String.eqb k' k); cbn; [lia|].
  rewrite IH. now destruct (alist_get l k).
Qed.

Lemma length_define_property l k v :
  List.length (define_property l k v)
  = List.length l + (if alist_has l k then 0 else 1).
Proof.
  destruct (alist_has l k) eqn:E.
  - rewrite define_property_known, length_alist_set by exact E.
    now rewrite E.
  - rewrite (Permutation_length (define_property_Permutation l k v E)).
    cbn. lia.
Qed.

Lemma define_property_not_nil l k v : define_property l k v <> [].
Proof.
  intros H. pose proof (length_define_property l k v) as L.
  rewrite H in L. cbn [List.length] in L.
  destruct (alist_has l k) eqn:E; [|lia].
  destruct l; [discriminate E|cbn [List.length] in L; lia].
Qed.

Lemma own_js_put o k v :
  own (js_put o k v)
  = if String.eqb k "__proto__" && proto_setter_reached o
    then own o
    else define_property (own o) k v.
Proof.
  unfold js_put.
  now destruct (String.eqb k "__proto__" && proto_setter_reached o).
Qed.

Lemma proto_js_put o k v :
  proto (js_put o k v)
  = if String.eqb k "__proto__" && proto_setter_reached o
    then set_prototype v (proto o)
    else proto o.
Proof.
  unfold js_put.
  now destruct (String.eqb k "__proto__" && proto_setter_reached o).
Qed.

Lemma js_put_other o k v :
  String.eqb k "__proto__" = false ->
  js_put o k v = mkObject (define_property (own o) k v) (proto o).
Proof. intros H. unfold js_put. now rewrite H. Qed.

(** An assignment changes what the object has under no other name, the
    name [__proto__] apart. *)
Lemma alist_get_js_put o k v k' :
  String.eqb k' "__proto__" = false ->
  alist_get (own (js_put o k v)) k'
  = if String.eqb k k' then Some v else alist_get (own o) k'.
Proof.
  intros H. rewrite own_js_put.
  destruct (String.eqb k "__proto__" && proto_setter_reached o) eqn:E;
    [|apply alist_get_define].
  apply andb_true_iff in E as [E _]. apply String.eqb_eq in E. subst k.
  now rewrite String.eqb_sym, H.
Qed.

Lemma js_put_NoDup o k v :
  NoDup (alist_keys (own o)) -> NoDup (alist_keys (own (js_put o k v))).
Proof.
  intros H. rewrite own_js_put.
  destruct (String.eqb k "__proto__" && proto_setter_reached o);
    [exact H|now apply define_property_NoDup].
Qed.

Lemma js_put_Forall (P : string * json -> Prop) o k v :
  (forall k', P (k', v)) -> Forall P (own o) -> Forall P (own (js_put o k v)).
Proof.
  intros Hv H. rewrite own_js_put.
  destruct (String.eqb k "__proto__" && proto_setter_reached o);
    [exact H|now apply define_property_Forall].
Qed.

Lemma In_keys_js_put o k v k' :
  In k' (alist_keys (own (js_put o k v))) ->
  k' = k \/ In k' (alist_keys (own o)).
Proof.
  rewrite own_js_put.
  destruct (String.eqb k "__proto__" && proto_setter_reached o);
    [now right|apply In_keys_define].
Qed.

Lemma put_all_cons e l o :
  put_all (e :: l) o = put_all l (js_put o (fst e) (snd e)).
Proof. reflexivity. Qed.

Lemma put_all_NoDup l o :
  NoDup (alist_keys (own o)) -> NoDup (alist_keys (own (put_all l o))).
Proof.
  revert o. induction l as [|e l IH]; intros o H; [exact H|].
  rewrite put_all_cons. apply IH. now apply js_put_NoDup.
Qed.

Lemma put_all_Forall (P : string * json -> Prop) l o :
  (forall k k' v, In (k, v) l -> P (k', v)) ->
  Forall P (own o) -> Forall P (own (put_all l o)).
Proof.
  revert o. induction l as [|[k v] l IH]; intros o Hl H; [exact H|].
  rewrite put_all_cons. apply IH.
  - intros k0 k' v0 Hin. apply (Hl k0). now right.
  - apply js_put_Forall; [|exact H]. intros k'. apply (Hl k). now left.
Qed.

Lemma In_keys_put_all l o k :
  In k (alist_keys (own (put_all l o))) ->
  In k (alist_keys l) \/ In k (alist_keys (own o)).
Proof.
  revert o. induction l as [|e l IH]; intros o H; [now right|].
  rewrite put_all_cons in H. apply IH in H as [H|H]; [left; now right|].
  apply In_keys_js_put in H as [->|H]; [left; now left|now right].
Qed.

(** The value under a name other than [__proto__] after a run of
    assignments to distinct names. *)
Lemma alist_get_put_all l o k :
  NoDup (alist_keys l) ->
  String.eqb k "__proto__" = false ->
  alist_get (own (put_all l o)) k
  = match alist_get l k with
    | Some v => Some v
    | None => alist_get (own o) k
    end.
Proof.
  intros Hn Hk. revert o Hn.
  induction l as [|[k0 v0] l IH]; intros o Hn; [reflexivity|].
  rewrite put_all_cons. cbn [alist_keys map fst] in Hn.
  inversion Hn as [|? ? Hk0 Hl]; subst.
  rewrite IH by exact Hl. cbn [fst snd alist_get].
  rewrite alist_get_js_put by exact Hk.
  destruct (String.eqb k0 k) eqn:E; [|reflexivity].
  apply String.eqb_eq in E. subst k0.
  now apply alist_get_None in Hk0 as ->.
Qed.

(** Where the first assignment to [__proto__] of a run finds the object:
    without a property of that name, and with [Object.prototype] for its
    prototype. *)
Lemma proto_setter_at_start o :
  alist_get (own o) "__proto__" = None -> proto o = Object_prototype ->
  proto_setter_reached o = true.
Proof.
  intros H1 H2. unfold proto_setter_reached, alist_has. now rewrite H1, H2.
Qed.

Lemma put_all_proto l o :
  NoDup (alist_keys l) ->
  alist_get (own o) "__proto__" = None ->
  (In "__proto__" (alist_keys l) -> proto o = Object_prototype) ->
  alist_get (own (put_all l o)) "__proto__" = None
  /\ proto (put_all l o)
     = match alist_get l "__proto__" with
       | Some v => set_prototype v (proto o)
       | None => proto o
       end.
Proof.
  revert o. induction l as [|[k v] l IH]; intros o Hn Hown Hp;
    [now split|].
  rewrite put_all_cons. cbn [alist_keys map fst] in Hn, Hp.
  inversion Hn as [|? ? Hk Hl]; subst. cbn [fst snd alist_get].
  destruct (String.eqb k "__proto__") eqn:E.
  - apply String.eqb_eq in E. subst k.
    assert (Hr : proto_setter_reached o = true)
      by (apply proto_setter_at_start; [exact Hown|apply Hp; now left]).
    destruct (IH (js_put o "__proto__" v) Hl) as [IH1 IH2].
    + rewrite own_js_put, Hr. exact Hown.
    + intros Hin. contradiction.
    + split; [exact IH1|]. rewrite IH2.
      assert (Hg : alist_get l "__proto__" = None)
        by (apply alist_get_None; exact Hk).
      rewrite Hg. now rewrite proto_js_put, Hr.
  - destruct (IH (js_put o k v) Hl) as [IH1 IH2].
    + rewrite own_js_put, E. cbn [andb].
      now rewrite alist_get_define, E.
    + intros Hin. rewrite proto_js_put, E. apply Hp. now right.
    + split; [exact IH1|]. rewrite IH2, proto_js_put, E. reflexivity.
Qed.

(** The number of properties after a run of assignments to new, distinct
    names. *)
Lemma length_put_all l o :
  NoDup (alist_keys l) ->
  (forall k, In k (alist_keys l) -> ~ In k (alist_keys (own o))) ->
  alist_get (own o) "__proto__" = None ->
  (In "__proto__" (alist_keys l) -> proto o = Object_prototype) ->
  List.length (own (put_all l o))
  = List.length (own o)
    + List.length
        (filter (fun e => negb (String.eqb (fst e) "__proto__")) l).
Proof.
  revert o. induction l as [|[k v] l IH]; intros o Hn Hnew Hown Hp;
    [cbn; lia|].
  rewrite put_all_cons. cbn [alist_keys map fst] in Hn, Hp, Hnew.
  inversion Hn as [|? ? Hk Hl]; subst. cbn [fst snd filter].
  destruct (String.eqb k "__proto__") eqn:E; cbn [negb].
  - apply String.eqb_eq in E. subst k.
    assert (Hr : proto_setter_reached o = true)
      by (apply proto_setter_at_start; [exact Hown|apply Hp; now left]).
    rewrite IH.
    + now rewrite own_js_put, Hr.
    + exact Hl.
    + intros k Hin. rewrite own_js_put, Hr. apply Hnew. now right.
    + now rewrite own_js_put, Hr.
    + intros Hin. contradiction.
  - rewrite IH.
    + rewrite own_js_put, E. cbn [andb List.length].
      rewrite length_define_property.
      replace (alist_has (own o) k) with false; [lia|].
      symmetry. apply alist_has_false, Hnew. now left.
    + exact Hl.
    + intros k' Hin H'. apply In_keys_js_put in H' as [->|H'];
        [contradiction|]. apply (Hnew k'); [now right|exact H'].
    + rewrite own_js_put, E. cbn [andb].
      now rewrite alist_get_define, E.
    + intros Hin. rewrite proto_js_put, E. apply Hp. now right.
Qed.

(** The names of the properties after a run of assignments to new,
    distinct names. *)
Lemma put_all_keys l o :
  NoDup (alist_keys l) ->
  (forall k, In k (alist_keys l) -> ~ In k (alist_keys (own o))) ->
  alist_get (own o) "__proto__" = None ->
  (In "__proto__" (alist_keys l) -> proto o = Object_prototype) ->
  Permutation (alist_keys (own (put_all l o)))
    (alist_keys (own o)
     ++ filter (fun k => negb (String.eqb k "__proto__")) (alist_keys l)).
Proof.
  revert o. induction l as [|[k v] l IH]; intros o Hn Hnew Hown Hp.
  - cbn. now rewrite app_nil_r.
  - rewrite put_all_cons. cbn [alist_keys map fst] in Hn, Hp, Hnew.
    inversion Hn as [|? ? Hk Hl]; subst. cbn [fst snd alist_keys map filter].
    fold (alist_keys l).
    destruct (String.eqb k "__proto__") eqn:E; cbn [negb].
    + apply String.eqb_eq in E. subst k.
      assert (Hr : proto_setter_reached o = true)
        by (apply proto_setter_at_start; [exact Hown|apply Hp; now left]).
      assert (Ho : own (js_put o "__proto__" v) = own o)
        by now rewrite own_js_put, Hr.
      rewrite <- Ho. apply IH.
      * exact Hl.
      * intros k Hin. rewrite Ho. apply Hnew. now right.
      * now rewrite Ho.
      * intros Hin. contradiction.
    + assert (Ho : own (js_put o k v) = define_property (own o) k v)
        by now rewrite own_js_put, E.
      assert (Hfresh : alist_has (own o) k = false)
        by (apply alist_has_false, Hnew; now left).
      eapply perm_trans.
      * apply IH.
        -- exact Hl.
        -- intros k' Hin H'. apply In_keys_js_put in H' as [->|H'];
             [contradiction|]. apply (Hnew k'); [now right|exact H'].
        -- now rewrite Ho, alist_get_define, E.
        -- intros Hin. rewrite proto_js_put, E. apply Hp. now right.
      * rewrite Ho.
        eapply perm_trans;
          [apply Permutation_app_tail,
             (define_property_new_keys _ _ v Hfresh)|].
        cbn [app]. apply Permutation_middle.
Qed.

(** After a run of assignments to new, distinct names, none of them an
    array index, the properties come in the order of the assignments. *)
Lemma put_all_plain l o :
  NoDup (alist_keys l) ->
  (forall k, In k (alist_keys l) -> ~ In k (alist_keys (own o))) ->
  alist_get (own o) "__proto__" = None ->
  (In "__proto__" (alist_keys l) -> proto o = Object_prototype) ->
  Forall (fun k => array_index k = None) (alist_keys l) ->
  own (put_all l o)
  = (own o ++ filter (fun e => negb (String.eqb (fst e) "__proto__")) l)%list.
Proof.
  revert o. induction l as [|[k v] l IH]; intros o Hn Hnew Hown Hp Hi.
  - cbn. now rewrite app_nil_r.
  - rewrite put_all_cons. cbn [alist_keys map fst] in Hn, Hp, Hnew, Hi.
    inversion Hn as [|? ? Hk Hl]; subst.
    inversion Hi as [|? ? Hik Hil]; subst. cbn [fst snd filter].
    destruct (String.eqb k "__proto__") eqn:E; cbn [negb].
    + apply String.eqb_eq in E. subst k.
      assert (Hr : proto_setter_reached o = true)
        by (apply proto_setter_at_start; [exact Hown|apply Hp; now left]).
      assert (Ho : own (js_put o "__proto__" v) = own o)
        by now rewrite own_js_put, Hr.
      rewrite <- Ho. apply IH.
      * exact Hl.
      * intros k Hin. rewrite Ho. apply Hnew. now right.
      * now rewrite Ho.
      * intros Hin. contradiction.
      * exact Hil.
    + assert (Ho : own (js_put o k v) = (own o ++ [(k, v)])%list).
      { rewrite own_js_put, E. cbn [andb].
        rewrite define_property_plain by exact Hik.
        apply alist_set_fresh, Hnew. now left. }
      rewrite IH.
      * rewrite Ho. now rewrite <- app_assoc.
      * exact Hl.
      * intros k' Hin H'. apply In_keys_js_put in H' as [->|H'];
          [contradiction|]. apply (Hnew k'); [now right|exact H'].
      * rewrite own_js_put, E. cbn [andb].
        now rewrite alist_get_define, E.
      * intros Hin. rewrite proto_js_put, E. apply Hp. now right.
      * exact Hil.
Qed.

Lemma index_name_inj i j : index_name i = index_name j -> i = j.
Proof.
  unfold index_name. intros H.
  apply DecimalNat.Unsigned.to_uint_inj.
  apply (f_equal NilEmpty.uint_of_string) in H.
  rewrite !NilEmpty.usu in H. now injection H.
Qed.

Lemma array_entries_keys i items :
  alist_keys (array_entries i items)
  = map index_name (seq i (List.length items)).
Proof.
  revert i. induction items as [|x items IH]; intros i; [reflexivity|].
  cbn. f_equal. apply IH.
Qed.

Lemma string_entries_keys i s :
  alist_keys (string_entries i s)
  = map index_name (seq i (String.length s)).
Proof.
  revert i. induction s as [|c s IH]; intros i; [reflexivity|].
  cbn. f_equal. apply IH.
Qed.

Lemma index_names_NoDup i n : NoDup (map index_name (seq i n)).
Proof.
  apply NoDup_map_NoDup_ForallPairs; [|apply seq_NoDup].
  intros a b _ _. apply index_name_inj.
Qed.

Lemma contains_char_append c a b :
  contains_char c (a ++ b) = contains_char c a || contains_char c b.
Proof.
  induction a as [|d a IH]; [reflexivity|].
  cbn. rewrite IH. now destruct (Ascii.eqb d c).
Qed.

Lemma digits_without_slash u :
  contains_char "/" (NilEmpty.string_of_uint u) = false.
Proof. induction u; cbn; [reflexivity|exact IHu..]. Qed.

Lemma names_without_slash names k :
  forallb (fun n => negb (contains_char "/" n)) names = true ->
  contains_char "/" k = true ->
  existsb (String.eqb k) names = false.
Proof.
  intros Hn Hk. destruct (existsb (String.eqb k) names) eqn:E; [|reflexivity].
  apply existsb_eqb_In in E. rewrite forallb_forall in Hn.
  specialize (Hn k E). now rewrite Hk in Hn.
Qed.

(** No property of [Object.prototype] or [Array.prototype] has a slash in
    its name. *)
Lemma Object_prototype_has_slash k :
  contains_char "/" k = true -> Object_prototype_has k = false.
Proof. now apply names_without_slash. Qed.

Lemma Array_prototype_has_slash k :
  contains_char "/" k = true -> Array_prototype_has k = false.
Proof.
  intros H. unfold Array_prototype_has.
  rewrite Object_prototype_has_slash by exact H.
  now rewrite names_without_slash.
Qed.

Lemma not_array_property items k :
  contains_char "/" k = true ->
  alist_has (array_entries 0 items) k || String.eqb k "length" = false.
Proof.
  intros Hk. apply orb_false_iff. split.
  - rewrite alist_has_keys, array_entries_keys.
    destruct (existsb _ _) eqn:E; [|reflexivity].
    apply existsb_eqb_In, in_map_iff in E as [i [E _]].
    rewrite <- E in Hk. unfold index_name in Hk.
    now rewrite digits_without_slash in Hk.
  - apply String.eqb_neq. intros ->. discriminate Hk.
Qed.

(** [k in v] for a name with a slash: the own properties of an object,
    nothing of an array. *)
Lemma has_property_slash k v :
  contains_char "/" k = true ->
  has_property k v
  = match v with
    | JObj props => alist_has props k
    | _ => false
    end.
Proof.
  intros H. destruct v; try reflexivity; cbn [has_property].
  - now rewrite Array_prototype_has_slash, not_array_property.
  - now rewrite Object_prototype_has_slash, orb_false_r.
Qed.

(** *** The order of enumeration *)

Lemma enumeration_app a b :
  enumeration (a ++ b)
  <-> enumeration a /\ enumeration b
      /\ (forall x y, In x a -> In y b -> enumerated_before x y).
Proof.
  induction a as [|k a IH]; cbn [app enumeration].
  - split; [intros H; repeat split; [exact H|intros x y []]|now intros (_ & H & _)].
  - rewrite IH, Forall_app, !Forall_forall. split.
    + intros [[H1 H2] (H3 & H4 & H5)]. repeat split; try assumption.
      intros x y [<-|Hx] Hy; [now apply H2|now apply H5].
    + intros [[H1 H2] [H3 H4]]. repeat split; try assumption.
      * intros y Hy. apply H4; [now left|exact Hy].
      * intros x y Hx Hy. apply H4; [now right|exact Hy].
Qed.

Lemma enumeration_filter p ks :
  enumeration ks -> enumeration (filter p ks).
Proof.
  induction ks as [|k ks IH]; cbn [filter enumeration]; [trivial|].
  intros [H1 H2]. destruct (p k); [|now apply IH].
  cbn [enumeration]. split; [|now apply IH].
  rewrite Forall_forall in *. intros x Hx. apply filter_In in Hx as [Hx _].
  now apply H1.
Qed.

Lemma insert_index_enumeration l n k v :
  array_index k = Some n -> ~ In k (alist_keys l) ->
  enumeration (alist_keys l) ->
  enumeration (alist_keys (insert_index l n k v)).
Proof.
  intros Hk. induction l as [|[k' v'] l IH];
    cbn [insert_index alist_keys map fst enumeration]; intros Hnew Hl.
  - now split.
  - destruct Hl as [H1 H2]. rewrite Forall_forall in H1.
    destruct (array_index k') as [m|] eqn:Ek'.
    + destruct (N.ltb m n) eqn:Emn.
      * cbn [alist_keys map fst enumeration]. split.
        -- apply Forall_forall. intros x Hx.
           apply (Permutation_in _
                    (Permutation_map fst (insert_index_Permutation l n k v)))
             in Hx.
           destruct Hx as [<-|Hx]; [|now apply H1].
           unfold enumerated_before. cbn [fst]. rewrite Ek', Hk.
           now apply N.ltb_lt.
        -- apply IH; [intros Hin; apply Hnew; now right|exact H2].
      * cbn [alist_keys map fst enumeration].
        assert (Hlt : (n < m)%N).
        { apply N.ltb_ge in Emn.
          assert (n <> m); [|lia]. intros ->.
          apply Hnew. left. eapply array_index_inj; eassumption. }
        split; [|split; [apply Forall_forall; exact H1|exact H2]].
        constructor.
        -- unfold enumerated_before. now rewrite Hk, Ek'.
        -- apply Forall_forall. intros x Hx. specialize (H1 x Hx).
           unfold enumerated_before in *. rewrite Hk. rewrite Ek' in H1.
           destruct (array_index x); [lia|exact I].
    + cbn [alist_keys map fst enumeration].
      split; [|split; [apply Forall_forall; exact H1|exact H2]].
      constructor.
      * unfold enumerated_before. now rewrite Hk, Ek'.
      * apply Forall_forall. intros x Hx. specialize (H1 x Hx).
        unfold enumerated_before in *. rewrite Hk. rewrite Ek' in H1.
        destruct (array_index x); [contradiction|exact I].
Qed.

Lemma define_property_enumeration l k v :
  enumeration (alist_keys l) ->
  enumeration (alist_keys (define_property l k v)).
Proof.
  intros H. destruct (alist_has l k) eqn:E.
  - now rewrite define_property_keys.
  - unfold define_property. rewrite E.
    destruct (array_index k) as [n|] eqn:Ek.
    + apply insert_index_enumeration; [exact Ek| |exact H].
      now apply alist_has_false.
    + rewrite alist_set_fresh by now apply alist_has_false.
      unfold alist_keys. rewrite map_app. apply enumeration_app.
      split; [exact H|]. split; [cbn; now split|].
      intros x y _ [<-|[]]. unfold enumerated_before. cbn [fst].
      rewrite Ek. now destruct (array_index x).
Qed.

Lemma put_all_enumeration l o :
  enumeration (alist_keys (own o)) ->
  enumeration (alist_keys (own (put_all l o))).
Proof.
  revert o. induction l as [|e l IH]; intros o H; [exact H|].
  rewrite put_all_cons. apply IH. rewrite own_js_put.
  destruct (String.eqb (fst e) "__proto__" && proto_setter_reached o);
    [exact H|now apply define_property_enumeration].
Qed.

Lemma insert_index_last l n k v :
  array_index k = Some n ->
  (forall x, In x (alist_keys l) -> enumerated_before x k) ->
  insert_index l n k v = (l ++ [(k, v)])%list.
Proof.
  intros Hk. induction l as [|[k' v'] l IH]; intros H; [reflexivity|].
  cbn [insert_index app].
  pose proof (H k' (or_introl eq_refl)) as Hb.
  unfold enumerated_before in Hb. rewrite Hk in Hb.
  destruct (array_index k') as [m|]; [|contradiction].
  apply N.ltb_lt in Hb. rewrite Hb. f_equal. apply IH.
  intros x Hx. apply H. now right.
Qed.

Lemma define_property_last l k v :
  ~ In k (alist_keys l) ->
  (forall x, In x (alist_keys l) -> enumerated_before x k) ->
  define_property l k v = (l ++ [(k, v)])%list.
Proof.
  intros Hnew H. unfold define_property.
  apply alist_has_false in Hnew as E. rewrite E.
  destruct (array_index k) as [n|] eqn:Ek.
  - now apply insert_index_last.
  - now apply alist_set_fresh.
Qed.

(** Assigning the properties of an object, in the order of their
    enumeration, to an object without them adds them as they come. *)
Lemma put_all_settled l o :
  NoDup (alist_keys (own o) ++ alist_keys l) ->
  enumeration (alist_keys (own o) ++ alist_keys l) ->
  ~ In "__proto__" (alist_keys l) ->
  put_all l o = mkObject (own o ++ l) (proto o).
Proof.
  revert o. induction l as [|[k v] l IH]; intros o Hn He Hp.
  - cbn. rewrite app_nil_r. now destruct o.
  - rewrite put_all_cons. cbn [fst snd alist_keys map] in *.
    assert (Ek : String.eqb k "__proto__" = false).
    { apply String.eqb_neq. intros ->. apply Hp. now left. }
    rewrite js_put_other by exact Ek.
    assert (Hlast : define_property (own o) k v = (own o ++ [(k, v)])%list).
    { apply define_property_last.
      - apply NoDup_remove_2 in Hn. intros Hin. apply Hn.
        apply in_or_app. now left.
      - apply enumeration_app in He as (_ & _ & He).
        intros x Hx. apply He; [exact Hx|now left]. }
    rewrite Hlast, IH; cbn [own proto].
    + now rewrite <- app_assoc.
    + unfold alist_keys. rewrite map_app, <- app_assoc. exact Hn.
    + unfold alist_keys. rewrite map_app, <- app_assoc. exact He.
    + intros Hin. apply Hp. now right.
Qed.

(** *** Old sessions *)

Lemma fix_entry_put fixedSessions entry :
  fix_entry fixedSessions entry
  = js_put fixedSessions (fst entry) (fix_value (snd entry)).
Proof. unfold fix_entry, fix_value. now destruct (snd entry). Qed.

(** The loop of [_getEndToEndSessions] is a run of assignments of the
    fixed values. *)
Lemma fix_sessions_put_all v :
  fix_sessions v
  = put_all (map (fun kv => (fst kv, fix_value (snd kv)))
               (Object_entries (or_empty_object v))) empty_object.
Proof.
  unfold fix_sessions, put_all. generalize empty_object.
  induction (Object_entries (or_empty_object v)) as [|e l IH]; intros o;
    [reflexivity|].
  cbn [fold_left map fst snd]. now rewrite fix_entry_put, IH.
Qed.

Lemma alist_keys_map {V W} (f : V -> W) (l : list (string * V)) :
  alist_keys (map (fun kv => (fst kv, f (snd kv))) l) = alist_keys l.
Proof. unfold alist_keys. rewrite map_map. reflexivity. Qed.

Lemma fix_sessions_NoDup v : NoDup (alist_keys (own (fix_sessions v))).
Proof. rewrite fix_sessions_put_all. apply put_all_NoDup. constructor. Qed.

Lemma fix_value_not_pickle k v : not_pickle (k, fix_value v).
Proof. intros s. destruct v; cbn; discriminate. Qed.

Lemma fix_sessions_fixed v : Forall not_pickle (own (fix_sessions v)).
Proof.
  rewrite fix_sessions_put_all. apply put_all_Forall; [|constructor].
  intros k k' x Hin. apply in_map_iff in Hin as (e & [= _ <-] & _).
  apply fix_value_not_pickle.
Qed.

Lemma fix_sessions_enumeration v :
  enumeration (alist_keys (own (fix_sessions v))).
Proof. rewrite fix_sessions_put_all. now apply put_all_enumeration. Qed.

Lemma map_fix_value_fixed (l : list (string * json)) :
  Forall not_pickle l ->
  map (fun kv => (fst kv, fix_value (snd kv))) l = l.
Proof.
  induction 1 as [|[k v] l H0 Hl IH]; cbn; [reflexivity|].
  rewrite IH. f_equal. f_equal.
  destruct v; try reflexivity. now destruct (H0 s).
Qed.

Lemma alist_get_map {V W} (f : V -> W) (l : list (string * V)) k :
  alist_get (map (fun kv => (fst kv, f (snd kv))) l) k
  = option_map f (alist_get l k).
Proof.
  induction l as [|[k0 v0] l IH]; cbn; [reflexivity|].
  now destruct (String.eqb k0 k).
Qed.

(** *** Reading sessions *)

Lemma reads_fst {A} (m : M A) f w : reads m f -> fst (m w) = f (storage w).
Proof. intros H. now destruct (H w) as [l ->]. Qed.

Lemma reads__getEndToEndSessions deviceKey :
  reads (_getEndToEndSessions deviceKey)
    (fun st => Return (session_object st deviceKey)).
Proof.
  unfold _getEndToEndSessions.
  eapply (reads_bind_as _ _ _ (fun v _ => Return (fix_sessions v)));
    [apply reads_getJsonItem | intros v; apply reads_ret | reflexivity].
Qed.

Lemma reads_getEndToEndSession deviceKey sessionId :
  reads (getEndToEndSession deviceKey sessionId)
    (fun st =>
       Return (or_empty (js_get (session_object st deviceKey) sessionId))).
Proof.
  unfold getEndToEndSession.
  eapply (reads_bind_as _ _ _
            (fun sessions _ => Return (or_empty (js_get sessions sessionId))));
    [apply reads__getEndToEndSessions | intros v; apply reads_ret
    | reflexivity].
Qed.

Lemma reads_getEndToEndSessions deviceKey :
  reads (getEndToEndSessions deviceKey)
    (fun st => Return (as_value (session_object st deviceKey))).
Proof.
  unfold getEndToEndSessions.
  eapply (reads_bind_as _ _ _ (fun sessions _ => Return (as_value sessions)));
    [apply reads__getEndToEndSessions | intros v; apply reads_ret
    | reflexivity].
Qed.

Lemma scan_keys_count st keys count :
  scan_keys (R := nat)
    (fun key c =>
       Return (Next (c + match key with
                         | Some k => sessions_under st k
                         | None => 0
                         end))) keys count
  = Return (Next (count + list_sum (map (sessions_under st) keys))).
Proof.
  revert count. induction keys as [|k keys IH]; intros count; cbn.
  - now rewrite Nat.add_0_r.
  - rewrite IH. now rewrite Nat.add_assoc.
Qed.

Lemma reads_countEndToEndSessions :
  reads countEndToEndSessions
    (fun st => Return (list_sum (map (sessions_under st) (alist_keys st)))).
Proof.
  unfold countEndToEndSessions.
  eapply (reads_bind_as _ _ _ (fun s _ => Return (fall_through s))).
  - apply (for_keys_reads _
             (fun st key c =>
                Return (Next (c + match key with
                                  | Some k => sessions_under st k
                                  | None => 0
                                  end)))).
    intros i count.
    eapply (reads_bind_as _ _ _
              (fun key st =>
                 Return (Next (count + match key with
                                       | Some k => sessions_under st k
                                       | None => 0
                                       end))));
      [apply reads_store_key | | reflexivity].
    intros [k|].
    + unfold sessions_under.
      destruct (startsWith k (keyEndToEndSessions "")).
      * eapply (reads_bind_as _ _ _
                  (fun sessions _ =>
                     Return (Next (count + List.length
                       (Object_keys (nullish_or sessions (JObj [])))))));
          [apply reads_getJsonItem | intros v; apply reads_ret
          | reflexivity].
      * eapply reads_ext; [apply reads_ret|].
        intros st. now rewrite Nat.add_0_r.
    + eapply reads_ext; [apply reads_ret|].
      intros st. now rewrite Nat.add_0_r.
  - intros s. apply reads_ret.
  - intros st. cbn beta. now rewrite scan_keys_count.
Qed.

Lemma push_batch_app {A} (xs ys result : list A) :
  push_batch (xs ++ ys) result
  = match push_batch xs result with
    | Next result' => push_batch ys result'
    | Done result' => Done result'
    end.
Proof.
  revert result. induction xs as [|x xs IH]; intros result; cbn.
  - reflexivity.
  - destruct (Nat.leb SESSION_BATCH_SIZE (List.length (result ++ [x])));
      [reflexivity|apply IH].
Qed.

Lemma scan_keys_batch st keys result :
  scan_keys
    (fun key r =>
       Return match key with
              | Some k => push_batch (batch_under st k) r
              | None => Next r
              end) keys result
  = Return (push_batch (flat_map (batch_under st) keys) result).
Proof.
  revert result. induction keys as [|k keys IH]; intros result; cbn.
  - reflexivity.
  - rewrite push_batch_app.
    destruct (push_batch (batch_under st k) result); [apply IH|reflexivity].
Qed.

Lemma reads_getEndToEndSessionsBatch :
  reads getEndToEndSessionsBatch
    (fun st => Return (batch_result
       (push_batch (flat_map (batch_under st) (alist_keys st)) []))).
Proof.
  unfold getEndToEndSessionsBatch.
  eapply (reads_bind_as _ _ _ (fun s _ => Return (batch_result s))).
  - apply (for_keys_reads _
             (fun st key r =>
                Return match key with
                       | Some k => push_batch (batch_under st k) r
                       | None => Next r
                       end)).
    intros i result.
    eapply (reads_bind_as _ _ _
              (fun key st =>
                 if key_startsWith key (keyEndToEndSessions "") then
                   match key_at st i with
                   | Some k' =>
                       Return (push_batch
                         (alist_values (sessions_of st (second_segment k')))
                         result)
                   | None => Return (Next result)
                   end
                 else Return (Next result))).
    + apply reads_store_key.
    + intros key.
      destruct (key_startsWith key (keyEndToEndSessions ""));
        [|apply reads_ret].
      eapply (reads_bind_as _ _ _
                (fun key' st =>
                   match key' with
                   | Some k' =>
                       Return (push_batch
                         (alist_values (sessions_of st (second_segment k')))
                         result)
                   | None => Return (Next result)
                   end));
        [apply reads_store_key | | reflexivity].
      intros [k'|]; [|apply reads_ret].
      eapply (reads_bind_as _ _ _
                (fun sessions _ =>
                   Return (push_batch (alist_values (own sessions)) result)));
        [apply reads__getEndToEndSessions | intros v; apply reads_ret
        | reflexivity].
    + intros st. unfold batch_under.
      destruct (key_at st i) as [k|]; cbn [key_startsWith]; [|reflexivity].
      destruct (startsWith k (keyEndToEndSessions "")); reflexivity.
  - intros s. apply reads_ret.
  - intros st. cbn beta. now rewrite scan_keys_batch.
Qed.

(** The first [SESSION_BATCH_SIZE] elements, and at least one. *)
Lemma push_batch_firstn {A} (xs result : list A) :
  List.length result < Nat.max 1 SESSION_BATCH_SIZE ->
  push_batch xs result
  = if Nat.ltb (List.length result + List.length xs)
         (Nat.max 1 SESSION_BATCH_SIZE)
    then Next (result ++ xs)%list
    else Done (firstn (Nat.max 1 SESSION_BATCH_SIZE) (result ++ xs)%list).
Proof.
  revert result. induction xs as [|x xs IH]; intros result H.
  - cbn [push_batch List.length]. rewrite Nat.add_0_r.
    apply Nat.ltb_lt in H. rewrite H.
    now rewrite app_nil_r.
  - cbn [push_batch]. rewrite length_app. cbn [List.length].
    destruct (Nat.leb SESSION_BATCH_SIZE (List.length result + 1)) eqn:E.
    + apply Nat.leb_le in E.
      assert (Hm : Nat.max 1 SESSION_BATCH_SIZE = List.length result + 1)
        by lia.
      rewrite Hm.
      replace (Nat.ltb (List.length result + S (List.length xs))
                 (List.length result + 1)) with false
        by (symmetry; apply Nat.ltb_ge; lia).
      f_equal.
      replace (result ++ x :: xs)%list with ((result ++ [x]) ++ xs)%list
        by now rewrite <- app_assoc.
      rewrite firstn_app.
      replace (List.length result + 1 - List.length (result ++ [x])) with 0
        by (rewrite length_app; cbn [List.length]; lia).
      rewrite firstn_O, app_nil_r. rewrite firstn_all2; [reflexivity|].
      rewrite length_app. cbn [List.length]. lia.
    + apply Nat.leb_gt in E.
      rewrite IH by (rewrite length_app; cbn [List.length]; lia).
      rewrite length_app. cbn [List.length].
      replace (List.length result + 1 + List.length xs)
        with (List.length result + S (List.length xs)) by lia.
      now rewrite <- app_assoc.
Qed.

Lemma batch_result_push {A} (xs : list A) :
  batch_result (push_batch xs [])
  = match xs with
    | [] => None
    | _ => Some (firstn (Nat.max 1 SESSION_BATCH_SIZE) xs)
    end.
Proof.
  rewrite push_batch_firstn by (cbn [List.length]; lia).
  cbn [List.length app Nat.add].
  destruct (Nat.ltb (List.length xs) (Nat.max 1 SESSION_BATCH_SIZE)) eqn:E.
  - apply Nat.ltb_lt in E. rewrite firstn_all2 by lia.
    now destruct xs.
  - apply Nat.ltb_ge in E. cbn [batch_result].
    destruct xs; [cbn [List.length] in E; lia|reflexivity].
Qed.

(** *** Reads of a written storage *)

Lemma decode_set st key text key' :
  decode (alist_set st key text) key'
  = if String.eqb key key' then
      match JSON_parse text with inl v => v | inr _ => JNull end
    else decode st key'.
Proof.
  unfold decode. rewrite alist_get_set. now destruct (String.eqb key key').
Qed.

Lemma decode_remove st key key' :
  decode (alist_remove st key) key'
  = if String.eqb key key' then JNull else decode st key'.
Proof.
  unfold decode. rewrite alist_get_remove. now destruct (String.eqb key key').
Qed.

Lemma decode_set_stringify st key v :
  json_wf v = true ->
  decode (alist_set st key (JSON_stringify v)) key = v.
Proof.
  intros H. rewrite decode_set, String.eqb_refl.
  now rewrite JSON_parse_stringify.
Qed.

Lemma decode_wf st key : json_wf (decode st key) = true.
Proof.
  unfold decode. destruct (alist_get st key) as [text|]; [|reflexivity].
  destruct (JSON_parse text) as [v|e] eqn:E; [|reflexivity].
  now apply JSON_parse_wf in E.
Qed.

(** *** Proper values *)

Lemma json_wf_object props :
  json_wf (JObj props) = true
  <-> NoDup (alist_keys props) /\ Forall value_wf props.
Proof.
  cbn [json_wf]. rewrite andb_true_iff, distinct_NoDup.
  unfold alist_keys.
  apply and_iff_compat_l.
  induction props as [|[k v] props IH].
  - split; [constructor|reflexivity].
  - rewrite andb_true_iff, IH. split.
    + intros [Hv Hp]. now constructor.
    + intros H. inversion H; subst. now split.
Qed.

Lemma array_entries_wf i items :
  forallb json_wf items = true -> Forall value_wf (array_entries i items).
Proof.
  revert i. induction items as [|x items IH]; intros i; cbn.
  - constructor.
  - rewrite andb_true_iff. intros [Hx Hi]. constructor; [exact Hx|].
    now apply IH.
Qed.

Lemma string_entries_wf i s : Forall value_wf (string_entries i s).
Proof.
  revert i. induction s as [|c s IH]; intros i; cbn; constructor.
  - reflexivity.
  - apply IH.
Qed.

Lemma Object_entries_wf v :
  json_wf v = true -> Forall value_wf (Object_entries v).
Proof.
  destruct v; cbn [Object_entries]; intros H; try constructor.
  - apply string_entries_wf.
  - now apply array_entries_wf.
  - now apply json_wf_object in H.
Qed.

Lemma or_empty_object_wf v :
  json_wf v = true -> json_wf (or_empty_object v) = true.
Proof. unfold or_empty_object. now destruct (truthy v). Qed.

Lemma fix_value_wf v : json_wf v = true -> json_wf (fix_value v) = true.
Proof. now destruct v. Qed.

Lemma fix_sessions_wf v :
  json_wf v = true -> Forall value_wf (own (fix_sessions v)).
Proof.
  intros H. rewrite fix_sessions_put_all.
  apply put_all_Forall; [|constructor].
  intros k k' x Hin. apply in_map_iff in Hin as (e & [= _ <-] & He).
  apply fix_value_wf.
  pose proof (Object_entries_wf _ (or_empty_object_wf _ H)) as Hf.
  rewrite Forall_forall in Hf. exact (Hf _ He).
Qed.

Lemma Object_entries_NoDup v :
  json_wf v = true -> NoDup (alist_keys (Object_entries v)).
Proof.
  destruct v; cbn [Object_entries]; intros H; try constructor.
  - rewrite string_entries_keys. apply index_names_NoDup.
  - rewrite array_entries_keys. apply index_names_NoDup.
  - apply json_wf_object in H. apply H.
Qed.

Lemma fixed_entries_NoDup v :
  json_wf v = true ->
  NoDup (alist_keys
           (map (fun kv => (fst kv, fix_value (snd kv)))
              (Object_entries (or_empty_object v)))).
Proof.
  intros H. rewrite alist_keys_map.
  now apply Object_entries_NoDup, or_empty_object_wf.
Qed.

(** The sessions that the loop of [_getEndToEndSessions] leaves: every
    entry of the stored mapping, fixed, but an entry named [__proto__],
    which goes to the setter. *)
Lemma fix_sessions_get v k :
  json_wf v = true ->
  alist_get (own (fix_sessions v)) k
  = if String.eqb k "__proto__" then None
    else option_map fix_value
           (alist_get (Object_entries (or_empty_object v)) k).
Proof.
  intros H. rewrite fix_sessions_put_all.
  destruct (String.eqb k "__proto__") eqn:E.
  - apply String.eqb_eq in E. subst k.
    apply put_all_proto;
      [now apply fixed_entries_NoDup|reflexivity|reflexivity].
  - rewrite alist_get_put_all by (try exact E; now apply fixed_entries_NoDup).
    rewrite alist_get_map. cbn [own empty_object alist_get].
    now destruct (alist_get (Object_entries (or_empty_object v)) k).
Qed.

(** The prototype that the loop leaves: what the setter makes of the
    entry named [__proto__], fixed. *)
Lemma fix_sessions_proto v :
  json_wf v = true ->
  proto (fix_sessions v)
  = match alist_get (Object_entries (or_empty_object v)) "__proto__" with
    | Some x => set_prototype (fix_value x) Object_prototype
    | None => Object_prototype
    end.
Proof.
  intros H. rewrite fix_sessions_put_all.
  destruct (put_all_proto
              (map (fun kv => (fst kv, fix_value (snd kv)))
                 (Object_entries (or_empty_object v))) empty_object)
    as [_ ->]; [now apply fixed_entries_NoDup|reflexivity|reflexivity|].
  rewrite alist_get_map. cbn [proto empty_object].
  now destruct (alist_get (Object_entries (or_empty_object v)) "__proto__").
Qed.

Lemma length_filter_map {X Y} (f : X -> Y) (p : Y -> bool) (l : list X) :
  List.length (filter p (map f l))
  = List.length (filter (fun x => p (f x)) l).
Proof.
  induction l as [|x l IH]; [reflexivity|].
  cbn [map filter]. destruct (p (f x)); cbn [List.length]; now rewrite IH.
Qed.

Lemma length_fix_sessions v :
  json_wf v = true ->
  List.length (own (fix_sessions v))
  = List.length
      (filter (fun e => negb (String.eqb (fst e) "__proto__"))
         (Object_entries (or_empty_object v))).
Proof.
  intros H. rewrite fix_sessions_put_all, length_put_all.
  - cbn [own empty_object List.length Nat.add].
    apply (length_filter_map (fun kv => (fst kv, fix_value (snd kv)))
             (fun e => negb (String.eqb (fst e) "__proto__"))).
  - now apply fixed_entries_NoDup.
  - intros k _ [].
  - reflexivity.
  - reflexivity.
Qed.

(** A mapping of fixed sessions in the order of enumeration, with no
    property named [__proto__], reads back as it is. *)
Lemma fix_sessions_settled props :
  NoDup (alist_keys props) -> Forall not_pickle props ->
  enumeration (alist_keys props) -> ~ In "__proto__" (alist_keys props) ->
  fix_sessions (JObj props) = mkObject props Object_prototype.
Proof.
  intros Hn Hf He Hp. rewrite fix_sessions_put_all.
  cbn [or_empty_object truthy Object_entries].
  rewrite map_fix_value_fixed by exact Hf.
  now rewrite put_all_settled.
Qed.

Lemma alist_remove_Forall {V} (P : string * V -> Prop) l k :
  Forall P l -> Forall P (alist_remove l k).
Proof.
  induction 1 as [|[k0 v0] l H0 Hl IH]; cbn; [constructor|].
  destruct (String.eqb k0 k); [exact IH|now constructor].
Qed.

Lemma alist_remove_NoDup {V} (l : list (string * V)) k :
  NoDup (alist_keys l) -> NoDup (alist_keys (alist_remove l k)).
Proof.
  intros H. rewrite alist_keys_remove. now apply NoDup_filter.
Qed.

Lemma sessions_of_wf st deviceKey :
  NoDup (alist_keys (sessions_of st deviceKey))
  /\ Forall value_wf (sessions_of st deviceKey)
  /\ Forall not_pickle (sessions_of st deviceKey).
Proof.
  repeat split.
  - apply fix_sessions_NoDup.
  - apply fix_sessions_wf, decode_wf.
  - apply fix_sessions_fixed.
Qed.

Lemma sessions_of_get st deviceKey k :
  alist_get (sessions_of st deviceKey) k
  = if String.eqb k "__proto__" then None
    else option_map fix_value
           (alist_get
              (Object_entries
                 (or_empty_object (decode st (keyEndToEndSessions deviceKey))))
              k).
Proof. apply fix_sessions_get, decode_wf. Qed.

Lemma sessions_of_settled st deviceKey :
  enumeration (alist_keys (sessions_of st deviceKey))
  /\ ~ In "__proto__" (alist_keys (sessions_of st deviceKey)).
Proof.
  split; [apply fix_sessions_enumeration|].
  apply alist_get_None. now rewrite sessions_of_get.
Qed.

(** *** Writing sessions *)

Lemma writes_storeEndToEndSession deviceKey sessionId sessionInfo :
  writes (storeEndToEndSession deviceKey sessionId sessionInfo)
    (fun st => store_session st deviceKey sessionId sessionInfo).
Proof.
  intros w. unfold storeEndToEndSession, bind.
  destruct (reads__getEndToEndSessions deviceKey w) as [l ->].
  exists l. reflexivity.
Qed.

Lemma writes_bind (m : M unit) (k : M unit) f g :
  writes m f -> writes k g -> writes (m ;;; k) (fun st => g (f st)).
Proof.
  intros Hm Hk w. unfold bind. destruct (Hm w) as [l ->].
  destruct (Hk (mkWorld (f (storage w)) (logs w ++ l)%list)) as [l' ->].
  cbn [storage logs]. exists (l ++ l')%list. now rewrite app_assoc.
Qed.

Lemma writes_for_of {X} (xs : list X) (body : X -> M unit) f :
  (forall x, writes (body x) (fun st => f st x)) ->
  writes (for_of xs body) (fun st => fold_left f xs st).
Proof.
  intros Hb. induction xs as [|x xs IH].
  - intros w. exists []. cbn. unfold ret. rewrite app_nil_r. now destruct w.
  - cbn [for_of fold_left].
    apply (writes_bind _ _ (fun st => f st x) (fun st => fold_left f xs st));
      [apply Hb|exact IH].
Qed.

Lemma writes_deleteEndToEndSessionsBatch sessions :
  writes (deleteEndToEndSessionsBatch sessions)
    (fun st => fold_left delete_session sessions st).
Proof.
  unfold deleteEndToEndSessionsBatch. apply writes_for_of.
  intros [deviceKey sessionId] w. unfold bind.
  destruct (reads__getEndToEndSessions deviceKey w) as [l ->].
  unfold delete_session, sessions_of. cbn [fst snd].
  destruct (Nat.eqb
              (List.length
                 (alist_keys
                    (alist_remove (own (session_object (storage w) deviceKey))
                       sessionId))) 0);
    exists l; reflexivity.
Qed.

Lemma keyEndToEndSessions_inj d d' :
  keyEndToEndSessions d = keyEndToEndSessions d' -> d = d'.
Proof. unfold keyEndToEndSessions. cbn. intros H. now injection H. Qed.

Lemma keyEndToEndSessions_eqb d d' :
  String.eqb (keyEndToEndSessions d) (keyEndToEndSessions d')
  = String.eqb d d'.
Proof.
  destruct (String.eqb d d') eqn:E.
  - apply String.eqb_eq in E. subst. apply String.eqb_refl.
  - apply String.eqb_neq. intros H. apply keyEndToEndSessions_inj in H.
    apply String.eqb_neq in E. contradiction.
Qed.

(** What [storeEndToEndSession] writes is a proper value. *)
Lemma stored_sessions_wf st deviceKey sessionId sessionInfo :
  json_wf sessionInfo = true ->
  json_wf
    (JObj (own (js_put (session_object st deviceKey) sessionId sessionInfo)))
  = true.
Proof.
  intros H. apply json_wf_object. split.
  - apply js_put_NoDup, fix_sessions_NoDup.
  - apply js_put_Forall; [intros k'; exact H|].
    apply fix_sessions_wf, decode_wf.
Qed.

(** The sessions of the mapping that [storeEndToEndSession] writes. *)
Lemma stored_sessions_get st deviceKey sessionId sessionInfo k :
  String.eqb k "__proto__" = false ->
  alist_get
    (own (js_put (session_object st deviceKey) sessionId sessionInfo)) k
  = if String.eqb sessionId k then Some sessionInfo
    else alist_get (sessions_of st deviceKey) k.
Proof. intros H. now rewrite alist_get_js_put. Qed.


(** *** Deleting sessions *)

Lemma alist_get_delete_session st s k :
  String.eqb (keyEndToEndSessions (fst s)) k = false ->
  alist_get (delete_session st s) k = alist_get st k.
Proof.
  intros H. unfold delete_session.
  destruct (Nat.eqb _ 0).
  - now rewrite alist_get_remove, H.
  - now rewrite alist_get_set, H.
Qed.

Lemma length_zero_nil {X} (l : list X) :
  Nat.eqb (List.length l) 0 = true <-> l = [].
Proof. destruct l; cbn; split; congruence. Qed.

Lemma alist_keys_nil {V} (l : list (string * V)) :
  alist_keys l = [] <-> l = [].
Proof. destruct l; cbn; split; congruence. Qed.

(** What [_getEndToEndSessions] builds after one round of
    [deleteEndToEndSessionsBatch]: for the device of the round, an object
    of the sessions that are left, with [Object.prototype] for its
    prototype. *)
Lemma session_object_delete st s deviceKey :
  session_object (delete_session st s) deviceKey
  = if String.eqb (fst s) deviceKey
    then mkObject (alist_remove (sessions_of st deviceKey) (snd s))
           Object_prototype
    else session_object st deviceKey.
Proof.
  unfold delete_session.
  destruct (sessions_of_wf st (fst s)) as (Hn & Hv & Hf).
  destruct (sessions_of_settled st (fst s)) as (He & Hp).
  destruct (Nat.eqb _ 0) eqn:E; unfold session_object at 1.
  - apply length_zero_nil, alist_keys_nil in E.
    rewrite decode_remove, keyEndToEndSessions_eqb.
    destruct (String.eqb (fst s) deviceKey) eqn:Ed; [|reflexivity].
    apply String.eqb_eq in Ed. subst deviceKey. now rewrite E.
  - rewrite decode_set, keyEndToEndSessions_eqb.
    destruct (String.eqb (fst s) deviceKey) eqn:Ed; [|reflexivity].
    apply String.eqb_eq in Ed. subst deviceKey.
    rewrite JSON_parse_stringify.
    + apply fix_sessions_settled.
      * now apply alist_remove_NoDup.
      * now apply alist_remove_Forall.
      * rewrite alist_keys_remove. now apply enumeration_filter.
      * rewrite alist_keys_remove. intros Hin.
        apply filter_In in Hin as [Hin _]. contradiction.
    + apply json_wf_object. split.
      * now apply alist_remove_NoDup.
      * now apply alist_remove_Forall.
Qed.

Lemma sessions_of_delete st s deviceKey :
  sessions_of (delete_session st s) deviceKey
  = if String.eqb (fst s) deviceKey
    then alist_remove (sessions_of st deviceKey) (snd s)
    else sessions_of st deviceKey.
Proof.
  unfold sessions_of at 1. rewrite session_object_delete.
  now destruct (String.eqb (fst s) deviceKey).
Qed.

(** Deleting a session that the device does not have leaves what every
    device reads. *)
Lemma sessions_of_delete_absent st s deviceKey :
  alist_get (sessions_of st (fst s)) (snd s) = None ->
  sessions_of (delete_session st s) deviceKey = sessions_of st deviceKey.
Proof.
  intros Habs. rewrite sessions_of_delete.
  destruct (String.eqb (fst s) deviceKey) eqn:Ed; [|reflexivity].
  apply String.eqb_eq in Ed. subst deviceKey.
  now apply alist_remove_absent.
Qed.

Lemma sessions_text_None sessions :
  sessions_text sessions = None
  <-> Nat.eqb (List.length (alist_keys sessions)) 0 = true.
Proof. destruct sessions; cbn; split; congruence. Qed.

(** Deleting a session that the device does not have writes the sessions
    of the device back. *)
Lemma delete_session_absent st s :
  alist_get (sessions_of st (fst s)) (snd s) = None ->
  delete_session st s = rewrite_device st (fst s).
Proof.
  intros Habs. unfold delete_session, rewrite_device.
  rewrite (alist_remove_absent _ _ Habs).
  now destruct (sessions_of st (fst s)).
Qed.

Lemma alist_set_same {V} (l : list (string * V)) k v :
  alist_get l k = Some v -> alist_set l k v = l.
Proof.
  induction l as [|[k0 v0] l IH]; cbn; [discriminate|].
  destruct (String.eqb k0 k); [now intros [= ->]|].
  intros H. f_equal. now apply IH.
Qed.

(** Writing the sessions of a device back leaves a storage whose key
    holds them already as it is. *)
Lemma rewrite_device_settled st deviceKey :
  settled st deviceKey -> rewrite_device st deviceKey = st.
Proof.
  unfold settled, rewrite_device. intros H.
  destruct (sessions_text (sessions_of st deviceKey)) as [text|].
  - now apply alist_set_same.
  - now apply alist_remove_absent.
Qed.

(** The text of the sessions of a device parses. *)
Lemma settled_readable st deviceKey :
  settled st deviceKey ->
  match alist_get st (keyEndToEndSessions deviceKey) with
  | Some text => exists v, JSON_parse text = inl v
  | None => True
  end.
Proof.
  unfold settled, sessions_text. intros ->.
  destruct (sessions_of_wf st deviceKey) as (Hn & Hv & _).
  destruct (sessions_of st deviceKey) as [|e l]; [exact I|].
  eexists. apply JSON_parse_stringify, json_wf_object. now split.
Qed.

(** [getJsonItem] logs nothing for a key that is absent or whose text
    parses. *)
Lemma getJsonItem_silent key w :
  match alist_get (storage w) key with
  | Some text => exists v, JSON_parse text = inl v
  | None => True
  end ->
  getJsonItem key w = (Return (decode (storage w) key), w).
Proof.
  unfold getJsonItem, decode, bind, getItem.
  destruct (alist_get (storage w) key) as [text|]; [|reflexivity].
  now intros [v ->].
Qed.

(** A round of [deleteEndToEndSessionsBatch] for a session that the
    device does not have, at a key that holds the sessions as they are
    read, changes nothing. *)
Lemma delete_round_settled deviceKey sessionId w :
  alist_get (sessions_of (storage w) deviceKey) sessionId = None ->
  settled (storage w) deviceKey ->
  (deviceSessions <- _getEndToEndSessions deviceKey ;;
   let deviceSessions' := alist_remove (own deviceSessions) sessionId in
   if Nat.eqb (List.length (alist_keys deviceSessions')) 0 then
     removeItem (keyEndToEndSessions deviceKey)
   else
     setJsonItem (keyEndToEndSessions deviceKey) (JObj deviceSessions')) w
  = (Return tt, w).
Proof.
  intros Habs Hs.
  unfold _getEndToEndSessions, bind.
  rewrite getJsonItem_silent by now apply settled_readable.
  cbn [ret]. fold (session_object (storage w) deviceKey).
  fold (sessions_of (storage w) deviceKey).
  rewrite (alist_remove_absent _ _ Habs).
  pose proof (rewrite_device_settled _ _ Hs) as Hr.
  unfold rewrite_device in Hr.
  destruct (sessions_of (storage w) deviceKey) as [|e l]; cbn in *.
  - unfold removeItem. rewrite Hr. now destruct w.
  - unfold setJsonItem, setItem. rewrite Hr. now destruct w.
Qed.

Lemma for_of_unchanged {X} (xs : list X) (body : X -> M unit) w :
  Forall (fun x => body x w = (Return tt, w)) xs ->
  for_of xs body w = (Return tt, w).
Proof.
  induction xs as [|x xs IH]; intros H; [reflexivity|].
  inversion H as [|? ? Hx Hxs]; subst. cbn [for_of]. unfold bind.
  rewrite Hx. now apply IH.
Qed.

Lemma delete_absent_rest st s sessions :
  alist_get (sessions_of st (fst s)) (snd s) = None ->
  Forall (fun s0 => alist_get (sessions_of st (fst s0)) (snd s0) = None)
    sessions ->
  Forall
    (fun s0 =>
       alist_get (sessions_of (delete_session st s) (fst s0)) (snd s0) = None)
    sessions.
Proof.
  intros Hs Hrest. eapply Forall_impl; [|exact Hrest]. cbn beta.
  intros s0 H0. now rewrite sessions_of_delete_absent.
Qed.

(** What [_getEndToEndSessions] builds after
    [deleteEndToEndSessionsBatch] for sessions that do not exist. *)
Lemma delete_absent_objects sessions st :
  Forall (fun s => alist_get (sessions_of st (fst s)) (snd s) = None)
    sessions ->
  forall deviceKey,
    session_object (fold_left delete_session sessions st) deviceKey
    = if existsb (String.eqb deviceKey) (map fst sessions)
      then mkObject (sessions_of st deviceKey) Object_prototype
      else session_object st deviceKey.
Proof.
  revert st. induction sessions as [|s sessions IH]; intros st H deviceKey;
    [reflexivity|].
  inversion H as [|? ? Hs Hrest]; subst. cbn [fold_left map existsb].
  rewrite IH by now apply delete_absent_rest.
  rewrite sessions_of_delete_absent by exact Hs.
  rewrite session_object_delete.
  destruct (existsb (String.eqb deviceKey) (map fst sessions));
    [now rewrite orb_true_r|]. rewrite orb_false_r.
  rewrite (String.eqb_sym deviceKey).
  destruct (String.eqb (fst s) deviceKey) eqn:E; [|reflexivity].
  apply String.eqb_eq in E. subst deviceKey.
  now rewrite (alist_remove_absent _ _ Hs).
Qed.

Lemma delete_sessions_other sessions st k :
  Forall (fun s => String.eqb (keyEndToEndSessions (fst s)) k = false)
    sessions ->
  alist_get (fold_left delete_session sessions st) k = alist_get st k.
Proof.
  revert st. induction sessions as [|s sessions IH]; intros st Hk;
    [reflexivity|].
  inversion Hk; subst. cbn [fold_left].
  rewrite IH by assumption. now apply alist_get_delete_session.
Qed.

(** The text under the key of a device named, after
    [deleteEndToEndSessionsBatch] for sessions that do not exist. *)
Lemma delete_absent_text sessions st deviceKey :
  Forall (fun s => alist_get (sessions_of st (fst s)) (snd s) = None)
    sessions ->
  In deviceKey (map fst sessions) ->
  alist_get (fold_left delete_session sessions st)
    (keyEndToEndSessions deviceKey)
  = sessions_text (sessions_of st deviceKey).
Proof.
  revert st. induction sessions as [|s sessions IH]; intros st H Hin;
    [destruct Hin|].
  inversion H as [|? ? Hs Hrest]; subst. cbn [fold_left map] in *.
  destruct (existsb (String.eqb deviceKey) (map fst sessions)) eqn:E.
  - apply existsb_eqb_In in E.
    rewrite IH by (try assumption; now apply delete_absent_rest).
    now rewrite sessions_of_delete_absent.
  - assert (Hd : deviceKey = fst s).
    { destruct Hin as [<-|Hin]; [reflexivity|].
      apply existsb_eqb_In in Hin. congruence. }
    subst deviceKey.
    rewrite delete_sessions_other.
    + rewrite (delete_session_absent _ _ Hs). unfold rewrite_device.
      destruct (sessions_text (sessions_of st (fst s))).
      * now rewrite alist_get_set, String.eqb_refl.
      * now rewrite alist_get_remove, String.eqb_refl.
    + apply Forall_forall. intros s0 Hs0.
      rewrite keyEndToEndSessions_eqb.
      destruct (String.eqb (fst s0) (fst s)) eqn:E0; [|reflexivity].
      apply String.eqb_eq in E0.
      assert (existsb (String.eqb (fst s)) (map fst sessions) = true);
        [|congruence].
      apply existsb_eqb_In. rewrite <- E0. now apply in_map.
Qed.

(** C5, as the code has it.  Deleting sessions that do not exist reports
    no error, and for each device named in the list it writes the sessions
    of the device back: under the key of a named device it leaves the text
    of the sessions as [_getEndToEndSessions] reads them, or no key when
    there are none.  So the call changes nothing, neither the storage nor
    the log, where the key of every device named holds that already: no
    key, or the text of its sessions.  Where it does not, the text under the
    key is another afterwards, and nothing else is: every other key keeps
    its text, and every device keeps its sessions as they are read (for a
    device named, the object read has [Object.prototype] for its prototype
    afterwards).  [getEndToEndSession] and [getEndToEndSessions] return
    what they returned before, for a device not named, and for a device
    named whose object had [Object.prototype] for its prototype: whose
    mapping stored had no entry [__proto__]. *)
Theorem deleteEndToEndSessionsBatch_absent_keeps_sessions
    (w : World) (sessions : list (string * string)) :
  Forall (fun s => alist_get (sessions_of (storage w) (fst s)) (snd s) = None)
    sessions ->
  let w' := snd (deleteEndToEndSessionsBatch sessions w) in
  fst (deleteEndToEndSessionsBatch sessions w) = Return tt
  /\ storage w' = fold_left rewrite_device (map fst sessions) (storage w)
  /\ (Forall (fun s => settled (storage w) (fst s)) sessions -> w' = w)
  /\ (forall deviceKey,
        sessions_of (storage w') deviceKey = sessions_of (storage w) deviceKey)
  /\ (forall deviceKey,
        In deviceKey (map fst sessions) ->
        settled (storage w') deviceKey
        /\ prototype_of (storage w') deviceKey = Object_prototype
        /\ (alist_get (storage w') (keyEndToEndSessions deviceKey)
            = alist_get (storage w) (keyEndToEndSessions deviceKey)
            <-> settled (storage w) deviceKey))
  /\ (forall k,
        Forall (fun s => String.eqb (keyEndToEndSessions (fst s)) k = false)
          sessions ->
        alist_get (storage w') k = alist_get (storage w) k)
  /\ (forall deviceKey,
        (In deviceKey (map fst sessions) ->
         prototype_of (storage w) deviceKey = Object_prototype) ->
        (forall sid,
           fst (getEndToEndSession deviceKey sid w')
           = fst (getEndToEndSession deviceKey sid w))
        /\ fst (getEndToEndSessions deviceKey w')
           = fst (getEndToEndSessions deviceKey w)).
Proof.
  intros H w'. subst w'.
  split; [|split; [|split]].
  { now destruct (writes_deleteEndToEndSessionsBatch sessions w) as [l ->]. }
  { destruct (writes_deleteEndToEndSessionsBatch sessions w) as [l ->].
    cbn [snd storage]. generalize dependent (storage w). clear w l.
    induction sessions as [|s sessions IH]; intros st H; [reflexivity|].
    inversion H as [|? ? Hs Hrest]; subst. cbn [fold_left map].
    rewrite <- (delete_session_absent _ _ Hs). apply IH.
    eapply Forall_impl; [|exact Hrest]. cbn beta. intros s0 H0.
    now rewrite sessions_of_delete_absent. }
  { intros Hs. unfold deleteEndToEndSessionsBatch.
    rewrite for_of_unchanged; [reflexivity|].
    rewrite Forall_forall in *. intros [deviceKey sessionId] Hin.
    apply delete_round_settled; [apply (H _ Hin)|apply (Hs _ Hin)]. }
  destruct (writes_deleteEndToEndSessionsBatch sessions w) as [l ->].
  cbn [snd storage].
  pose proof (delete_absent_objects sessions (storage w) H) as Hobj.
  assert (Hsess : forall deviceKey,
            sessions_of (fold_left delete_session sessions (storage w))
              deviceKey
            = sessions_of (storage w) deviceKey).
  { intros deviceKey. unfold sessions_of at 1. rewrite Hobj.
    now destruct (existsb (String.eqb deviceKey) (map fst sessions)). }
  split; [exact Hsess|].
  split; [|split; [intros k Hk; now apply delete_sessions_other|]].
  - intros deviceKey Hin.
    assert (Hs' : settled (fold_left delete_session sessions (storage w))
                    deviceKey).
    { unfold settled. rewrite Hsess. now apply delete_absent_text. }
    split; [exact Hs'|]. split.
    + unfold prototype_of. rewrite Hobj.
      apply existsb_eqb_In in Hin. now rewrite Hin.
    + unfold settled in *. rewrite Hsess in Hs'. rewrite Hs'.
      split; intros E; now rewrite E.
  - intros deviceKey Hp.
    assert (Hsame : session_object
                      (fold_left delete_session sessions (storage w))
                      deviceKey
                    = session_object (storage w) deviceKey).
    { rewrite Hobj.
      destruct (existsb (String.eqb deviceKey) (map fst sessions)) eqn:E;
        [|reflexivity].
      apply existsb_eqb_In in E. specialize (Hp E).
      unfold prototype_of, sessions_of in *.
      destruct (session_object (storage w) deviceKey) as [o p].
      cbn [own proto] in *. now subst p. }
    split; [intros sid|].
    + rewrite !(reads_fst _ _ _ (reads_getEndToEndSession _ _)).
      cbn [storage]. now rewrite Hsame.
    + rewrite !(reads_fst _ _ _ (reads_getEndToEndSessions _)).
      cbn [storage]. now rewrite Hsame.
Qed.

(** *** Every method, and the devices that have sessions *)

Lemma keeps_ret {A} (a : A) : keeps (ret a).
Proof. now intros w. Qed.

Lemma keeps_throw {A} e : keeps (@throw A e).
Proof. now intros w. Qed.

Lemma keeps_bind {A B} (m : M A) (k : A -> M B) :
  keeps m -> (forall a, keeps (k a)) -> keeps (bind m k).
Proof.
  intros Hm Hk w. unfold bind. specialize (Hm w).
  destruct (m w) as [[a|e] w1]; cbn in *; [|exact Hm].
  now rewrite Hk.
Qed.

Lemma keeps_reads {A} (m : M A) f : reads m f -> keeps m.
Proof. intros H w. now destruct (H w) as [l ->]. Qed.

Lemma keeps_for_keys_from {A R} fuel i (body : nat -> A -> M (step A R)) acc :
  (forall i acc, keeps (body i acc)) -> keeps (for_keys_from fuel i body acc).
Proof.
  intros Hb. revert i acc.
  induction fuel as [|fuel IH]; intros i acc; cbn [for_keys_from].
  - apply keeps_ret.
  - apply keeps_bind; [apply (keeps_reads _ _ reads_store_length)|].
    intros n. destruct (Nat.ltb i n); [|apply keeps_ret].
    apply keeps_bind; [apply Hb|].
    intros [acc'|r]; [apply IH|apply keeps_ret].
Qed.

Lemma keeps_for_keys {A R} (body : nat -> A -> M (step A R)) acc :
  (forall i acc, keeps (body i acc)) -> keeps (for_keys body acc).
Proof.
  intros Hb. apply keeps_bind; [apply (keeps_reads _ _ reads_store_length)|].
  intros n. now apply keeps_for_keys_from.
Qed.

Lemma keeps_getJsonItem key : keeps (getJsonItem key).
Proof. apply (keeps_reads _ _ (reads_getJsonItem key)). Qed.

Lemma keeps_store_key i : keeps (store_key i).
Proof. apply (keeps_reads _ _ (reads_store_key i)). Qed.

Lemma keeps_js_in k v : keeps (js_in k v).
Proof. destruct v; first [apply keeps_ret | apply keeps_throw]. Qed.

Lemma keeps_effect {A} (m : M A) : keeps m -> keeps (effect m).
Proof. intros H. apply keeps_bind; [exact H|intros a; apply keeps_ret]. Qed.

Ltac keeps_tac :=
  repeat first
    [ apply keeps_ret
    | apply keeps_throw
    | apply keeps_getJsonItem
    | apply keeps_store_key
    | apply keeps_js_in
    | apply keeps_effect
    | apply keeps_for_keys; intros ? ?
    | apply keeps_bind; [|intros ?]
    | match goal with
      | |- keeps (match ?x with _ => _ end) => destruct x
      end ].

Lemma keeps_exists_ : keeps exists_.
Proof.
  unfold exists_. apply keeps_bind;
    [apply (keeps_reads _ _ reads_store_length)|].
  intros n. generalize (seq 0 n). intros indices.
  induction indices as [|i indices IH]; [apply keeps_ret|].
  cbn [exists_from]. apply keeps_bind; [apply keeps_store_key|].
  intros key. destruct (key_startsWith key E2E_PREFIX);
    [apply keeps_ret|exact IH].
Qed.

Lemma keeps_getEndToEndInboundGroupSession k s :
  keeps (getEndToEndInboundGroupSession k s).
Proof. unfold getEndToEndInboundGroupSession. keeps_tac. Qed.

Lemma keeps_countEndToEndInboundGroupSessions :
  keeps countEndToEndInboundGroupSessions.
Proof. unfold countEndToEndInboundGroupSessions. keeps_tac. Qed.

Lemma keeps_getEndToEndInboundGroupSessionsBatch :
  keeps getEndToEndInboundGroupSessionsBatch.
Proof. unfold getEndToEndInboundGroupSessionsBatch. keeps_tac. Qed.

Lemma keeps_getEndToEndRooms : keeps getEndToEndRooms.
Proof. unfold getEndToEndRooms. keeps_tac. Qed.

(** *** Marking sessions *)

Lemma mark_each_mark_all sessions index w :
  mark_each sessions index w = (mark_all sessions index, w).
Proof.
  revert index. induction sessions as [|[k s] sessions IH]; intros index.
  - reflexivity.
  - cbn [mark_each mark_all]. unfold bind.
    destruct index; cbn; try reflexivity; apply IH.
Qed.

Lemma markSessionsNeedingBackup_run sessions w :
  exists l,
    markSessionsNeedingBackup sessions w
    = match mark_all sessions
              (or_empty_object (decode (storage w) KEY_SESSIONS_NEEDING_BACKUP))
      with
      | Return index =>
          (Return tt,
           mkWorld (alist_set (storage w) KEY_SESSIONS_NEEDING_BACKUP
                      (JSON_stringify index)) (logs w ++ l)%list)
      | Throw e => (Throw e, mkWorld (storage w) (logs w ++ l)%list)
      end.
Proof.
  unfold markSessionsNeedingBackup, bind.
  destruct (reads_getJsonItem KEY_SESSIONS_NEEDING_BACKUP w) as [l ->].
  exists l. rewrite mark_each_mark_all.
  now destruct (mark_all sessions _).
Qed.

(** *** Devices without sessions are not kept *)






Lemma alist_set_not_nil {V} (l : list (string * V)) k v :
  alist_set l k v <> [].
Proof.
  destruct l as [|[k0 v0] l]; cbn; [discriminate|].
  destruct (String.eqb k0 k); discriminate.
Qed.






(** *** The index of sessions needing backup *)

Lemma alist_set_twice {V} (l : list (string * V)) k v :
  alist_set (alist_set l k v) k v = alist_set l k v.
Proof.
  induction l as [|[k0 v0] l IH]; cbn.
  - now rewrite String.eqb_refl.
  - destruct (String.eqb k0 k) eqn:E; cbn; rewrite E; [reflexivity|].
    now rewrite IH.
Qed.

Lemma or_empty_object_truthy v : truthy (or_empty_object v) = true.
Proof. unfold or_empty_object. now destruct (truthy v) eqn:E. Qed.

Lemma or_empty_object_of_truthy v :
  truthy v = true -> or_empty_object v = v.
Proof. unfold or_empty_object. now intros ->. Qed.

Lemma mark_all_truthy sessions index index' :
  truthy index = true -> mark_all sessions index = Return index' ->
  truthy index' = true.
Proof.
  revert index. induction sessions as [|s sessions IH]; intros index Ht; cbn.
  - now intros [= <-].
  - destruct index; try discriminate; apply IH; reflexivity.
Qed.

Lemma mark_all_wf sessions index index' :
  json_wf index = true -> mark_all sessions index = Return index' ->
  json_wf index' = true.
Proof.
  revert index. induction sessions as [|s sessions IH]; intros index Hw;
    cbn [mark_all].
  - now intros [= <-].
  - destruct index; try discriminate; apply IH; try exact Hw.
    apply json_wf_object in Hw as [Hn Hv]. apply json_wf_object. split.
    + now apply alist_set_NoDup.
    + apply alist_set_Forall; [reflexivity|exact Hv].
Qed.

(** Marking keeps every entry of the index, with its value or with [true]. *)
Lemma mark_all_keeps sessions index index' k v :
  mark_all sessions index = Return index' ->
  alist_get (Object_entries index) k = Some v ->
  alist_get (Object_entries index') k = Some v
  \/ alist_get (Object_entries index') k = Some (JBool true).
Proof.
  revert index v. induction sessions as [|s sessions IH]; intros index v;
    cbn [mark_all].
  - intros [= <-] H. now left.
  - destruct index; try discriminate.
    + apply IH.
    + intros Hm Hk. cbn [Object_entries] in Hk.
      destruct (String.eqb (backup_name s) k) eqn:E.
      * destruct (IH _ (JBool true) Hm) as [H|H]; [|now right|now right].
        cbn [Object_entries]. now rewrite alist_get_set, E.
      * apply (IH _ v Hm). cbn [Object_entries].
        now rewrite alist_get_set, E.
Qed.

Lemma backup_flags_wf st :
  json_wf (or_empty_object (decode st KEY_SESSIONS_NEEDING_BACKUP)) = true.
Proof. apply or_empty_object_wf, decode_wf. Qed.

(** C8.  Marking is idempotent and monotone.  With the index an object
    (or absent, or unreadable): marking a session twice, in one call or in
    two, leaves the storage that marking it once leaves; the index then
    holds the session's name once, with [true].  And in every storage, a
    call of [markSessionsNeedingBackup] keeps each entry that the index
    had, with its value or with [true]. *)
Theorem markSessionsNeedingBackup_idempotent_monotone
    (w : World) (senderKey sessionId : string)
    (props : list (string * json)) :
  or_empty_object (decode (storage w) KEY_SESSIONS_NEEDING_BACKUP)
  = JObj props ->
  let s := (senderKey, sessionId) in
  let once := snd (markSessionsNeedingBackup [s] w) in
  let flags := alist_set props (backup_name s) (JBool true) in
  fst (markSessionsNeedingBackup [s] w) = Return tt
  /\ fst (markSessionsNeedingBackup [s; s] w) = Return tt
  /\ fst (markSessionsNeedingBackup [s] once) = Return tt
  /\ storage (snd (markSessionsNeedingBackup [s; s] w)) = storage once
  /\ storage (snd (markSessionsNeedingBackup [s] once)) = storage once
  /\ backup_flags (storage once) = flags
  /\ alist_get flags (backup_name s) = Some (JBool true)
  /\ count_occ string_dec (alist_keys flags) (backup_name s) = 1
  /\ (forall sessions w0 k v,
        alist_get (backup_flags (storage w0)) k = Some v ->
        let flags' :=
          backup_flags (storage (snd (markSessionsNeedingBackup sessions w0)))
        in
        alist_get flags' k = Some v \/ alist_get flags' k = Some (JBool true)).
Proof.
  intros Hidx s once flags.
  assert (Hwf : json_wf (JObj props) = true)
    by (rewrite <- Hidx; apply backup_flags_wf).
  assert (Hwf' : json_wf (JObj flags) = true).
  { apply json_wf_object in Hwf as [Hn Hv]. apply json_wf_object. split.
    - now apply alist_set_NoDup.
    - apply alist_set_Forall; [reflexivity|exact Hv]. }
  assert (Honce : exists l,
    markSessionsNeedingBackup [s] w
    = (Return tt,
       mkWorld (alist_set (storage w) KEY_SESSIONS_NEEDING_BACKUP
                  (JSON_stringify (JObj flags))) (logs w ++ l)%list)).
  { destruct (markSessionsNeedingBackup_run [s] w) as [l E].
    exists l. rewrite E, Hidx. reflexivity. }
  destruct Honce as [l1 E1].
  assert (Hflags : backup_flags (storage once) = flags).
  { subst once. rewrite E1. cbn [snd storage]. unfold backup_flags.
    now rewrite decode_set_stringify. }
  split; [now rewrite E1|].
  split; [|split; [|split; [|split; [|split; [exact Hflags|split; [|split]]]]]].
  - destruct (markSessionsNeedingBackup_run [s; s] w) as [l E].
    rewrite E, Hidx. reflexivity.
  - destruct (markSessionsNeedingBackup_run [s] once) as [l E]. rewrite E.
    subst once. rewrite E1. cbn [snd storage].
    rewrite decode_set_stringify by exact Hwf'. reflexivity.
  - destruct (markSessionsNeedingBackup_run [s; s] w) as [l E].
    rewrite E, Hidx. subst once. rewrite E1. cbn [snd storage mark_all].
    unfold flags. now rewrite alist_set_twice.
  - destruct (markSessionsNeedingBackup_run [s] once) as [l E]. rewrite E.
    subst once. rewrite E1. cbn [snd storage].
    rewrite decode_set_stringify by exact Hwf'.
    cbn [or_empty_object truthy mark_all snd storage].
    unfold flags. rewrite alist_set_twice.
    now rewrite alist_set_twice.
  - unfold flags. now rewrite alist_get_set, String.eqb_refl.
  - apply NoDup_count_occ'.
    + apply json_wf_object in Hwf' as [Hn _]. exact Hn.
    + unfold flags. rewrite alist_keys_set.
      destruct (existsb (String.eqb (backup_name s)) (alist_keys props))
        eqn:E.
      * apply existsb_exists in E as (x & Hx & Ex).
        apply String.eqb_eq in Ex. now subst x.
      * apply in_or_app. right. now left.
  - intros sessions w0 k v Hk flags'. subst flags'.
    destruct (markSessionsNeedingBackup_run sessions w0) as [l E].
    rewrite E.
    destruct (mark_all sessions
                (or_empty_object
                   (decode (storage w0) KEY_SESSIONS_NEEDING_BACKUP)))
      as [index'|e] eqn:Em; cbn [snd storage]; [|now left].
    unfold backup_flags.
    rewrite decode_set_stringify
      by (eapply mark_all_wf; [apply backup_flags_wf|exact Em]).
    rewrite or_empty_object_of_truthy
      by (eapply mark_all_truthy; [apply or_empty_object_truthy|exact Em]).
    eapply mark_all_keeps; [exact Em|exact Hk].
Qed.

(** *** The batch of Megolm sessions *)

Lemma reads_js_in k v : reads (js_in k v) (fun _ => in_index k v).
Proof. destruct v; cbn; first [apply reads_ret | apply reads_throw]. Qed.

Lemma reads_getEndToEndInboundGroupSessionsBatch :
  reads getEndToEndInboundGroupSessionsBatch
    (fun st =>
       match scan_keys
               (inbound_round
                  (or_empty_object (decode st KEY_SESSIONS_NEEDING_BACKUP)) st)
               (alist_keys st) [] with
       | Return s => Return (batch_result s)
       | Throw e => Throw e
       end).
Proof.
  unfold getEndToEndInboundGroupSessionsBatch.
  eapply (reads_bind_as _ _ _
            (fun stored st =>
               match scan_keys (inbound_round (or_empty_object stored) st)
                       (alist_keys st) [] with
               | Return s => Return (batch_result s)
               | Throw e => Throw e
               end));
    [apply reads_getJsonItem | | reflexivity].
  intros stored.
  eapply (reads_bind_as _ _ _ (fun s _ => Return (batch_result s)));
    [ | intros s; apply reads_ret | reflexivity].
  apply (for_keys_reads _ (inbound_round (or_empty_object stored))).
  intros i result.
  eapply (reads_bind_as _ _ _
            (fun key st => inbound_round (or_empty_object stored) st key result));
    [apply reads_store_key | | reflexivity].
  intros [k|]; [|apply reads_ret].
  unfold inbound_round.
  destruct (startsWith k KEY_INBOUND_SESSION_PREFIX); [|apply reads_ret].
  eapply (reads_bind_as _ _ _
            (fun data _ =>
               match in_index
                       (slice_from (String.length KEY_INBOUND_SESSION_PREFIX) k)
                       (or_empty_object stored) with
               | Return flag =>
                   Return (push_batch
                     [mkSessionExtended
                        (slice_to 43
                           (slice_from
                              (String.length KEY_INBOUND_SESSION_PREFIX) k))
                        (slice_from 44
                           (slice_from
                              (String.length KEY_INBOUND_SESSION_PREFIX) k))
                        data flag] result)
               | Throw e => Throw e
               end));
    [apply reads_getJsonItem | | reflexivity].
  intros data.
  eapply (reads_bind_as _ _ _
            (fun flag _ =>
               Return (push_batch
                 [mkSessionExtended
                    (slice_to 43
                       (slice_from
                          (String.length KEY_INBOUND_SESSION_PREFIX) k))
                    (slice_from 44
                       (slice_from
                          (String.length KEY_INBOUND_SESSION_PREFIX) k))
                    data flag] result)));
    [apply reads_js_in | intros flag; apply reads_ret | reflexivity].
Qed.

Lemma in_index_ok st k :
  index_ok st = true ->
  in_index k (or_empty_object (decode st KEY_SESSIONS_NEEDING_BACKUP))
  = Return (flag_of (or_empty_object (decode st KEY_SESSIONS_NEEDING_BACKUP)) k).
Proof.
  unfold index_ok, flag_of.
  now destruct (or_empty_object (decode st KEY_SESSIONS_NEEDING_BACKUP)).
Qed.

Lemma scan_keys_inbound st keys result :
  index_ok st = true ->
  scan_keys
    (inbound_round (or_empty_object (decode st KEY_SESSIONS_NEEDING_BACKUP)) st)
    keys result
  = Return (push_batch (flat_map (inbound_under st) keys) result).
Proof.
  intros Hok. revert result.
  induction keys as [|k keys IH]; intros result; cbn [scan_keys flat_map].
  - reflexivity.
  - rewrite push_batch_app. unfold inbound_round at 1, inbound_under at 1.
    destruct (startsWith k KEY_INBOUND_SESSION_PREFIX); [|apply IH].
    cbv zeta. rewrite in_index_ok by exact Hok.
    unfold session_at.
    destruct (push_batch _ result); [apply IH|reflexivity].
Qed.

(** With an index that is not a primitive value, the batch is the first
    sessions in the order of the keys. *)
Lemma getEndToEndInboundGroupSessionsBatch_first w :
  index_ok (storage w) = true ->
  fst (getEndToEndInboundGroupSessionsBatch w)
  = Return match inbound_sessions (storage w) with
           | [] => None
           | _ => Some (firstn (Nat.max 1 SESSION_BATCH_SIZE)
                          (inbound_sessions (storage w)))
           end.
Proof.
  intros Hok.
  destruct (reads_getEndToEndInboundGroupSessionsBatch w) as [l ->].
  cbn [fst]. rewrite scan_keys_inbound by exact Hok.
  now rewrite batch_result_push.
Qed.

(** *** Slicing a key *)

Lemma slice_to_append a b : slice_to (String.length a) (a ++ b) = a.
Proof. induction a as [|c a IH]; cbn; [now destruct b|now rewrite IH]. Qed.

Lemma slice_from_append a b : slice_from (String.length a) (a ++ b) = b.
Proof. induction a as [|c a IH]; cbn; [reflexivity|exact IH]. Qed.

Lemma length_with_slash a : String.length (a ++ "/") = S (String.length a).
Proof. induction a as [|c a IH]; cbn; [reflexivity|now rewrite IH]. Qed.

Lemma inbound_key_suffix senderKey sessionId :
  slice_from (String.length KEY_INBOUND_SESSION_PREFIX)
    (keyEndToEndInboundGroupSession senderKey sessionId)
  = (senderKey ++ "/") ++ sessionId.
Proof. reflexivity. Qed.

Lemma append_assoc a b c : ((a ++ b) ++ c)%string = (a ++ (b ++ c))%string.
Proof. induction a as [|x a IH]; cbn; [reflexivity|now rewrite IH]. Qed.

(** The two slices give back the sender key and the session id. *)
Lemma inbound_key_slices senderKey sessionId :
  String.length senderKey = 43 ->
  let key2 :=
    slice_from (String.length KEY_INBOUND_SESSION_PREFIX)
      (keyEndToEndInboundGroupSession senderKey sessionId) in
  slice_to 43 key2 = senderKey /\ slice_from 44 key2 = sessionId.
Proof.
  intros Hlen key2. subst key2. rewrite inbound_key_suffix. split.
  - rewrite append_assoc, <- Hlen. apply slice_to_append.
  - replace 44 with (String.length (senderKey ++ "/"))
      by (rewrite length_with_slash; now rewrite Hlen).
    apply slice_from_append.
Qed.

Lemma In_keys_after_set {V} (l : list (string * V)) k v :
  In k (alist_keys (alist_set l k v)).
Proof.
  rewrite alist_keys_set.
  destruct (existsb (String.eqb k) (alist_keys l)) eqn:E.
  - apply existsb_exists in E as (x & Hx & Ex).
    apply String.eqb_eq in Ex. now subst x.
  - apply in_or_app. right. now left.
Qed.

(** C1.  The key of an inbound group session decodes to the sender key
    and the session id it was made of, whatever the session id contains:
    for a sender key of 43 characters, the two slices that
    [getEndToEndInboundGroupSessionsBatch] takes of the key are the sender
    key and the session id.  So, after
    [storeEndToEndInboundGroupSession] in a store whose inbound group
    sessions fit one batch (and whose backup index is not a primitive
    value), the batch has an element with that sender key, that session id
    and the data read under the key. *)
Theorem inbound_group_session_key_round_trip
    (senderKey0 sessionId0 : string) :
  String.length senderKey0 = 43 ->
  let key := keyEndToEndInboundGroupSession senderKey0 sessionId0 in
  let key2 := slice_from (String.length KEY_INBOUND_SESSION_PREFIX) key in
  slice_to 43 key2 = senderKey0
  /\ slice_from 44 key2 = sessionId0
  /\ (forall st result,
        senderKey (session_at st key) = senderKey0
        /\ sessionId (session_at st key) = sessionId0
        /\ inbound_round (or_empty_object
                            (decode st KEY_SESSIONS_NEEDING_BACKUP))
             st (Some key) result
           = if index_ok st
             then Return (push_batch [session_at st key] result)
             else Throw TypeError)
  /\ (forall w data,
        index_ok (storage w) = true ->
        let w' :=
          snd (storeEndToEndInboundGroupSession senderKey0 sessionId0 data w)
        in
        List.length (inbound_sessions (storage w')) <= SESSION_BATCH_SIZE ->
        exists batch e,
          fst (getEndToEndInboundGroupSessionsBatch w') = Return (Some batch)
          /\ In e batch
          /\ senderKey e = senderKey0
          /\ sessionId e = sessionId0
          /\ sessionData e = decode (storage w') key).
Proof.
  intros Hlen key key2.
  destruct (inbound_key_slices senderKey0 sessionId0 Hlen) as [Hk Hs].
  split; [exact Hk|]. split; [exact Hs|]. split.
  { intros st result. split; [exact Hk|]. split; [exact Hs|].
    unfold inbound_round, index_ok, session_at, flag_of.
    replace (startsWith key KEY_INBOUND_SESSION_PREFIX) with true
      by reflexivity.
    cbv zeta.
    now destruct (or_empty_object (decode st KEY_SESSIONS_NEEDING_BACKUP)). }
  intros w data Hok w' Hfit.
  assert (Hst : storage w'
                = alist_set (storage w) key (JSON_stringify data))
    by reflexivity.
  assert (Hok' : index_ok (storage w') = true).
  { unfold index_ok. rewrite Hst, decode_set.
    replace (String.eqb key KEY_SESSIONS_NEEDING_BACKUP) with false
      by reflexivity.
    exact Hok. }
  assert (Hin : In (session_at (storage w') key)
                  (inbound_sessions (storage w'))).
  { apply in_flat_map. exists key. split.
    - rewrite Hst. apply In_keys_after_set.
    - unfold inbound_under.
      replace (startsWith key KEY_INBOUND_SESSION_PREFIX) with true
        by reflexivity.
      now left. }
  exists (inbound_sessions (storage w')), (session_at (storage w') key).
  split.
  - rewrite getEndToEndInboundGroupSessionsBatch_first by exact Hok'.
    destruct (inbound_sessions (storage w')) as [|x xs] eqn:E;
      [destruct Hin|].
    rewrite firstn_all2 by lia. reflexivity.
  - split; [exact Hin|].
    unfold session_at. cbn [senderKey sessionId sessionData].
    fold key. fold key2. auto.
Qed.

(** *** Reads that cannot raise *)

Lemma returns_ret {A} (a : A) : returns (ret a).
Proof. intros w. now exists a. Qed.

Lemma returns_bind {A B} (m : M A) (k : A -> M B) :
  returns m -> (forall a, returns (k a)) -> returns (bind m k).
Proof.
  intros Hm Hk w. unfold bind. destruct (Hm w) as [a Ha].
  destruct (m w) as [o w1]. cbn in Ha. subst o. apply Hk.
Qed.

Lemma returns_reads {A} (m : M A) (f : Storage -> A) :
  reads m (fun st => Return (f st)) -> returns m.
Proof. intros H w. destruct (H w) as [l ->]. now eexists. Qed.

Lemma returns_for_keys_from {A R} fuel i (body : nat -> A -> M (step A R)) acc :
  (forall i acc, returns (body i acc)) ->
  returns (for_keys_from fuel i body acc).
Proof.
  intros Hb. revert i acc.
  induction fuel as [|fuel IH]; intros i acc; cbn [for_keys_from].
  - apply returns_ret.
  - apply returns_bind; [apply (returns_reads _ _ reads_store_length)|].
    intros n. destruct (Nat.ltb i n); [|apply returns_ret].
    apply returns_bind; [apply Hb|].
    intros [acc'|r]; [apply IH|apply returns_ret].
Qed.

Lemma returns_for_keys {A R} (body : nat -> A -> M (step A R)) acc :
  (forall i acc, returns (body i acc)) -> returns (for_keys body acc).
Proof.
  intros Hb.
  apply returns_bind; [apply (returns_reads _ _ reads_store_length)|].
  intros n. now apply returns_for_keys_from.
Qed.

Lemma returns_getJsonItem key : returns (getJsonItem key).
Proof. apply (returns_reads _ _ (reads_getJsonItem key)). Qed.

Lemma returns_store_key i : returns (store_key i).
Proof. apply (returns_reads _ _ (reads_store_key i)). Qed.

Ltac returns_tac :=
  repeat first
    [ apply returns_ret
    | apply returns_getJsonItem
    | apply returns_store_key
    | apply returns_for_keys; intros ? ?
    | apply returns_bind; [|intros ?]
    | match goal with
      | |- returns (match ?x with _ => _ end) => destruct x
      end ].

Lemma returns_exists_ : returns exists_.
Proof.
  unfold exists_. apply returns_bind;
    [apply (returns_reads _ _ reads_store_length)|].
  intros n. generalize (seq 0 n). intros indices.
  induction indices as [|i indices IH]; [apply returns_ret|].
  cbn [exists_from]. apply returns_bind; [apply returns_store_key|].
  intros key. destruct (key_startsWith key E2E_PREFIX);
    [apply returns_ret|exact IH].
Qed.

Lemma returns_countEndToEndInboundGroupSessions :
  returns countEndToEndInboundGroupSessions.
Proof. unfold countEndToEndInboundGroupSessions. returns_tac. Qed.

Lemma returns_getEndToEndRooms : returns getEndToEndRooms.
Proof. unfold getEndToEndRooms. returns_tac. Qed.

Lemma reads_getEndToEndInboundGroupSession k s :
  reads (getEndToEndInboundGroupSession k s)
    (fun st =>
       Return (decode st (keyEndToEndInboundGroupSession k s),
               decode st (keyEndToEndInboundGroupSessionWithheld k s))).
Proof.
  unfold getEndToEndInboundGroupSession.
  eapply (reads_bind_as _ _ _
            (fun a st =>
               Return (a, decode st (keyEndToEndInboundGroupSessionWithheld k s))));
    [apply reads_getJsonItem | | reflexivity].
  intros a.
  eapply (reads_bind_as _ _ _ (fun b _ => Return (a, b)));
    [apply reads_getJsonItem | intros b; apply reads_ret | reflexivity].
Qed.

(** *** Text that does not parse *)

Lemma decode_unreadable st key text e :
  alist_get st key = Some text -> JSON_parse text = inr e ->
  decode st key = JNull.
Proof. intros H1 H2. unfold decode. now rewrite H1, H2. Qed.

Lemma decode_without st key k :
  decode st key = JNull ->
  decode (alist_remove st key) k = decode st k.
Proof.
  intros H. rewrite decode_remove.
  destruct (String.eqb key k) eqn:E; [|reflexivity].
  apply String.eqb_eq in E. now subst k.
Qed.

Lemma list_sum_without (f : string -> nat) key keys :
  f key = 0 ->
  list_sum (map f (filter (fun k => negb (String.eqb k key)) keys))
  = list_sum (map f keys).
Proof.
  intros H. unfold list_sum.
  induction keys as [|k keys IH]; cbn; [reflexivity|].
  destruct (String.eqb k key) eqn:E; cbn.
  - apply String.eqb_eq in E. subst k. now rewrite H.
  - now rewrite IH.
Qed.

Lemma flat_map_without {X} (f : string -> list X) key keys :
  f key = [] ->
  flat_map f (filter (fun k => negb (String.eqb k key)) keys)
  = flat_map f keys.
Proof.
  intros H. induction keys as [|k keys IH]; cbn; [reflexivity|].
  destruct (String.eqb k key) eqn:E; cbn.
  - apply String.eqb_eq in E. subst k. now rewrite H.
  - now rewrite IH.
Qed.

Lemma Return_inj {X} (a b : X) : Return a = Return b -> a = b.
Proof. intros E. now injection E. Qed.

(** *** The device of a key of sessions *)

Lemma split_without_separator sep s :
  contains_char sep s = false -> split sep s = [s].
Proof.
  induction s as [|c s IH]; cbn; [reflexivity|].
  destruct (Ascii.eqb c sep); [discriminate|]. cbn.
  intros H. now rewrite IH.
Qed.

Lemma second_segment_of_key deviceKey :
  second_segment (keyEndToEndSessions deviceKey)
  = match split "/" deviceKey with
    | d :: _ => d
    | [] => "undefined"
    end.
Proof.
  unfold second_segment, keyEndToEndSessions. cbn.
  destruct (split "/" deviceKey) as [|d [|d' ds]]; reflexivity.
Qed.

Lemma second_segment_plain deviceKey :
  contains_char "/" deviceKey = false ->
  second_segment (keyEndToEndSessions deviceKey) = deviceKey.
Proof.
  intros H. rewrite second_segment_of_key.
  now rewrite split_without_separator.
Qed.

Lemma startsWith_append s p :
  startsWith s p = true -> s = p ++ slice_from (String.length p) s.
Proof.
  revert s. induction p as [|a p IH]; intros s; cbn; [reflexivity|].
  destruct s as [|b s]; [discriminate|].
  rewrite andb_true_iff. intros [Hab Hp].
  apply Ascii.eqb_eq in Hab. subst b. f_equal. now apply IH.
Qed.

Lemma sessions_key_device k :
  startsWith k (keyEndToEndSessions "") = true ->
  k = keyEndToEndSessions (device_of k).
Proof. intros H. apply startsWith_append in H. exact H. Qed.

(** At a key whose device key has no slash, the batch collects the
    sessions under that key. *)
Lemma batch_under_plain st k :
  plain_device_key k = true ->
  batch_under st k
  = if startsWith k (keyEndToEndSessions "")
    then alist_values (own (fix_sessions (decode st k)))
    else [].
Proof.
  unfold plain_device_key, batch_under. intros H.
  destruct (startsWith k (keyEndToEndSessions "")) eqn:E; [|reflexivity].
  cbn in H. apply negb_true_iff in H.
  rewrite (sessions_key_device k E) at 1.
  rewrite second_segment_plain by exact H.
  unfold sessions_of, session_object.
  now rewrite <- (sessions_key_device k E).
Qed.

Lemma session_object_without st key deviceKey :
  decode st key = JNull ->
  session_object (alist_remove st key) deviceKey = session_object st deviceKey.
Proof. intros H. unfold session_object. now rewrite decode_without. Qed.

Lemma sessions_of_without st key deviceKey :
  decode st key = JNull ->
  sessions_of (alist_remove st key) deviceKey = sessions_of st deviceKey.
Proof. intros H. unfold sessions_of. now rewrite session_object_without. Qed.

Lemma sessions_under_unreadable st key :
  decode st key = JNull -> sessions_under st key = 0.
Proof.
  intros H. unfold sessions_under. rewrite H.
  now destruct (startsWith key (keyEndToEndSessions "")).
Qed.

Lemma batch_under_unreadable st key :
  decode st key = JNull -> plain_device_key key = true ->
  batch_under st key = [].
Proof.
  intros H Hp. rewrite batch_under_plain by exact Hp. rewrite H.
  now destruct (startsWith key (keyEndToEndSessions "")).
Qed.

(** *** Old sessions, read *)


Lemma alist_get_In_keys {V} (l : list (string * V)) k v :
  alist_get l k = Some v -> In k (alist_keys l).
Proof.
  intros H. apply alist_get_In in H. unfold alist_keys.
  now apply (in_map fst) in H.
Qed.



Lemma In_firstn {X} n (l : list X) x : In x (firstn n l) -> In x l.
Proof.
  intros H. rewrite <- (firstn_skipn n l). apply in_or_app. now left.
Qed.


Lemma getEndToEndSessionsBatch_first w :
  fst (getEndToEndSessionsBatch w)
  = Return match flat_map (batch_under (storage w)) (alist_keys (storage w))
           with
           | [] => None
           | _ => Some (firstn (Nat.max 1 SESSION_BATCH_SIZE)
                          (flat_map (batch_under (storage w))
                             (alist_keys (storage w))))
           end.
Proof.
  rewrite (reads_fst _ _ _ reads_getEndToEndSessionsBatch).
  now rewrite batch_result_push.
Qed.

(** *** The batch of Olm sessions, where no device key has a slash *)

Lemma Object_entries_defaults v :
  Object_entries (or_empty_object v) = Object_entries (nullish_or v (JObj [])).
Proof.
  unfold or_empty_object.
  destruct v as [|[|]|n|s| |]; cbn [truthy nullish_or]; try reflexivity.
  - destruct (Z.eqb n 0); reflexivity.
  - destruct s; reflexivity.
Qed.

Lemma length_without_name (l : list (string * json)) k :
  NoDup (alist_keys l) ->
  List.length l
  = List.length (filter (fun e => negb (String.eqb (fst e) k)) l)
    + (if alist_has l k then 1 else 0).
Proof.
  unfold alist_has.
  induction l as [|[k0 v0] l IH]; cbn [alist_keys map fst]; intros Hn;
    [reflexivity|].
  inversion Hn as [|? ? Hk Hl]; subst. specialize (IH Hl).
  cbn [filter fst alist_get List.length].
  destruct (String.eqb k0 k) eqn:E; cbn [negb List.length].
  - apply String.eqb_eq in E. subst k0.
    apply alist_get_None in Hk. rewrite Hk in IH. lia.
  - lia.
Qed.

(** What [countEndToEndSessions] adds for a key: the sessions that
    [_getEndToEndSessions] has for it, and one for an entry named
    [__proto__]. *)
Lemma sessions_under_own st k :
  sessions_under st k
  = if startsWith k (keyEndToEndSessions "")
    then List.length (own (fix_sessions (decode st k)))
         + (if has_proto_entry st k then 1 else 0)
    else 0.
Proof.
  unfold sessions_under, has_proto_entry.
  destruct (startsWith k (keyEndToEndSessions "")); [|reflexivity].
  rewrite length_fix_sessions by apply decode_wf.
  unfold Object_keys, alist_keys. rewrite length_map.
  rewrite <- Object_entries_defaults.
  apply length_without_name.
  apply Object_entries_NoDup, or_empty_object_wf, decode_wf.
Qed.

Lemma list_sum_zero (f : string -> nat) keys :
  list_sum (map f keys) = 0 <-> forall k, In k keys -> f k = 0.
Proof.
  unfold list_sum. induction keys as [|k keys IH]; cbn.
  - split; [intros _ k []|reflexivity].
  - split.
    + intros H k' [<-|Hin]; [lia|]. apply IH; [lia|exact Hin].
    + intros H. rewrite (H k) by now left.
      apply IH. intros k' Hin. apply H. now right.
Qed.

Lemma flat_map_nil {X} (f : string -> list X) keys :
  flat_map f keys = [] <-> forall k, In k keys -> f k = [].
Proof.
  induction keys as [|k keys IH]; cbn.
  - split; [intros _ k []|reflexivity].
  - split.
    + intros H. apply app_eq_nil in H as [H1 H2].
      intros k' [<-|Hin]; [exact H1|]. now apply IH.
    + intros H. rewrite (H k) by now left.
      apply IH. intros k' Hin. apply H. now right.
Qed.

Lemma flat_map_agree {X} (f g : string -> list X) keys :
  (forall k, In k keys -> f k = g k) -> flat_map f keys = flat_map g keys.
Proof.
  induction keys as [|k keys IH]; cbn; [reflexivity|].
  intros H. rewrite (H k) by now left.
  f_equal. apply IH. intros k' Hin. apply H. now right.
Qed.

(** Where no device key has a slash, [getEndToEndSessionsBatch] does what
    it is meant to do: it returns [null] exactly when no device has a
    session for it, and otherwise the first [SESSION_BATCH_SIZE] sessions
    in the order of the keys.  It returns [null] when
    [countEndToEndSessions] is zero, and only then where no mapping
    stored has an entry named [__proto__], which the count counts and the
    batch does not have. *)
Lemma getEndToEndSessionsBatch_plain_keys (w : World) :
  0 < SESSION_BATCH_SIZE ->
  (forall k, In k (alist_keys (storage w)) -> plain_device_key k = true) ->
  (fst (getEndToEndSessionsBatch w) = Return None
   <-> all_sessions (storage w) = [])
  /\ (fst (countEndToEndSessions w) = Return 0 ->
      fst (getEndToEndSessionsBatch w) = Return None)
  /\ ((forall k, In k (alist_keys (storage w)) ->
                 has_proto_entry (storage w) k = false) ->
      fst (getEndToEndSessionsBatch w) = Return None ->
      fst (countEndToEndSessions w) = Return 0)
  /\ (forall batch,
        fst (getEndToEndSessionsBatch w) = Return (Some batch) ->
        batch <> []
        /\ List.length batch <= SESSION_BATCH_SIZE
        /\ batch = firstn SESSION_BATCH_SIZE (all_sessions (storage w))).
Proof.
  intros Hpos Hplain.
  assert (Hall : flat_map (batch_under (storage w)) (alist_keys (storage w))
                 = all_sessions (storage w)).
  { unfold all_sessions. apply flat_map_agree. intros k Hk.
    now apply batch_under_plain, Hplain. }
  rewrite getEndToEndSessionsBatch_first, Hall.
  rewrite (reads_fst _ _ _ reads_countEndToEndSessions).
  replace (Nat.max 1 SESSION_BATCH_SIZE) with SESSION_BATCH_SIZE by lia.
  assert (Hnone : forall keys,
            flat_map
              (fun k =>
                 if startsWith k (keyEndToEndSessions "")
                 then alist_values (own (fix_sessions (decode (storage w) k)))
                 else []) keys = []
            <-> forall k, In k keys ->
                  startsWith k (keyEndToEndSessions "") = true ->
                  own (fix_sessions (decode (storage w) k)) = []).
  { intros keys. rewrite flat_map_nil. split; intros H k Hin.
    - intros Hk. specialize (H k Hin). rewrite Hk in H.
      now apply map_eq_nil in H.
    - destruct (startsWith k (keyEndToEndSessions "")) eqn:Hk;
        [|reflexivity]. now rewrite (H k Hin Hk). }
  split; [|split; [|split]].
  - destruct (all_sessions (storage w)) eqn:E.
    + split; reflexivity.
    + split; [discriminate|]. intros H. discriminate H.
  - intros H. apply Return_inj in H.
    pose proof (proj1 (list_sum_zero _ _) H) as H0. clear H.
    rename H0 into H.
    assert (Hnil : all_sessions (storage w) = []).
    { apply Hnone. intros k Hin Hk. specialize (H k Hin).
      rewrite sessions_under_own, Hk in H.
      destruct (own (fix_sessions (decode (storage w) k)));
        [reflexivity|cbn in H; lia]. }
    now rewrite Hnil.
  - intros Hfree H. f_equal. apply list_sum_zero. intros k Hin.
    rewrite sessions_under_own, (Hfree k Hin).
    destruct (startsWith k (keyEndToEndSessions "")) eqn:Hk; [|reflexivity].
    destruct (all_sessions (storage w)) eqn:E; [|discriminate H].
    now rewrite (proj1 (Hnone _) E k Hin Hk).
  - intros batch Hb.
    destruct (all_sessions (storage w)) as [|x xs] eqn:E; [discriminate|].
    injection Hb as <-. split; [|split; [|reflexivity]].
    + destruct SESSION_BATCH_SIZE; [lia|discriminate].
    + apply firstn_le_length.
Qed.

(** *** Has the store been used? *)

Lemma reads_exists_from indices :
  reads (exists_from indices)
    (fun st =>
       Return (existsb (fun i => key_startsWith (key_at st i) E2E_PREFIX)
                 indices)).
Proof.
  induction indices as [|i indices IH]; cbn [exists_from existsb].
  - apply reads_ret.
  - eapply (reads_bind_as _ _ _
              (fun key st =>
                 Return (key_startsWith key E2E_PREFIX
                         || existsb
                              (fun i => key_startsWith (key_at st i) E2E_PREFIX)
                              indices)));
      [apply reads_store_key | | reflexivity].
    intros key. destruct (key_startsWith key E2E_PREFIX).
    + eapply reads_ext; [apply (reads_ret true)|reflexivity].
    + exact IH.
Qed.

Lemma existsb_indices {X} (g : option X -> bool) (pre l : list X) :
  existsb (fun i => g (nth_error (pre ++ l) i))
    (seq (List.length pre) (List.length l))
  = existsb (fun x => g (Some x)) l.
Proof.
  revert pre. induction l as [|x l IH]; intros pre; cbn [List.length seq existsb].
  - reflexivity.
  - rewrite nth_error_app2 by lia. rewrite Nat.sub_diag. cbn [nth_error].
    f_equal.
    replace (pre ++ x :: l)%list with ((pre ++ [x]) ++ l)%list
      by now rewrite <- app_assoc.
    replace (S (List.length pre)) with (List.length (pre ++ [x])%list)
      by (rewrite length_app; cbn; lia).
    apply IH.
Qed.

Lemma existsb_keys (p : string) (st : Storage) :
  existsb (fun x => key_startsWith (option_map fst (Some x)) p) st
  = existsb (fun k => startsWith k p) (alist_keys st).
Proof.
  unfold alist_keys.
  induction st as [|[k v] st IH]; cbn [existsb map]; [reflexivity|].
  rewrite IH. reflexivity.
Qed.

Lemma reads_containsData :
  reads containsData
    (fun st =>
       Return (existsb (fun k => startsWith k E2E_PREFIX) (alist_keys st))).
Proof.
  unfold containsData, exists_.
  eapply (reads_bind_as _ _ _
            (fun n st =>
               Return (existsb
                         (fun i => key_startsWith (key_at st i) E2E_PREFIX)
                         (seq 0 n))));
    [apply reads_store_length | intros n; apply reads_exists_from | ].
  intros st. cbn beta. unfold key_at.
  rewrite <- existsb_keys. symmetry. f_equal.
  apply (existsb_indices
           (fun o => key_startsWith (option_map fst o) E2E_PREFIX) [] st).
Qed.

(** [containsData] is true exactly when some key of the storage starts
    with [crypto.]: false on an empty storage, true after any write of a key
    under the prefix; it leaves the storage as it is. *)
Theorem containsData_iff_prefixed_key (w : World) :
  fst (containsData w)
  = Return (existsb (fun k => startsWith k E2E_PREFIX) (alist_keys (storage w)))
  /\ storage (snd (containsData w)) = storage w
  /\ fst (containsData (mkWorld [] (logs w))) = Return false
  /\ (forall key text,
        startsWith key E2E_PREFIX = true ->
        fst (containsData (snd (setItem key text w))) = Return true).
Proof.
  split; [apply (reads_fst _ _ _ reads_containsData)|].
  split; [apply (keeps_reads _ _ reads_containsData)|].
  split; [now rewrite (reads_fst _ _ _ reads_containsData)|].
  intros key text Hkey. rewrite (reads_fst _ _ _ reads_containsData).
  f_equal. apply existsb_exists. exists key. split; [|exact Hkey].
  cbn [setItem snd storage]. apply In_keys_after_set.
Qed.

(** *** A session stored is the session read *)

(** What [_getEndToEndSessions] builds from the text that
    [storeEndToEndSession] has written. *)
Lemma session_object_store st deviceKey sessionId sessionInfo deviceKey' :
  json_wf sessionInfo = true ->
  session_object (store_session st deviceKey sessionId sessionInfo) deviceKey'
  = if String.eqb deviceKey deviceKey'
    then fix_sessions
           (JObj (own (js_put (session_object st deviceKey) sessionId
                         sessionInfo)))
    else session_object st deviceKey'.
Proof.
  intros Hwf. unfold store_session, session_object at 1.
  rewrite decode_set, keyEndToEndSessions_eqb.
  destruct (String.eqb deviceKey deviceKey'); [|reflexivity].
  now rewrite JSON_parse_stringify by now apply stored_sessions_wf.
Qed.

(** After [storeEndToEndSession] with a session object, under a session id
    other than [__proto__], [getEndToEndSession] for the same device and
    session id returns that object.  Under the session id [__proto__], for
    a device that has no key, the session is not stored, and
    [getEndToEndSession] returns [Object.prototype]. *)
Theorem storeEndToEndSession_then_getEndToEndSession
    (w : World) (deviceKey sid : string) (props : list (string * json)) :
  json_wf (JObj props) = true ->
  sid <> "__proto__" ->
  fst (getEndToEndSession deviceKey sid
         (snd (storeEndToEndSession deviceKey sid (JObj props) w)))
  = Return (JObj props)
  /\ (alist_get (storage w) (keyEndToEndSessions deviceKey) = None ->
      fst (getEndToEndSession deviceKey "__proto__"
             (snd (storeEndToEndSession deviceKey "__proto__" (JObj props) w)))
      = Return ObjectPrototype).
Proof.
  intros Hwf Hsid. split.
  - destruct (writes_storeEndToEndSession deviceKey sid (JObj props) w)
      as [l ->].
    rewrite (reads_fst _ _ _ (reads_getEndToEndSession deviceKey sid)).
    cbn [snd storage].
    rewrite session_object_store, String.eqb_refl by exact Hwf.
    unfold js_get.
    rewrite fix_sessions_get by now apply stored_sessions_wf.
    apply String.eqb_neq in Hsid. rewrite Hsid.
    cbn [or_empty_object truthy Object_entries].
    rewrite stored_sessions_get, String.eqb_refl by exact Hsid.
    reflexivity.
  - intros Habs.
    destruct (writes_storeEndToEndSession deviceKey "__proto__" (JObj props) w)
      as [l ->].
    rewrite (reads_fst _ _ _ (reads_getEndToEndSession deviceKey "__proto__")).
    cbn [snd storage].
    rewrite session_object_store, String.eqb_refl by exact Hwf.
    unfold session_object, decode. rewrite Habs. reflexivity.
Qed.

(** *** Every method writes the keys of its own records *)

Lemma changed_get keys st st' k :
  changed keys st st' -> ~ In k keys -> alist_get st' k = alist_get st k.
Proof.
  intros H Hk. induction H as [|st' k' text Hin _ IH|st' k' Hin _ IH].
  - reflexivity.
  - rewrite alist_get_set.
    destruct (String.eqb k' k) eqn:E; [|exact IH].
    apply String.eqb_eq in E. subst k'. contradiction.
  - rewrite alist_get_remove.
    destruct (String.eqb k' k) eqn:E; [|exact IH].
    apply String.eqb_eq in E. subst k'. contradiction.
Qed.

Lemma filter_without (p : string -> bool) k keys :
  p k = false ->
  filter p (filter (fun k' => negb (String.eqb k' k)) keys) = filter p keys.
Proof.
  intros Hp. induction keys as [|k' keys IH]; [reflexivity|].
  cbn [filter]. destruct (String.eqb k' k) eqn:E; cbn [negb filter].
  - apply String.eqb_eq in E. subst k'. now rewrite Hp.
  - now rewrite IH.
Qed.

Lemma changed_filter keys st st' (p : string -> bool) :
  changed keys st st' -> (forall k, In k keys -> p k = false) ->
  filter p (alist_keys st') = filter p (alist_keys st).
Proof.
  intros H Hp. induction H as [|st' k' text Hin _ IH|st' k' Hin _ IH].
  - reflexivity.
  - rewrite alist_keys_set.
    destruct (existsb (String.eqb k') (alist_keys st')); [exact IH|].
    rewrite filter_app. cbn [filter]. rewrite (Hp k' Hin).
    now rewrite app_nil_r.
  - rewrite alist_keys_remove, filter_without by now apply Hp.
    exact IH.
Qed.

Lemma changed_nil st st' : changed [] st st' -> st' = st.
Proof. intros H. induction H as [|? ? ? []|? ? []]. reflexivity. Qed.

Lemma changed_keeps {A} (m : M A) keys w :
  keeps m -> changed keys (storage w) (storage (snd (m w))).
Proof. intros H. rewrite H. constructor. Qed.

Lemma changed_fold {X} keys (f : Storage -> X -> Storage) (xs : list X) :
  (forall st0 st x,
     In x xs -> changed keys st0 st -> changed keys st0 (f st x)) ->
  forall st0 st, changed keys st0 st -> changed keys st0 (fold_left f xs st).
Proof.
  induction xs as [|x xs IH]; intros Hf st0 st H; [exact H|].
  cbn [fold_left]. apply IH.
  - intros st1 st2 y Hy. apply Hf. now right.
  - apply Hf; [now left|exact H].
Qed.

Lemma writes_deleteEndToEndInboundGroupSessionsBatch sessions :
  writes (deleteEndToEndInboundGroupSessionsBatch sessions)
    (fun st =>
       fold_left
         (fun st s =>
            alist_remove st (keyEndToEndInboundGroupSession (fst s) (snd s)))
         sessions st).
Proof.
  unfold deleteEndToEndInboundGroupSessionsBatch. apply writes_for_of.
  intros [k s] w. exists []. unfold removeItem. cbn [fst snd].
  now rewrite app_nil_r.
Qed.

(** The storage after a call is the storage before it with keys of the
    call's own records written or removed. *)
Lemma exec_changed c w :
  changed (touched c) (storage w) (storage (snd (exec c w))).
Proof.
  destruct c; cbn [exec touched].
  - apply changed_keeps, keeps_effect, keeps_exists_.
  - apply changed_keeps, keeps_effect,
      (keeps_reads _ _ reads_getMigrationState).
  - apply changed_set; [now left|constructor].
  - apply changed_keeps, keeps_effect,
      (keeps_reads _ _ reads_countEndToEndSessions).
  - apply changed_keeps, keeps_effect,
      (keeps_reads _ _ (reads_getEndToEndSession _ _)).
  - apply changed_keeps, keeps_effect,
      (keeps_reads _ _ (reads_getEndToEndSessions _)).
  - match goal with
    | |- context [storeEndToEndSession ?d ?s ?i w] =>
        destruct (writes_storeEndToEndSession d s i w) as [l ->]
    end.
    cbn [snd storage]. unfold store_session.
    apply changed_set; [now left|constructor].
  - apply changed_keeps, keeps_effect,
      (keeps_reads _ _ reads_getEndToEndSessionsBatch).
  - destruct (writes_deleteEndToEndSessionsBatch sessions w) as [l ->].
    cbn [snd storage]. apply changed_fold; [|constructor].
    intros st0 st x Hx H. unfold delete_session.
    assert (Hin : In (keyEndToEndSessions (fst x))
                    (map (fun s => keyEndToEndSessions (fst s)) sessions))
      by (apply in_map_iff; now exists x).
    destruct (Nat.eqb _ 0); [now apply changed_remove|now apply changed_set].
  - apply changed_keeps, keeps_effect, keeps_getEndToEndInboundGroupSession.
  - apply changed_set; [now left|constructor].
  - apply changed_keeps, keeps_effect, keeps_countEndToEndInboundGroupSessions.
  - apply changed_keeps, keeps_effect,
      keeps_getEndToEndInboundGroupSessionsBatch.
  - destruct (writes_deleteEndToEndInboundGroupSessionsBatch sessions w)
      as [l ->].
    cbn [snd storage]. apply changed_fold; [|constructor].
    intros st0 st x Hx H. apply changed_remove; [|exact H].
    apply in_map_iff. now exists x.
  - apply changed_keeps, keeps_effect, keeps_getEndToEndRooms.
  - destruct (markSessionsNeedingBackup_run sessions w) as [l ->].
    destruct (mark_all sessions _); cbn [snd storage]; [|constructor].
    apply changed_set; [now left|constructor].
  - apply changed_remove; [now left|constructor].
  - apply changed_keeps, keeps_effect, keeps_getJsonItem.
  - apply changed_set; [now left|constructor].
  - apply changed_keeps, keeps_effect, keeps_getJsonItem.
  - apply changed_keeps, keeps_effect, keeps_getJsonItem.
  - apply changed_set; [now left|constructor].
Qed.

(** Every method writes and removes the keys of its own records only: the
    text of every other key stays, the other keys keep their order, and a
    method that has no key to write, a getter, a counter or a batch reader,
    leaves the storage as it is, whether it returns or raises. *)
Theorem exec_changes_only_touched (c : Call) (w : World) :
  let st := storage w in
  let st' := storage (snd (exec c w)) in
  (forall k, ~ In k (touched c) -> alist_get st' k = alist_get st k)
  /\ (forall p : string -> bool,
        (forall k, In k (touched c) -> p k = false) ->
        filter p (alist_keys st') = filter p (alist_keys st))
  /\ (touched c = [] -> st' = st).
Proof.
  cbv zeta. pose proof (exec_changed c w) as H. repeat split.
  - intros k Hk. now apply (changed_get _ _ _ _ H).
  - intros p Hp. now apply (changed_filter _ _ _ _ H).
  - intros E. rewrite E in H. now apply changed_nil.
Qed.

(** *** When a method raises *)

Lemma effect_returns {A} (m : M A) w :
  returns m -> fst (effect m w) = Return tt.
Proof.
  intros H. unfold effect, bind. destruct (H w) as [a Ha].
  destruct (m w) as [[a'|e] w']; cbn in *; [reflexivity|discriminate].
Qed.

Lemma scan_keys_inbound_primitive st keys result :
  index_ok st = false ->
  scan_keys
    (inbound_round (or_empty_object (decode st KEY_SESSIONS_NEEDING_BACKUP)) st)
    keys result
  = if existsb is_inbound_key keys then Throw TypeError
    else Return (Next result).
Proof.
  intros Hok. induction keys as [|k keys IH]; cbn [scan_keys existsb].
  - reflexivity.
  - unfold inbound_round at 1, is_inbound_key at 1.
    destruct (startsWith k KEY_INBOUND_SESSION_PREFIX); cbn [orb];
      [|exact IH].
    cbv zeta. unfold index_ok in Hok.
    destruct (or_empty_object (decode st KEY_SESSIONS_NEEDING_BACKUP));
      try discriminate; reflexivity.
Qed.

Lemma mark_all_primitive s sessions index :
  match index with JObj _ | JArr _ => false | _ => true end = true ->
  mark_all (s :: sessions) index = Throw TypeError.
Proof. destruct index; cbn; intros H; try discriminate; reflexivity. Qed.

Lemma mark_all_returns sessions index :
  match index with JObj _ | JArr _ => true | _ => false end = true ->
  exists index', mark_all sessions index = Return index'.
Proof.
  revert index. induction sessions as [|s sessions IH]; intros index H.
  - now exists index.
  - destruct index; try discriminate; cbn [mark_all]; now apply IH.
Qed.

(** No method raises, but for the two that apply an operator to the index
    of sessions needing backup: with an index that is a primitive value,
    the batch of inbound group sessions raises a type error at the first
    inbound group session, and marking raises it at the first session to
    mark.  A method that raises has written nothing. *)
Theorem exec_raises_only_on_primitive_index (c : Call) (w : World) :
  fst (exec c w)
  = (if raises c (storage w) then Throw TypeError else Return tt)
  /\ (raises c (storage w) = true -> storage (snd (exec c w)) = storage w).
Proof.
  destruct c; cbn [exec raises];
    try (split; [|discriminate]).
  - apply effect_returns, returns_exists_.
  - apply effect_returns, (returns_reads _ _ reads_getMigrationState).
  - reflexivity.
  - apply effect_returns, (returns_reads _ _ reads_countEndToEndSessions).
  - apply effect_returns, (returns_reads _ _ (reads_getEndToEndSession _ _)).
  - apply effect_returns, (returns_reads _ _ (reads_getEndToEndSessions _)).
  - match goal with
    | |- context [storeEndToEndSession ?d ?s ?i w] =>
        now destruct (writes_storeEndToEndSession d s i w) as [l ->]
    end.
  - apply effect_returns, (returns_reads _ _ reads_getEndToEndSessionsBatch).
  - now destruct (writes_deleteEndToEndSessionsBatch sessions w) as [l ->].
  - apply effect_returns,
      (returns_reads _ _ (reads_getEndToEndInboundGroupSession _ _)).
  - reflexivity.
  - apply effect_returns, returns_countEndToEndInboundGroupSessions.
  - unfold effect, bind.
    destruct (reads_getEndToEndInboundGroupSessionsBatch w) as [l ->].
    destruct (index_ok (storage w)) eqn:Hok; cbn [negb andb].
    + rewrite scan_keys_inbound by exact Hok. split; [reflexivity|discriminate].
    + rewrite scan_keys_inbound_primitive by exact Hok.
      destruct (existsb is_inbound_key (alist_keys (storage w)));
        split; try reflexivity; discriminate.
  - now destruct (writes_deleteEndToEndInboundGroupSessionsBatch sessions w)
      as [l ->].
  - apply effect_returns, returns_getEndToEndRooms.
  - destruct (markSessionsNeedingBackup_run sessions w) as [l ->].
    unfold index_ok.
    destruct sessions as [|s sessions].
    + cbn [mark_all]. split; [reflexivity|discriminate].
    + destruct (or_empty_object
                  (decode (storage w) KEY_SESSIONS_NEEDING_BACKUP)) eqn:E;
        cbn [negb];
        try (rewrite mark_all_primitive by reflexivity;
             split; reflexivity).
      * destruct (mark_all_returns (s :: sessions) (JArr items) eq_refl)
          as [index' ->].
        split; [reflexivity|discriminate].
      * destruct (mark_all_returns (s :: sessions) (JObj props) eq_refl)
          as [index' ->].
        split; [reflexivity|discriminate].
  - reflexivity.
  - apply effect_returns, returns_getJsonItem.
  - reflexivity.
  - apply effect_returns, returns_getJsonItem.
  - apply effect_returns, returns_getJsonItem.
  - reflexivity.
Qed.

(** *** Rooms *)

Lemma scan_keys_rooms st keys result :
  scan_keys (R := object)
    (fun key r =>
       Return (Next match key with
                    | Some k =>
                        if is_room_key k
                        then js_put r (room_of k) (decode st k)
                        else r
                    | None => r
                    end)) keys result
  = Return (Next (fold_left
                    (fun r k => js_put r (room_of k) (decode st k))
                    (filter is_room_key keys) result)).
Proof.
  revert result. induction keys as [|k keys IH]; intros result.
  - reflexivity.
  - cbn [scan_keys filter]. rewrite IH.
    now destruct (is_room_key k).
Qed.

Lemma reads_getEndToEndRooms :
  reads getEndToEndRooms (fun st => Return (as_value (rooms_of st))).
Proof.
  unfold getEndToEndRooms.
  eapply (reads_bind_as _ _ _ (fun s _ => Return (as_value (fall_through s)))).
  - apply (for_keys_reads _
             (fun st key r =>
                Return (Next match key with
                             | Some k =>
                                 if is_room_key k
                                 then js_put r (room_of k) (decode st k)
                                 else r
                             | None => r
                             end))).
    intros i result.
    eapply (reads_bind_as _ _ _
              (fun key st =>
                 Return (Next match key with
                              | Some k =>
                                  if is_room_key k
                                  then js_put result (room_of k)
                                         (decode st k)
                                  else result
                              | None => result
                              end)));
      [apply reads_store_key | | reflexivity].
    intros [k|]; [|apply reads_ret].
    unfold is_room_key, room_of.
    destruct (startsWith k (keyEndToEndRoomsPrefix "")); [|apply reads_ret].
    eapply (reads_bind_as _ _ _
              (fun room _ =>
                 Return (Next (js_put result
                   (slice_from (String.length (keyEndToEndRoomsPrefix "")) k)
                   room))));
      [apply reads_getJsonItem | intros v; apply reads_ret | reflexivity].
  - intros s. apply reads_ret.
  - intros st. cbn beta. now rewrite scan_keys_rooms.
Qed.

Lemma fold_left_agree {X Y} (f g : Y -> X -> Y) (xs : list X) (acc : Y) :
  (forall x a, In x xs -> f a x = g a x) ->
  fold_left f xs acc = fold_left g xs acc.
Proof.
  revert acc. induction xs as [|x xs IH]; intros acc H; [reflexivity|].
  cbn [fold_left]. rewrite (H x acc) by now left.
  apply IH. intros y a Hy. apply H. now right.
Qed.

Lemma decode_agree st st' k :
  alist_get st' k = alist_get st k -> decode st' k = decode st k.
Proof. unfold decode. now intros ->. Qed.

(** *** Records that no method writes *)

Lemma touched_own_records c k :
  In k (touched c) ->
  is_room_key k = false
  /\ startsWith k KEY_INBOUND_SESSION_WITHHELD_PREFIX = false
  /\ String.eqb k KEY_CROSS_SIGNING_KEYS = false.
Proof.
  destruct c; cbn [touched In]; intros Hin;
    first
      [ contradiction
      | destruct Hin as [<-|[]]; repeat split; reflexivity
      | apply in_map_iff in Hin as [x [<- _]]; repeat split; reflexivity ].
Qed.

Lemma exec_keeps_unwritten c w k :
  k = KEY_CROSS_SIGNING_KEYS
  \/ startsWith k (keyEndToEndRoomsPrefix "") = true
  \/ startsWith k KEY_INBOUND_SESSION_WITHHELD_PREFIX = true ->
  alist_get (storage (snd (exec c w))) k = alist_get (storage w) k.
Proof.
  intros Hk. apply (changed_get _ _ _ _ (exec_changed c w)). intros Hin.
  apply touched_own_records in Hin as (Hr & Hw & Hc).
  destruct Hk as [->|[Hk|Hk]].
  - discriminate Hc.
  - unfold is_room_key in Hr. congruence.
  - congruence.
Qed.

(** The store reads three kinds of record that none of its methods
    writes: the cross-signing keys, the rooms, and the withheld records of
    inbound group sessions.  Whatever call is made, with whatever
    arguments, the keys of these records keep their text, and
    [getCrossSigningKeys], [getEndToEndRooms] and the second value of
    [getEndToEndInboundGroupSession] are what they were before the call. *)
Theorem exec_never_writes_cross_signing_rooms_withheld (c : Call) (w : World) :
  let w' := snd (exec c w) in
  (forall k,
     k = KEY_CROSS_SIGNING_KEYS
     \/ startsWith k (keyEndToEndRoomsPrefix "") = true
     \/ startsWith k KEY_INBOUND_SESSION_WITHHELD_PREFIX = true ->
     alist_get (storage w') k = alist_get (storage w) k)
  /\ fst (getCrossSigningKeys w') = fst (getCrossSigningKeys w)
  /\ fst (getEndToEndRooms w') = fst (getEndToEndRooms w)
  /\ (forall senderKey sessionId session withheld,
        fst (getEndToEndInboundGroupSession senderKey sessionId w)
        = Return (session, withheld) ->
        exists session',
          fst (getEndToEndInboundGroupSession senderKey sessionId w')
          = Return (session', withheld)).
Proof.
  cbv zeta. pose proof (exec_changed c w) as H.
  pose proof (exec_keeps_unwritten c w) as Hget.
  split; [exact Hget|]. split; [|split].
  - unfold getCrossSigningKeys.
    rewrite !(reads_fst _ _ _ (reads_getJsonItem _)).
    f_equal. apply decode_agree, Hget. now left.
  - rewrite !(reads_fst _ _ _ reads_getEndToEndRooms).
    do 2 f_equal. unfold rooms_of.
    rewrite (changed_filter _ _ _ is_room_key H)
      by (intros k Hk; now apply touched_own_records in Hk).
    apply fold_left_agree. intros k acc Hk. f_equal.
    apply decode_agree, Hget. right; left.
    apply filter_In in Hk. apply Hk.
  - intros k s session withheld.
    rewrite !(reads_fst _ _ _ (reads_getEndToEndInboundGroupSession _ _)).
    intros E. injection E as _ <-.
    eexists. do 2 f_equal. apply decode_agree, Hget. right; right.
    reflexivity.
Qed.

(** *** The rooms read *)

Lemma startsWith_prefix p s : startsWith (p ++ s) p = true.
Proof.
  induction p as [|c p IH]; [reflexivity|].
  cbn. now rewrite Ascii.eqb_refl, IH.
Qed.

Lemma append_eqb p a b : String.eqb (p ++ a) (p ++ b) = String.eqb a b.
Proof.
  induction p as [|c p IH]; [reflexivity|].
  cbn. now rewrite Ascii.eqb_refl.
Qed.

Lemma existsb_filter_eqb (p : string -> bool) k keys :
  p k = true ->
  existsb (String.eqb k) (filter p keys) = existsb (String.eqb k) keys.
Proof.
  intros Hp. induction keys as [|k' keys IH]; [reflexivity|].
  cbn [filter existsb]. destruct (String.eqb k k') eqn:E.
  - apply String.eqb_eq in E. subst k'. rewrite Hp. cbn.
    now rewrite String.eqb_refl.
  - destruct (p k'); cbn [existsb orb]; [rewrite E|]; exact IH.
Qed.

Lemma room_key_of k :
  is_room_key k = true -> k = keyEndToEndRoomsPrefix (room_of k).
Proof. intros H. apply startsWith_append in H. exact H. Qed.

Lemma room_key_eqb k roomId :
  is_room_key k = true ->
  String.eqb (keyEndToEndRoomsPrefix roomId) k = String.eqb (room_of k) roomId.
Proof.
  intros H. pose proof (room_key_of k H) as Hk.
  generalize dependent (room_of k). intros r ->.
  unfold keyEndToEndRoomsPrefix. rewrite append_eqb. apply String.eqb_sym.
Qed.

Lemma rooms_fold_get st ks acc roomId :
  (forall k, In k ks -> is_room_key k = true) ->
  String.eqb roomId "__proto__" = false ->
  alist_get
    (own (fold_left (fun r k => js_put r (room_of k) (decode st k)) ks acc))
    roomId
  = if existsb (String.eqb (keyEndToEndRoomsPrefix roomId)) ks
    then Some (decode st (keyEndToEndRoomsPrefix roomId))
    else alist_get (own acc) roomId.
Proof.
  intros Hks Hp. revert acc Hks.
  induction ks as [|k ks IH]; intros acc Hks; [reflexivity|].
  cbn [fold_left existsb]. rewrite IH by (intros k' Hk'; apply Hks; now right).
  destruct (existsb (String.eqb (keyEndToEndRoomsPrefix roomId)) ks);
    [now rewrite orb_true_r|].
  rewrite orb_false_r, alist_get_js_put by exact Hp.
  rewrite room_key_eqb by (apply Hks; now left).
  destruct (String.eqb (room_of k) roomId) eqn:E; [|reflexivity].
  apply String.eqb_eq in E. subst roomId.
  now rewrite <- (room_key_of k (Hks k (or_introl eq_refl))).
Qed.

(** The loop of [getEndToEndRooms] is a run of assignments. *)
Lemma rooms_of_put_all st :
  rooms_of st
  = put_all (map (fun k => (room_of k, decode st k))
               (filter is_room_key (alist_keys st))) empty_object.
Proof.
  unfold rooms_of, put_all. generalize empty_object.
  induction (filter is_room_key (alist_keys st)) as [|k ks IH]; intros o;
    [reflexivity|].
  cbn [fold_left map fst snd]. now rewrite IH.
Qed.

Lemma room_entries_keys st ks :
  alist_keys (map (fun k => (room_of k, decode st k)) ks) = map room_of ks.
Proof. unfold alist_keys. rewrite map_map. reflexivity. Qed.

Lemma room_entries_get st ks roomId :
  (forall k, In k ks -> is_room_key k = true) ->
  alist_get (map (fun k => (room_of k, decode st k)) ks) roomId
  = if existsb (String.eqb (keyEndToEndRoomsPrefix roomId)) ks
    then Some (decode st (keyEndToEndRoomsPrefix roomId))
    else None.
Proof.
  intros Hks. induction ks as [|k ks IH]; [reflexivity|].
  cbn [map alist_get existsb].
  rewrite room_key_eqb by (apply Hks; now left).
  destruct (String.eqb (room_of k) roomId) eqn:E; cbn [orb].
  - apply String.eqb_eq in E. subst roomId.
    now rewrite <- (room_key_of k (Hks k (or_introl eq_refl))).
  - apply IH. intros k' Hk'. apply Hks. now right.
Qed.

Lemma room_of_NoDup ks :
  (forall k, In k ks -> is_room_key k = true) ->
  NoDup ks -> NoDup (map room_of ks).
Proof.
  intros Hks Hn. apply NoDup_map_NoDup_ForallPairs; [|exact Hn].
  intros a b Ha Hb E.
  rewrite (room_key_of a (Hks a Ha)), (room_key_of b (Hks b Hb)).
  now rewrite E.
Qed.

Lemma filter_map_fst {X} (f : string -> string) (g : string -> X)
    (p : string -> bool) ks :
  alist_keys (filter (fun e => p (fst e)) (map (fun k => (f k, g k)) ks))
  = filter p (map f ks).
Proof.
  induction ks as [|k ks IH]; [reflexivity|].
  cbn [map filter fst]. destruct (p (f k)); cbn [alist_keys map fst];
    [f_equal|]; exact IH.
Qed.

(** [getEndToEndRooms] returns the rooms of the storage and nothing else.
    The object has a property for a room id other than [__proto__] exactly
    when the storage has the key of the room, the prefix and the room id;
    the property holds what the text of the key decodes to, and [null]
    when it does not decode; no room id occurs twice, and the properties
    are in the order of enumeration, array indices first.  In a storage
    whose keys are distinct, the names of the properties are the room ids
    of the keys but [__proto__], whose value goes to the setter of
    [Object.prototype] and becomes the prototype of the object when it is
    an object, an array or [null]; where no room id is an array index, the
    rooms come in the order of the keys.  The storage is not changed. *)
Theorem getEndToEndRooms_returns_stored_rooms (w : World) :
  exists rooms,
    fst (getEndToEndRooms w) = Return (as_value rooms)
    /\ storage (snd (getEndToEndRooms w)) = storage w
    /\ (forall roomId,
          roomId <> "__proto__" ->
          alist_get (own rooms) roomId
          = if alist_has (storage w) (keyEndToEndRoomsPrefix roomId)
            then Some (decode (storage w) (keyEndToEndRoomsPrefix roomId))
            else None)
    /\ NoDup (alist_keys (own rooms))
    /\ enumeration (alist_keys (own rooms))
    /\ (NoDup (alist_keys (storage w)) ->
        let roomIds :=
          map room_of (filter is_room_key (alist_keys (storage w))) in
        let named :=
          filter (fun r => negb (String.eqb r "__proto__")) roomIds in
        alist_get (own rooms) "__proto__" = None
        /\ proto rooms
           = (if alist_has (storage w) (keyEndToEndRoomsPrefix "__proto__")
              then set_prototype
                     (decode (storage w) (keyEndToEndRoomsPrefix "__proto__"))
                     Object_prototype
              else Object_prototype)
        /\ Permutation (alist_keys (own rooms)) named
        /\ (Forall (fun r => array_index r = None) roomIds ->
            alist_keys (own rooms) = named)).
Proof.
  exists (rooms_of (storage w)).
  assert (Hks : forall k,
             In k (filter is_room_key (alist_keys (storage w))) ->
             is_room_key k = true)
    by (intros k Hk; apply filter_In in Hk; apply Hk).
  split; [apply (reads_fst _ _ _ reads_getEndToEndRooms)|].
  split; [apply keeps_getEndToEndRooms|].
  split; [|split; [|split]].
  - intros roomId Hp. apply String.eqb_neq in Hp.
    unfold rooms_of. rewrite rooms_fold_get by assumption.
    rewrite existsb_filter_eqb by apply startsWith_prefix.
    now rewrite alist_has_keys.
  - rewrite rooms_of_put_all. apply put_all_NoDup. constructor.
  - rewrite rooms_of_put_all. now apply put_all_enumeration.
  - intros Hn roomIds named. subst roomIds named.
    rewrite rooms_of_put_all.
    assert (Hnd : NoDup
                    (alist_keys
                       (map (fun k => (room_of k, decode (storage w) k))
                          (filter is_room_key (alist_keys (storage w)))))).
    { rewrite room_entries_keys. apply room_of_NoDup; [exact Hks|].
      now apply NoDup_filter. }
    destruct (put_all_proto _ empty_object Hnd eq_refl (fun _ => eq_refl))
      as [Hown Hproto].
    split; [exact Hown|]. split; [|split].
    + rewrite Hproto, room_entries_get by exact Hks.
      rewrite existsb_filter_eqb by apply startsWith_prefix.
      rewrite alist_has_keys. cbn [proto empty_object].
      now destruct (existsb _ (alist_keys (storage w))).
    + rewrite <- room_entries_keys with (st := storage w).
      apply (put_all_keys _ empty_object Hnd);
        [intros k _ []|reflexivity|reflexivity].
    + intros Hi. rewrite put_all_plain; try assumption.
      * cbn [own empty_object app].
        apply (filter_map_fst room_of (decode (storage w))
                 (fun r => negb (String.eqb r "__proto__"))).
      * intros k _ [].
      * reflexivity.
      * reflexivity.
      * now rewrite room_entries_keys.
Qed.

(** *** Counting and listing inbound group sessions *)

Lemma scan_keys_inbound_count keys count :
  scan_keys (R := nat)
    (fun key c =>
       Return (Next (if key_startsWith key KEY_INBOUND_SESSION_PREFIX
                     then c + 1 else c))) keys count
  = Return (Next (count + List.length (filter is_inbound_key keys))).
Proof.
  revert count. induction keys as [|k keys IH]; intros count.
  - cbn. now rewrite Nat.add_0_r.
  - cbn [scan_keys filter key_startsWith]. rewrite IH.
    unfold is_inbound_key at 2.
    destruct (startsWith k KEY_INBOUND_SESSION_PREFIX); cbn [List.length];
      do 2 f_equal; lia.
Qed.

Lemma reads_countEndToEndInboundGroupSessions :
  reads countEndToEndInboundGroupSessions
    (fun st => Return (List.length (inbound_keys st))).
Proof.
  unfold countEndToEndInboundGroupSessions.
  eapply (reads_bind_as _ _ _ (fun s _ => Return (fall_through s))).
  - apply (for_keys_reads _
             (fun _ key c =>
                Return (Next (if key_startsWith key KEY_INBOUND_SESSION_PREFIX
                              then c + 1 else c)))).
    intros i count.
    eapply (reads_bind_as _ _ _
              (fun key _ =>
                 Return (Next (if key_startsWith key KEY_INBOUND_SESSION_PREFIX
                               then count + 1 else count))));
      [apply reads_store_key | | reflexivity].
    intros key.
    destruct (key_startsWith key KEY_INBOUND_SESSION_PREFIX); apply reads_ret.
  - intros s. apply reads_ret.
  - intros st. cbn beta. now rewrite scan_keys_inbound_count.
Qed.

Lemma inbound_sessions_keys st :
  inbound_sessions st = map (session_at st) (inbound_keys st).
Proof.
  unfold inbound_sessions, inbound_keys.
  induction (alist_keys st) as [|k keys IH]; [reflexivity|].
  cbn [flat_map filter]. unfold inbound_under at 1, is_inbound_key at 1.
  destruct (startsWith k KEY_INBOUND_SESSION_PREFIX); cbn; now rewrite IH.
Qed.

Lemma first_batch_some {X} (l : list X) n batch :
  match l with [] => None | _ => Some (firstn n l) end = Some batch ->
  batch = firstn n l.
Proof. destruct l; [discriminate|]. intros E. now injection E. Qed.

(** With an index of sessions needing backup that is not a primitive
    value, [getEndToEndInboundGroupSessionsBatch] returns [null] exactly
    when [countEndToEndInboundGroupSessions] returns 0.  Otherwise it
    returns the sessions of the first keys of inbound group sessions, in
    the order of the keys: as many as the batch size, or all of them when
    they are fewer; with a batch size of 0 it returns one.  The storage is
    not changed. *)
Theorem getEndToEndInboundGroupSessionsBatch_null_iff_count_zero (w : World) :
  index_ok (storage w) = true ->
  exists n,
    fst (countEndToEndInboundGroupSessions w) = Return n
    /\ (fst (getEndToEndInboundGroupSessionsBatch w) = Return None <-> n = 0)
    /\ (forall batch,
          fst (getEndToEndInboundGroupSessionsBatch w) = Return (Some batch) ->
          List.length batch = Nat.min n (Nat.max 1 SESSION_BATCH_SIZE)
          /\ (0 < SESSION_BATCH_SIZE -> List.length batch <= SESSION_BATCH_SIZE)
          /\ batch
             = map (session_at (storage w))
                 (firstn (Nat.max 1 SESSION_BATCH_SIZE)
                    (inbound_keys (storage w))))
    /\ storage (snd (getEndToEndInboundGroupSessionsBatch w)) = storage w.
Proof.
  intros Hok. exists (List.length (inbound_keys (storage w))).
  split; [apply (reads_fst _ _ _ reads_countEndToEndInboundGroupSessions)|].
  rewrite getEndToEndInboundGroupSessionsBatch_first by exact Hok.
  rewrite inbound_sessions_keys.
  split; [|split].
  - destruct (inbound_keys (storage w)) as [|k ks]; cbn [map List.length].
    + split; reflexivity.
    + split; intros H; discriminate H.
  - intros batch E. apply Return_inj, first_batch_some in E.
    subst batch. rewrite firstn_map, length_map, length_firstn.
    split; [apply Nat.min_comm|]. split; [lia|reflexivity].
  - apply keeps_getEndToEndInboundGroupSessionsBatch.
Qed.

(** *** Keys made from a sender key of 43 characters *)

Lemma slice_join n s : (slice_to n s ++ slice_from n s)%string = s.
Proof.
  revert s. induction n as [|n IH]; intros [|c s]; cbn; try reflexivity.
  now rewrite IH.
Qed.

Lemma slice_from_add a b s :
  slice_from a (slice_from b s) = slice_from (b + a) s.
Proof.
  revert s. induction b as [|b IH]; intros s; [reflexivity|].
  destruct s as [|c s]; cbn [slice_from Nat.add]; [|apply IH].
  now destruct a.
Qed.

Lemma slice_head c t :
  String.eqb (slice_to 1 t) (String c EmptyString) = true ->
  t = String c (slice_from 1 t).
Proof.
  destruct t as [|d t]; cbn; [discriminate|].
  destruct (Ascii.eqb d c) eqn:E; [|discriminate].
  apply Ascii.eqb_eq in E. now subst d.
Qed.

Lemma inbound_suffix_ok k :
  inbound_key_ok k = true ->
  inbound_suffix k
  = ((slice_to 43 (inbound_suffix k) ++ "/")
       ++ slice_from 44 (inbound_suffix k))%string.
Proof.
  unfold inbound_key_ok. intros H. apply slice_head in H.
  rewrite slice_from_add in H. cbn [Nat.add] in H.
  rewrite append_assoc. cbn [append]. rewrite <- H.
  symmetry. apply slice_join.
Qed.

Lemma inbound_suffix_slash k :
  inbound_key_ok k = true -> contains_char "/" (inbound_suffix k) = true.
Proof.
  intros H. rewrite (inbound_suffix_ok k H), !contains_char_append.
  cbn. now rewrite orb_true_r.
Qed.

Lemma inbound_key_rebuild k :
  is_inbound_key k = true -> inbound_key_ok k = true ->
  keyEndToEndInboundGroupSession
    (slice_to 43 (inbound_suffix k)) (slice_from 44 (inbound_suffix k))
  = k.
Proof.
  intros Hk Hok.
  transitivity (KEY_INBOUND_SESSION_PREFIX ++ inbound_suffix k)%string.
  - pose proof (inbound_suffix_ok k Hok) as E.
    unfold keyEndToEndInboundGroupSession.
    set (a := slice_to 43 (inbound_suffix k)) in *.
    set (b := slice_from 44 (inbound_suffix k)) in *.
    rewrite E. now rewrite !append_assoc.
  - symmetry. apply startsWith_append. exact Hk.
Qed.

Lemma session_name_at st k :
  is_inbound_key k = true -> inbound_key_ok k = true ->
  keyEndToEndInboundGroupSession
    (fst (session_name (session_at st k)))
    (snd (session_name (session_at st k)))
  = k
  /\ backup_name (session_name (session_at st k)) = inbound_suffix k.
Proof.
  intros Hk Hok. split.
  - now apply inbound_key_rebuild.
  - symmetry. now apply inbound_suffix_ok.
Qed.

(** *** Marking, then reading the batch *)

Lemma mark_all_object sessions props :
  mark_all sessions (JObj props)
  = Return (JObj (fold_left
                    (fun p s => alist_set p (backup_name s) (JBool true))
                    sessions props)).
Proof.
  revert props. induction sessions as [|s sessions IH]; intros props;
    [reflexivity|].
  cbn [mark_all fold_left]. apply IH.
Qed.

Lemma alist_has_set {V} (l : list (string * V)) k v k' :
  alist_has (alist_set l k v) k' = String.eqb k k' || alist_has l k'.
Proof.
  unfold alist_has. rewrite alist_get_set.
  now destruct (String.eqb k k').
Qed.

Lemma alist_has_marked sessions props name :
  alist_has
    (fold_left (fun p s => alist_set p (backup_name s) (JBool true))
       sessions props) name
  = alist_has props name
    || existsb (String.eqb name) (map backup_name sessions).
Proof.
  revert props. induction sessions as [|s sessions IH]; intros props.
  - cbn. now rewrite orb_false_r.
  - cbn [fold_left map existsb]. rewrite IH, alist_has_set.
    rewrite (String.eqb_sym name).
    destruct (String.eqb (backup_name s) name), (alist_has props name);
      reflexivity.
Qed.

Lemma inbound_keys_set_other st k text :
  is_inbound_key k = false ->
  inbound_keys (alist_set st k text) = inbound_keys st.
Proof.
  intros Hk. unfold inbound_keys. rewrite alist_keys_set.
  destruct (existsb (String.eqb k) (alist_keys st)); [reflexivity|].
  rewrite filter_app. cbn [filter]. rewrite Hk. apply app_nil_r.
Qed.

Lemma first_batch_map {X Y} (g : X -> Y) (l : list X) n :
  match map g l with
  | [] => None
  | _ => Some (firstn n (map g l))
  end
  = option_map (map g)
      match l with
      | [] => None
      | _ => Some (firstn n l)
      end.
Proof.
  destruct l; [reflexivity|].
  cbn [map option_map]. now rewrite <- firstn_map.
Qed.

(** After [markSessionsNeedingBackup], the batch of inbound group sessions
    shows the sessions marked.  With an index that decodes to an object,
    or is absent, and keys made from sender keys of 43 characters,
    [getEndToEndInboundGroupSessionsBatch] returns after the call what it
    returned before it, the same sessions with the same data, where
    [needsBackup] is true for a session exactly when it was true before or
    the session is one of those marked. *)
Theorem markSessionsNeedingBackup_then_batch
    (w : World) (sessions : list (string * string))
    (props : list (string * json)) :
  or_empty_object (decode (storage w) KEY_SESSIONS_NEEDING_BACKUP)
  = JObj props ->
  forallb inbound_key_ok (inbound_keys (storage w)) = true ->
  let w' := snd (markSessionsNeedingBackup sessions w) in
  fst (markSessionsNeedingBackup sessions w) = Return tt
  /\ (exists batch,
        fst (getEndToEndInboundGroupSessionsBatch w) = Return batch
        /\ fst (getEndToEndInboundGroupSessionsBatch w')
           = Return (option_map (map (marked sessions)) batch))
  /\ (forall e,
        In (session_name e) sessions -> needsBackup (marked sessions e) = true)
  /\ (forall e,
        needsBackup (marked sessions e) = true ->
        needsBackup e = true
        \/ In (backup_name (session_name e)) (map backup_name sessions)).
Proof.
  intros Hidx Hkeys. cbv zeta.
  destruct (markSessionsNeedingBackup_run sessions w) as [l Hrun].
  rewrite Hidx, mark_all_object in Hrun. rewrite Hrun. cbn [fst snd].
  set (props' := fold_left
                   (fun p s => alist_set p (backup_name s) (JBool true))
                   sessions props) in *.
  set (st' := alist_set (storage w) KEY_SESSIONS_NEEDING_BACKUP
                (JSON_stringify (JObj props'))).
  assert (Hwf : json_wf (JObj props') = true).
  { apply (mark_all_wf sessions (JObj props)).
    - rewrite <- Hidx. apply backup_flags_wf.
    - apply mark_all_object. }
  assert (Hidx' : or_empty_object (decode st' KEY_SESSIONS_NEEDING_BACKUP)
                  = JObj props').
  { unfold st'. now rewrite decode_set_stringify. }
  assert (Hok : index_ok (storage w) = true)
    by (unfold index_ok; now rewrite Hidx).
  assert (Hok' : index_ok st' = true)
    by (unfold index_ok; now rewrite Hidx').
  split; [reflexivity|]. split; [|split].
  - eexists. split;
      [apply getEndToEndInboundGroupSessionsBatch_first; exact Hok|].
    rewrite getEndToEndInboundGroupSessionsBatch_first by exact Hok'.
    cbn [storage]. fold st'. f_equal.
    rewrite <- first_batch_map. rewrite !inbound_sessions_keys.
    replace (inbound_keys st') with (inbound_keys (storage w))
      by (symmetry; now apply inbound_keys_set_other).
    rewrite map_map.
    rewrite (map_ext_in (session_at st')
               (fun k => marked sessions (session_at (storage w) k)));
      [reflexivity|].
    intros k Hk.
    assert (Hin : is_inbound_key k = true)
      by (apply filter_In in Hk; apply Hk).
    assert (Hk' : inbound_key_ok k = true)
      by (rewrite forallb_forall in Hkeys; now apply Hkeys).
    destruct (session_name_at (storage w) k Hin Hk') as [_ Hname].
    unfold marked. rewrite Hname. unfold session_at. cbn [senderKey
      sessionId sessionData needsBackup]. f_equal.
    + unfold st'. rewrite decode_set.
      destruct (String.eqb KEY_SESSIONS_NEEDING_BACKUP k) eqn:E;
        [|reflexivity].
      apply String.eqb_eq in E. subst k. discriminate Hin.
    + rewrite Hidx', Hidx. unfold flag_of. cbn [in_index].
      fold (inbound_suffix k).
      rewrite !has_property_slash by now apply inbound_suffix_slash.
      apply alist_has_marked.
  - intros e H. unfold marked. cbn [needsBackup]. apply orb_true_iff.
    right. apply existsb_eqb_In, in_map_iff. now exists (session_name e).
  - intros e. unfold marked. cbn [needsBackup]. rewrite orb_true_iff.
    now rewrite existsb_eqb_In.
Qed.

(** *** Deleting the batch read *)

Lemma fold_left_of_map {X Y Z} (f : Z -> Y -> Z) (g : X -> Y) xs acc :
  fold_left (fun a x => f a (g x)) xs acc = fold_left f (map g xs) acc.
Proof.
  revert acc. induction xs as [|x xs IH]; intros acc; [reflexivity|].
  cbn [fold_left map]. apply IH.
Qed.

Lemma alist_get_remove_all {V} (l : list (string * V)) ks k :
  alist_get (fold_left (fun st k' => alist_remove st k') ks l) k
  = if existsb (String.eqb k) ks then None else alist_get l k.
Proof.
  revert l. induction ks as [|k' ks IH]; intros l; [reflexivity|].
  cbn [fold_left existsb]. rewrite IH, alist_get_remove.
  rewrite (String.eqb_sym k k').
  destruct (String.eqb k' k), (existsb (String.eqb k) ks); reflexivity.
Qed.

Lemma alist_keys_remove_all {V} (l : list (string * V)) ks :
  alist_keys (fold_left (fun st k' => alist_remove st k') ks l)
  = filter (fun k => negb (existsb (String.eqb k) ks)) (alist_keys l).
Proof.
  revert l. induction ks as [|k' ks IH]; intros l.
  - cbn [fold_left existsb negb]. generalize (alist_keys l). intros keys.
    induction keys as [|k keys IHk]; [reflexivity|].
    cbn [filter]. now rewrite <- IHk.
  - cbn [fold_left existsb]. rewrite IH, alist_keys_remove.
    generalize (alist_keys l). intros keys.
    induction keys as [|k keys IHk]; [reflexivity|].
    cbn [filter]. destruct (String.eqb k k'); cbn [negb orb filter];
      [exact IHk|].
    destruct (existsb (String.eqb k) ks); cbn [negb]; now rewrite IHk.
Qed.

Lemma filter_comm {X} (p q : X -> bool) l :
  filter p (filter q l) = filter q (filter p l).
Proof.
  induction l as [|x l IH]; [reflexivity|].
  cbn [filter]. destruct (p x) eqn:Ep, (q x) eqn:Eq; cbn [filter];
    rewrite ?Ep, ?Eq, IH; reflexivity.
Qed.

Lemma filter_not_in_firstn n (l : list string) :
  NoDup l ->
  filter (fun k => negb (existsb (String.eqb k) (firstn n l))) l = skipn n l.
Proof.
  revert l. induction n as [|n IH]; intros l Hn.
  - cbn [firstn existsb negb skipn]. clear Hn.
    induction l as [|k l IHl]; [reflexivity|].
    cbn [filter]. now rewrite IHl.
  - destruct l as [|x l]; [reflexivity|].
    cbn [firstn skipn filter existsb]. rewrite String.eqb_refl.
    cbn [orb negb]. inversion Hn as [|? ? Hx Hl]; subst.
    rewrite <- (IH l Hl). apply filter_ext_in. intros k Hk.
    destruct (String.eqb k x) eqn:E; [|reflexivity].
    apply String.eqb_eq in E. subst k. contradiction.
Qed.

Lemma skipn_min {X} n (l : list X) :
  skipn (Nat.min (List.length l) n) l = skipn n l.
Proof.
  destruct (Nat.le_ge_cases n (List.length l)) as [H|H].
  - now rewrite Nat.min_r.
  - rewrite Nat.min_l by exact H.
    rewrite skipn_all. symmetry. now apply skipn_all2.
Qed.

Lemma batch_some_index_ok w batch :
  fst (getEndToEndInboundGroupSessionsBatch w) = Return (Some batch) ->
  index_ok (storage w) = true.
Proof.
  intros H. destruct (index_ok (storage w)) eqn:Hok; [reflexivity|].
  rewrite (reads_fst _ _ _ reads_getEndToEndInboundGroupSessionsBatch) in H.
  rewrite scan_keys_inbound_primitive in H by exact Hok.
  destruct (existsb is_inbound_key (alist_keys (storage w))); discriminate H.
Qed.

Lemma index_ok_agree st st' :
  alist_get st' KEY_SESSIONS_NEEDING_BACKUP
  = alist_get st KEY_SESSIONS_NEEDING_BACKUP ->
  index_ok st' = index_ok st.
Proof. intros H. unfold index_ok. now rewrite (decode_agree _ _ _ H). Qed.

Lemma session_at_agree st st' k :
  alist_get st' KEY_SESSIONS_NEEDING_BACKUP
  = alist_get st KEY_SESSIONS_NEEDING_BACKUP ->
  alist_get st' k = alist_get st k ->
  session_at st' k = session_at st k.
Proof.
  intros Hi Hk. unfold session_at.
  now rewrite (decode_agree _ _ _ Hi), (decode_agree _ _ _ Hk).
Qed.

(** Deleting the sessions of a batch makes the next batch the sessions
    that follow.  In a storage whose keys of inbound group sessions are
    made from sender keys of 43 characters,
    [deleteEndToEndInboundGroupSessionsBatch], given the sender keys and
    session ids of a batch that [getEndToEndInboundGroupSessionsBatch]
    returned, removes the keys of that batch and no other key: the count
    goes down by the length of the batch, which is not empty, and the next
    batch starts at the session after the last one deleted. *)
Theorem deleteEndToEndInboundGroupSessionsBatch_removes_batch
    (w : World) (batch : list SessionExtended) :
  NoDup (alist_keys (storage w)) ->
  forallb inbound_key_ok (inbound_keys (storage w)) = true ->
  fst (getEndToEndInboundGroupSessionsBatch w) = Return (Some batch) ->
  let sessions := map session_name batch in
  let w' := snd (deleteEndToEndInboundGroupSessionsBatch sessions w) in
  let rest := skipn (List.length batch) (inbound_keys (storage w)) in
  fst (deleteEndToEndInboundGroupSessionsBatch sessions w) = Return tt
  /\ batch <> []
  /\ inbound_keys (storage w') = rest
  /\ (exists n,
        fst (countEndToEndInboundGroupSessions w) = Return n
        /\ fst (countEndToEndInboundGroupSessions w')
           = Return (n - List.length batch))
  /\ fst (getEndToEndInboundGroupSessionsBatch w')
     = Return match rest with
              | [] => None
              | _ => Some (map (session_at (storage w))
                             (firstn (Nat.max 1 SESSION_BATCH_SIZE) rest))
              end
  /\ (forall k,
        is_inbound_key k = false ->
        alist_get (storage w') k = alist_get (storage w) k).
Proof.
  intros Hn Hkeys Hbatch. cbv zeta.
  pose proof (batch_some_index_ok w batch Hbatch) as Hok.
  rewrite getEndToEndInboundGroupSessionsBatch_first in Hbatch by exact Hok.
  apply Return_inj in Hbatch. rewrite inbound_sessions_keys in Hbatch.
  set (iks := inbound_keys (storage w)) in *.
  set (M := Nat.max 1 SESSION_BATCH_SIZE) in *.
  assert (Hb : batch = map (session_at (storage w)) (firstn M iks)).
  { apply first_batch_some in Hbatch. now rewrite firstn_map in Hbatch. }
  assert (Hlen : List.length batch = Nat.min (List.length iks) M).
  { rewrite Hb, length_map, length_firstn. apply Nat.min_comm. }
  assert (Hne : batch <> []).
  { intros E. rewrite E in Hlen, Hbatch. cbn [List.length] in Hlen.
    destruct iks as [|k ks]; [discriminate Hbatch|].
    cbn [List.length] in Hlen. unfold M in Hlen. lia. }
  assert (Hin : forall k, In k (firstn M iks) ->
                          is_inbound_key k = true /\ inbound_key_ok k = true).
  { intros k Hk. apply In_firstn in Hk. split.
    - apply filter_In in Hk. apply Hk.
    - rewrite forallb_forall in Hkeys. now apply Hkeys. }
  assert (Hdel : map (fun s => keyEndToEndInboundGroupSession (fst s) (snd s))
                   (map session_name batch)
                 = firstn M iks).
  { rewrite Hb, !map_map. rewrite <- (map_id (firstn M iks)) at 2.
    apply map_ext_in. intros k Hk. destruct (Hin k Hk) as [H1 H2].
    apply (session_name_at (storage w) k H1 H2). }
  destruct (writes_deleteEndToEndInboundGroupSessionsBatch
              (map session_name batch) w) as [l ->].
  cbn [fst snd storage].
  rewrite (fold_left_of_map (fun st k' => alist_remove st k')
             (fun s => keyEndToEndInboundGroupSession (fst s) (snd s))).
  rewrite Hdel.
  set (st' := fold_left (fun st k' => alist_remove st k') (firstn M iks)
                (storage w)).
  assert (Hget : forall k,
             existsb (String.eqb k) (firstn M iks) = false ->
             alist_get st' k = alist_get (storage w) k).
  { intros k Hk. unfold st'. now rewrite alist_get_remove_all, Hk. }
  assert (Hother : forall k,
             is_inbound_key k = false ->
             existsb (String.eqb k) (firstn M iks) = false).
  { intros k Hk. destruct (existsb (String.eqb k) (firstn M iks)) eqn:E;
      [|reflexivity].
    apply existsb_eqb_In, Hin in E. destruct E as [E _]. congruence. }
  assert (Hiks : inbound_keys st' = skipn (List.length batch) iks).
  { unfold inbound_keys, st'. rewrite alist_keys_remove_all, filter_comm.
    change (filter is_inbound_key (alist_keys (storage w))) with iks.
    rewrite filter_not_in_firstn by (apply NoDup_filter; exact Hn).
    rewrite Hlen. symmetry. apply skipn_min. }
  assert (Hidx : alist_get st' KEY_SESSIONS_NEEDING_BACKUP
                 = alist_get (storage w) KEY_SESSIONS_NEEDING_BACKUP)
    by (apply Hget, Hother; reflexivity).
  split; [reflexivity|]. split; [exact Hne|]. split; [exact Hiks|].
  split; [|split].
  - exists (List.length iks).
    rewrite !(reads_fst _ _ _ reads_countEndToEndInboundGroupSessions).
    cbn [storage]. split; [reflexivity|].
    now rewrite Hiks, length_skipn.
  - rewrite getEndToEndInboundGroupSessionsBatch_first
      by (cbn [storage]; now rewrite (index_ok_agree _ _ Hidx)).
    cbn [storage]. rewrite inbound_sessions_keys.
    rewrite (map_ext_in (session_at st') (session_at (storage w))).
    + rewrite Hiks.
      destruct (skipn (List.length batch) iks) as [|k ks]; [reflexivity|].
      cbn [map]. now rewrite <- firstn_map.
    + intros k Hk. apply session_at_agree; [exact Hidx|]. apply Hget.
      unfold inbound_keys, st' in Hk. rewrite alist_keys_remove_all in Hk.
      apply filter_In in Hk as [Hk _]. apply filter_In in Hk as [_ Hk].
      now apply negb_true_iff in Hk.
  - intros k Hk. now apply Hget, Hother.
Qed.

(** *** The sessions of a device after a write *)

Lemma fixed_get (sessions : list (string * json)) sid :
  Forall not_pickle sessions ->
  option_map fix_value (alist_get sessions sid) = alist_get sessions sid.
Proof.
  intros H. destruct (alist_get sessions sid) as [v|] eqn:E; [|reflexivity].
  apply alist_get_In in E. rewrite Forall_forall in H.
  specialize (H _ E). cbn. f_equal.
  destruct v; try reflexivity. exfalso. now apply (H s).
Qed.

Lemma sessions_of_delete_all sessions st deviceKey :
  sessions_of (fold_left delete_session sessions st) deviceKey
  = fold_left
      (fun deviceSessions s =>
         if String.eqb (fst s) deviceKey
         then alist_remove deviceSessions (snd s)
         else deviceSessions)
      sessions (sessions_of st deviceKey).
Proof.
  revert st. induction sessions as [|s sessions IH]; intros st;
    [reflexivity|].
  cbn [fold_left]. now rewrite IH, sessions_of_delete.
Qed.

(** After [deleteEndToEndSessionsBatch], the object that
    [_getEndToEndSessions] builds for a device named in the list has
    [Object.prototype] for its prototype; for any other device it is the
    object built before. *)
Lemma session_object_delete_all sessions st deviceKey :
  session_object (fold_left delete_session sessions st) deviceKey
  = if existsb (String.eqb deviceKey) (map fst sessions)
    then mkObject
           (sessions_of (fold_left delete_session sessions st) deviceKey)
           Object_prototype
    else session_object st deviceKey.
Proof.
  revert st. induction sessions as [|s sessions IH]; intros st;
    [reflexivity|].
  cbn [fold_left map existsb]. unfold sessions_of at 1. rewrite IH.
  destruct (existsb (String.eqb deviceKey) (map fst sessions));
    [now rewrite orb_true_r|]. rewrite orb_false_r.
  rewrite session_object_delete, (String.eqb_sym deviceKey).
  now destruct (String.eqb (fst s) deviceKey).
Qed.

Lemma alist_get_removed_sessions sessions deviceKey sessionId
    (deviceSessions : list (string * json)) :
  alist_get
    (fold_left
       (fun deviceSessions s =>
          if String.eqb (fst s) deviceKey
          then alist_remove deviceSessions (snd s)
          else deviceSessions)
       sessions deviceSessions) sessionId
  = if existsb
         (fun s => String.eqb (fst s) deviceKey && String.eqb (snd s) sessionId)
         sessions
    then None
    else alist_get deviceSessions sessionId.
Proof.
  revert deviceSessions.
  induction sessions as [|s sessions IH]; intros deviceSessions;
    [reflexivity|].
  cbn [fold_left existsb]. rewrite IH.
  destruct (existsb _ sessions); [now rewrite orb_true_r|].
  rewrite orb_false_r.
  destruct (String.eqb (fst s) deviceKey); cbn [andb]; [|reflexivity].
  apply alist_get_remove.
Qed.

(** A read of a property depends on the property of the object and on
    its prototype. *)
Lemma js_get_ext o o' k :
  alist_get (own o) k = alist_get (own o') k -> proto o = proto o' ->
  js_get o k = js_get o' k.
Proof. intros H1 H2. unfold js_get. now rewrite H1, H2. Qed.

Lemma named_device sessions deviceKey sessionId :
  existsb
    (fun s : string * string =>
       String.eqb (fst s) deviceKey && String.eqb (snd s) sessionId) sessions
  = true ->
  existsb (String.eqb deviceKey) (map fst sessions) = true.
Proof.
  intros H. apply existsb_exists in H as (s & Hin & Hs).
  apply andb_true_iff in Hs as [Hs _]. apply String.eqb_eq in Hs.
  apply existsb_eqb_In. rewrite <- Hs. now apply in_map.
Qed.

(** [deleteEndToEndSessionsBatch] deletes the sessions named: after the
    call, [getEndToEndSession] for a device key and session id of the list
    returns what it returns for a session that was never stored, the empty
    object, or the member of [Object.prototype] of that name where the
    session id is the name of one.  For a device key and session id not
    in the list it returns what it returned before the call, where the
    device is not named in the list, or the object read for it had
    [Object.prototype] for its prototype: the mapping written back for a
    device named has no entry [__proto__]. *)
Theorem deleteEndToEndSessionsBatch_then_getEndToEndSession
    (w : World) (sessions : list (string * string))
    (deviceKey sessionId : string) :
  let w' := snd (deleteEndToEndSessionsBatch sessions w) in
  let listed :=
    existsb
      (fun s => String.eqb (fst s) deviceKey && String.eqb (snd s) sessionId)
      sessions in
  fst (deleteEndToEndSessionsBatch sessions w) = Return tt
  /\ (listed = true ->
      fst (getEndToEndSession deviceKey sessionId w')
      = Return (or_empty (Object_prototype_get ObjectPrototype sessionId)))
  /\ (Object_prototype_has sessionId = false ->
      or_empty (Object_prototype_get ObjectPrototype sessionId) = JObj [])
  /\ (listed = false ->
      existsb (String.eqb deviceKey) (map fst sessions) = false
      \/ prototype_of (storage w) deviceKey = Object_prototype ->
      fst (getEndToEndSession deviceKey sessionId w')
      = fst (getEndToEndSession deviceKey sessionId w)).
Proof.
  cbv zeta.
  destruct (writes_deleteEndToEndSessionsBatch sessions w) as [l ->].
  split; [reflexivity|].
  rewrite !(reads_fst _ _ _ (reads_getEndToEndSession _ _)).
  cbn [snd storage]. rewrite session_object_delete_all.
  split; [|split].
  - intros Hl. rewrite (named_device _ _ _ Hl).
    unfold js_get. cbn [own proto].
    now rewrite sessions_of_delete_all, alist_get_removed_sessions, Hl.
  - intros Hn. unfold Object_prototype_get. rewrite Hn.
    destruct (String.eqb sessionId "__proto__") eqn:E; [|reflexivity].
    apply String.eqb_eq in E. subst sessionId. discriminate Hn.
  - intros Hl [Hd|Hp].
    + now rewrite Hd.
    + destruct (existsb (String.eqb deviceKey) (map fst sessions));
        [|reflexivity].
      do 2 f_equal. apply js_get_ext.
      * cbn [own].
        now rewrite sessions_of_delete_all, alist_get_removed_sessions, Hl.
      * cbn [proto]. symmetry. exact Hp.
Qed.

(** The sessions that [_getEndToEndSessions] has after
    [storeEndToEndSession], where the object it built before had
    [Object.prototype] for its prototype. *)
Lemma stored_object_get st deviceKey sessionId sessionInfo k :
  json_wf sessionInfo = true ->
  prototype_of st deviceKey = Object_prototype ->
  let stored :=
    fix_sessions
      (JObj (own (js_put (session_object st deviceKey) sessionId sessionInfo)))
  in
  proto stored = Object_prototype
  /\ alist_get (own stored) k
     = if String.eqb k "__proto__" then None
       else if String.eqb sessionId k then Some (fix_value sessionInfo)
       else alist_get (sessions_of st deviceKey) k.
Proof.
  intros Hwf Hp stored. subst stored.
  pose proof (stored_sessions_wf st deviceKey sessionId sessionInfo Hwf)
    as Hwf'.
  destruct (sessions_of_settled st deviceKey) as [_ Hno].
  apply alist_get_None in Hno.
  assert (Hown : alist_get
                   (own (js_put (session_object st deviceKey) sessionId
                           sessionInfo)) "__proto__" = None).
  { rewrite own_js_put.
    destruct (String.eqb sessionId "__proto__") eqn:E; cbn [andb].
    - apply String.eqb_eq in E. subst sessionId.
      rewrite proto_setter_at_start; [exact Hno|exact Hno|exact Hp].
    - now rewrite alist_get_define, E. }
  split.
  - rewrite fix_sessions_proto by exact Hwf'.
    cbn [or_empty_object truthy Object_entries]. now rewrite Hown.
  - rewrite fix_sessions_get by exact Hwf'.
    cbn [or_empty_object truthy Object_entries].
    destruct (String.eqb k "__proto__") eqn:Ek; [reflexivity|].
    rewrite stored_sessions_get by exact Ek.
    destruct (String.eqb sessionId k); [reflexivity|].
    apply fixed_get, sessions_of_wf.
Qed.

(** [storeEndToEndSession] changes the session it is given and no other:
    for every session id of every other device, and for every other
    session id of the device where the object read for it had
    [Object.prototype] for its prototype, [getEndToEndSession] returns
    after the call what it returned before.  (An entry [__proto__] of the
    mapping stored is not written back, so a prototype that it had set is
    not there afterwards.) *)
Theorem storeEndToEndSession_keeps_other_sessions
    (w : World) (deviceKey sessionId : string) (sessionInfo : json)
    (deviceKey' sessionId' : string) :
  json_wf sessionInfo = true ->
  (deviceKey', sessionId') <> (deviceKey, sessionId) ->
  (deviceKey' = deviceKey ->
   prototype_of (storage w) deviceKey = Object_prototype) ->
  let w' := snd (storeEndToEndSession deviceKey sessionId sessionInfo w) in
  fst (storeEndToEndSession deviceKey sessionId sessionInfo w) = Return tt
  /\ fst (getEndToEndSession deviceKey' sessionId' w')
     = fst (getEndToEndSession deviceKey' sessionId' w).
Proof.
  intros Hwf Hne Hp. cbv zeta.
  destruct (writes_storeEndToEndSession deviceKey sessionId sessionInfo w)
    as [l ->].
  split; [reflexivity|].
  rewrite !(reads_fst _ _ _ (reads_getEndToEndSession _ _)).
  cbn [snd storage]. rewrite session_object_store by exact Hwf.
  destruct (String.eqb deviceKey deviceKey') eqn:Ed; [|reflexivity].
  apply String.eqb_eq in Ed. subst deviceKey'. specialize (Hp eq_refl).
  destruct (stored_object_get (storage w) deviceKey sessionId sessionInfo
              sessionId' Hwf Hp) as [Hproto Hget].
  do 2 f_equal. apply js_get_ext; [|now rewrite Hproto].
  rewrite Hget.
  destruct (String.eqb sessionId' "__proto__") eqn:E.
  - apply String.eqb_eq in E. subst sessionId'. symmetry.
    apply alist_get_None, sessions_of_settled.
  - destruct (String.eqb sessionId sessionId') eqn:Es; [|reflexivity].
    apply String.eqb_eq in Es. subst sessionId'. now contradiction Hne.
Qed.

(** *** Counting the sessions of the devices *)

Lemma length_flat_map {X Y} (f : X -> list Y) l :
  List.length (flat_map f l) = list_sum (map (fun x => List.length (f x)) l).
Proof.
  induction l as [|x l IH]; [reflexivity|].
  cbn [flat_map map list_sum]. now rewrite length_app, IH.
Qed.

Lemma list_sum_map_add {X} (f g : X -> nat) l :
  list_sum (map (fun x => f x + g x) l)
  = list_sum (map f l) + list_sum (map g l).
Proof.
  induction l as [|x l IH]; [reflexivity|].
  cbn [map]. change (list_sum (?a :: ?r)) with (a + list_sum r).
  rewrite IH. lia.
Qed.

Lemma length_filter_sum {X} (p : X -> bool) l :
  List.length (filter p l)
  = list_sum (map (fun x => if p x then 1 else 0) l).
Proof.
  induction l as [|x l IH]; [reflexivity|].
  cbn [filter map]. change (list_sum (?a :: ?r)) with (a + list_sum r).
  destruct (p x); cbn [List.length]; lia.
Qed.

(** [countEndToEndSessions] counts the sessions as the other reads return
    them, and the entries named [__proto__] besides: its result is the
    number of the sessions, fixed up, under the keys of sessions, those
    that [getEndToEndSessions] returns device by device, and one more for
    every key whose mapping has an entry named [__proto__], which the
    other reads do not return as a session.  A device with no key counts
    for nothing.  The storage is not changed. *)
Theorem countEndToEndSessions_counts_fixed_sessions (w : World) :
  fst (countEndToEndSessions w)
  = Return (List.length (all_sessions (storage w))
            + List.length
                (filter
                   (fun k => is_sessions_key k
                             && has_proto_entry (storage w) k)
                   (alist_keys (storage w))))
  /\ ((forall k, In k (alist_keys (storage w)) ->
                 has_proto_entry (storage w) k = false) ->
      fst (countEndToEndSessions w)
      = Return (List.length (all_sessions (storage w))))
  /\ all_sessions (storage w)
     = flat_map
         (fun k => alist_values (sessions_of (storage w) (device_of k)))
         (filter (fun k => startsWith k (keyEndToEndSessions ""))
            (alist_keys (storage w)))
  /\ (forall deviceKey,
        exists sessions,
          fst (getEndToEndSessions deviceKey w) = Return (as_value sessions)
          /\ own sessions = sessions_of (storage w) deviceKey)
  /\ (forall deviceKey,
        alist_get (storage w) (keyEndToEndSessions deviceKey) = None ->
        sessions_of (storage w) deviceKey = [])
  /\ storage (snd (countEndToEndSessions w)) = storage w.
Proof.
  assert (Hcount : fst (countEndToEndSessions w)
            = Return (List.length (all_sessions (storage w))
                      + List.length
                          (filter
                             (fun k => is_sessions_key k
                                       && has_proto_entry (storage w) k)
                             (alist_keys (storage w))))).
  { rewrite (reads_fst _ _ _ reads_countEndToEndSessions).
    f_equal. unfold all_sessions.
    rewrite length_flat_map, length_filter_sum, <- list_sum_map_add.
    f_equal. apply map_ext. intros k. rewrite sessions_under_own.
    unfold is_sessions_key.
    destruct (startsWith k (keyEndToEndSessions "")); [|reflexivity].
    unfold alist_values. now rewrite length_map. }
  split; [exact Hcount|]. split; [|split; [|split; [|split]]].
  - intros Hfree. rewrite Hcount. f_equal.
    replace (filter _ (alist_keys (storage w))) with (@nil string);
      [cbn; lia|].
    symmetry. revert Hfree. generalize (alist_keys (storage w)).
    intros keys. induction keys as [|k keys IH]; intros Hfree;
      [reflexivity|].
    cbn [filter]. rewrite (Hfree k) by now left.
    rewrite andb_false_r. apply IH. intros k' Hk'. apply Hfree. now right.
  - clear Hcount. unfold all_sessions.
    induction (alist_keys (storage w)) as [|k keys IH]; [reflexivity|].
    cbn [flat_map filter].
    destruct (startsWith k (keyEndToEndSessions "")) eqn:E; [|exact IH].
    cbn [flat_map]. rewrite IH. f_equal.
    unfold sessions_of, session_object.
    now rewrite <- (sessions_key_device k E).
  - intros deviceKey. eexists. split; [|reflexivity].
    apply (reads_fst _ _ _ (reads_getEndToEndSessions _)).
  - intros deviceKey H. unfold sessions_of, session_object, decode.
    now rewrite H.
  - apply (keeps_reads _ _ reads_countEndToEndSessions).
Qed.

Lemma list_sum_agree (g g' : string -> nat) keys :
  (forall k, In k keys -> g' k = g k) ->
  list_sum (map g' keys) = list_sum (map g keys).
Proof.
  intros H. f_equal. apply map_ext_in. exact H.
Qed.

Lemma list_sum_cons x l : list_sum (x :: l) = x + list_sum l.
Proof. reflexivity. Qed.

Lemma list_sum_update (g g' : string -> nat) key keys :
  NoDup keys -> In key keys ->
  (forall k, k <> key -> g' k = g k) ->
  list_sum (map g' keys) + g key = list_sum (map g keys) + g' key.
Proof.
  intros Hn Hin Hg. induction Hn as [|k keys Hk Hn IH]; [contradiction|].
  cbn [map]. rewrite !list_sum_cons. destruct Hin as [->|Hin].
  - rewrite (list_sum_agree g g' keys); [lia|].
    intros k Hk'. apply Hg. intros ->. contradiction.
  - specialize (IH Hin). rewrite (Hg k); [lia|].
    intros ->. contradiction.
Qed.

Lemma list_sum_filter_out (g : string -> nat) key keys :
  NoDup keys ->
  list_sum (map g (filter (fun k => negb (String.eqb k key)) keys))
  + (if existsb (String.eqb key) keys then g key else 0)
  = list_sum (map g keys).
Proof.
  intros Hn. induction Hn as [|k keys Hk Hn IH]; [reflexivity|].
  cbn [filter existsb]. rewrite (String.eqb_sym key k).
  destruct (String.eqb k key) eqn:E; cbn [negb orb map];
    rewrite ?list_sum_cons.
  - apply String.eqb_eq in E. subst k.
    replace (existsb (String.eqb key) keys) with false in IH.
    + lia.
    + symmetry. destruct (existsb (String.eqb key) keys) eqn:E;
        [|reflexivity].
      apply existsb_eqb_In in E. contradiction.
  - lia.
Qed.

Lemma alist_get_absent {V} (l : list (string * V)) k :
  existsb (String.eqb k) (alist_keys l) = false -> alist_get l k = None.
Proof.
  rewrite <- alist_has_keys. unfold alist_has.
  now destruct (alist_get l k).
Qed.

Lemma sessions_under_agree st st' k :
  alist_get st' k = alist_get st k ->
  sessions_under st' k = sessions_under st k.
Proof. intros H. unfold sessions_under. now rewrite (decode_agree _ _ _ H). Qed.

Lemma sessions_under_absent st k :
  existsb (String.eqb k) (alist_keys st) = false -> sessions_under st k = 0.
Proof.
  intros H. apply sessions_under_unreadable. unfold decode.
  now rewrite alist_get_absent.
Qed.

(** What a write of one key does to the count. *)
Lemma count_after_set st key text :
  NoDup (alist_keys st) ->
  list_sum (map (sessions_under (alist_set st key text))
              (alist_keys (alist_set st key text)))
  + sessions_under st key
  = list_sum (map (sessions_under st) (alist_keys st))
    + sessions_under (alist_set st key text) key.
Proof.
  intros Hn.
  assert (Hg : forall k, k <> key ->
                 sessions_under (alist_set st key text) k
                 = sessions_under st k).
  { intros k Hk. apply sessions_under_agree. rewrite alist_get_set.
    destruct (String.eqb key k) eqn:E; [|reflexivity].
    apply String.eqb_eq in E. now subst. }
  rewrite alist_keys_set.
  destruct (existsb (String.eqb key) (alist_keys st)) eqn:E.
  - apply list_sum_update; [exact Hn| |exact Hg]. now apply existsb_eqb_In.
  - rewrite map_app, list_sum_app. cbn [map]. rewrite list_sum_cons.
    cbn [list_sum fold_right].
    rewrite (sessions_under_absent st key E).
    rewrite (list_sum_agree (sessions_under st)); [lia|].
    intros k Hk. apply Hg. intros ->.
    apply existsb_eqb_In in Hk. congruence.
Qed.

Lemma count_after_remove st key :
  NoDup (alist_keys st) ->
  list_sum (map (sessions_under (alist_remove st key))
              (alist_keys (alist_remove st key)))
  + sessions_under st key
  = list_sum (map (sessions_under st) (alist_keys st)).
Proof.
  intros Hn. rewrite alist_keys_remove.
  rewrite (list_sum_agree (sessions_under st)).
  - rewrite <- (list_sum_filter_out (sessions_under st) key (alist_keys st)
                  Hn).
    destruct (existsb (String.eqb key) (alist_keys st)) eqn:E;
      [reflexivity|].
    now rewrite (sessions_under_absent st key E).
  - intros k Hk. apply filter_In in Hk as [_ Hk].
    apply negb_true_iff in Hk. apply sessions_under_agree.
    rewrite alist_get_remove. now rewrite String.eqb_sym, Hk.
Qed.

Lemma length_alist_remove {V} (l : list (string * V)) k :
  NoDup (alist_keys l) ->
  List.length (alist_remove l k) + (if alist_has l k then 1 else 0)
  = List.length l.
Proof.
  unfold alist_has. intros Hn.
  induction l as [|[k' v'] l IH]; [reflexivity|].
  cbn in Hn. inversion Hn as [|? ? Hk Hl]; subst.
  cbn. destruct (String.eqb k' k) eqn:E; cbn.
  - apply String.eqb_eq in E. subst k'.
    rewrite alist_remove_absent; [lia|].
    destruct (alist_get l k) eqn:G; [|reflexivity].
    apply alist_get_In_keys in G. contradiction.
  - specialize (IH Hl). destruct (alist_get l k); lia.
Qed.

Lemma sessions_under_device st deviceKey :
  sessions_under st (keyEndToEndSessions deviceKey)
  = List.length (sessions_of st deviceKey)
    + (if has_proto_entry st (keyEndToEndSessions deviceKey) then 1 else 0).
Proof.
  rewrite sessions_under_own. unfold keyEndToEndSessions at 1.
  now rewrite startsWith_prefix.
Qed.

(** What [countEndToEndSessions] adds for a key that holds the text of a
    mapping. *)
Lemma sessions_under_written st deviceKey props :
  json_wf (JObj props) = true ->
  sessions_under
    (alist_set st (keyEndToEndSessions deviceKey) (JSON_stringify (JObj props)))
    (keyEndToEndSessions deviceKey)
  = List.length props.
Proof.
  intros Hwf. unfold sessions_under, keyEndToEndSessions at 1.
  rewrite startsWith_prefix, decode_set_stringify by exact Hwf.
  cbn [nullish_or]. unfold Object_keys, alist_keys. now rewrite length_map.
Qed.

Lemma sessions_under_removed st key :
  sessions_under (alist_remove st key) key = 0.
Proof.
  unfold sessions_under. rewrite decode_remove, String.eqb_refl.
  now destruct (startsWith key (keyEndToEndSessions "")).
Qed.

(** [countEndToEndSessions] follows the writes.  In a storage whose keys
    are distinct, as the keys of [localStorage] are, and for a device
    whose mapping has no entry named [__proto__]: storing a session under
    a session id that the device does not have makes the count one more,
    and storing under a session id that it has leaves the count, as does
    storing under the session id [__proto__], which stores no session;
    deleting a session that the device has makes the count one less, and
    deleting one that it does not have leaves the count. *)
Theorem countEndToEndSessions_follows_store_and_delete
    (w : World) (deviceKey sessionId : string) (sessionInfo : json) :
  NoDup (alist_keys (storage w)) ->
  json_wf sessionInfo = true ->
  has_proto_entry (storage w) (keyEndToEndSessions deviceKey) = false ->
  let known := alist_has (sessions_of (storage w) deviceKey) sessionId in
  exists n,
    fst (countEndToEndSessions w) = Return n
    /\ fst (countEndToEndSessions
              (snd (storeEndToEndSession deviceKey sessionId sessionInfo w)))
       = Return (if String.eqb sessionId "__proto__" then n
                 else if known then n else S n)
    /\ fst (countEndToEndSessions
              (snd (deleteEndToEndSessionsBatch [(deviceKey, sessionId)] w)))
       = Return (if known then n - 1 else n).
Proof.
  intros Hn Hwf Hfree. cbv zeta.
  exists (list_sum (map (sessions_under (storage w)) (alist_keys (storage w)))).
  rewrite !(reads_fst _ _ _ reads_countEndToEndSessions).
  destruct (sessions_of_wf (storage w) deviceKey) as (Hnd & Hv & _).
  destruct (sessions_of_settled (storage w) deviceKey) as (_ & Hno).
  pose proof (sessions_under_device (storage w) deviceKey) as Hold.
  rewrite Hfree, Nat.add_0_r in Hold.
  split; [reflexivity|]. split.
  - destruct (writes_storeEndToEndSession deviceKey sessionId sessionInfo w)
      as [l ->].
    cbn [snd storage]. f_equal. unfold store_session.
    pose proof (count_after_set (storage w) (keyEndToEndSessions deviceKey)
                  (JSON_stringify
                     (JObj (own (js_put (session_object (storage w) deviceKey)
                                   sessionId sessionInfo)))) Hn) as Hsum.
    rewrite sessions_under_written in Hsum by now apply stored_sessions_wf.
    assert (Hp : prototype_of (storage w) deviceKey = Object_prototype).
    { unfold prototype_of, session_object.
      rewrite fix_sessions_proto by apply decode_wf.
      unfold has_proto_entry, alist_has in Hfree.
      now destruct (alist_get _ "__proto__"). }
    assert (Hlen : List.length
                     (own (js_put (session_object (storage w) deviceKey)
                             sessionId sessionInfo))
                   = if String.eqb sessionId "__proto__"
                     then List.length (sessions_of (storage w) deviceKey)
                     else if alist_has (sessions_of (storage w) deviceKey)
                               sessionId
                          then List.length (sessions_of (storage w) deviceKey)
                          else S (List.length
                                    (sessions_of (storage w) deviceKey))).
    { rewrite own_js_put.
      destruct (String.eqb sessionId "__proto__") eqn:E; cbn [andb].
      - rewrite proto_setter_at_start;
          [reflexivity|apply alist_get_None; exact Hno|exact Hp].
      - rewrite length_define_property.
        fold (sessions_of (storage w) deviceKey).
        destruct (alist_has (sessions_of (storage w) deviceKey) sessionId);
          lia. }
    rewrite Hold, Hlen in Hsum.
    destruct (String.eqb sessionId "__proto__");
      [|destruct (alist_has (sessions_of (storage w) deviceKey) sessionId)];
      lia.
  - destruct (writes_deleteEndToEndSessionsBatch [(deviceKey, sessionId)] w)
      as [l ->].
    cbn [snd storage fold_left]. f_equal.
    pose proof (length_alist_remove (sessions_of (storage w) deviceKey)
                  sessionId Hnd) as Hlen.
    unfold delete_session. cbn [fst snd].
    destruct (Nat.eqb _ 0) eqn:E.
    + apply length_zero_nil, alist_keys_nil in E. rewrite E in Hlen.
      cbn [List.length] in Hlen.
      pose proof (count_after_remove (storage w)
                    (keyEndToEndSessions deviceKey) Hn) as Hsum.
      destruct (alist_has (sessions_of (storage w) deviceKey) sessionId); lia.
    + pose proof (count_after_set (storage w) (keyEndToEndSessions deviceKey)
                    (JSON_stringify
                       (JObj (alist_remove (sessions_of (storage w) deviceKey)
                                sessionId))) Hn) as Hsum.
      rewrite sessions_under_written in Hsum.
      * destruct (alist_has (sessions_of (storage w) deviceKey) sessionId);
          lia.
      * apply json_wf_object. split.
        -- now apply alist_remove_NoDup.
        -- now apply alist_remove_Forall.
Qed.

(** *** Old sessions and the four reads *)



(** *** Records under one key: account, migration state, secret storage *)

Lemma alist_set_overwrite {V} (l : list (string * V)) k v v' :
  alist_set (alist_set l k v') k v = alist_set l k v.
Proof.
  induction l as [|[k0 v0] l IH]; cbn.
  - now rewrite String.eqb_refl.
  - destruct (String.eqb k0 k) eqn:E; cbn; rewrite E; [reflexivity|].
    now rewrite IH.
Qed.

Lemma getJsonItem_after_setJsonItem key val key' w :
  json_wf val = true ->
  fst (getJsonItem key' (snd (setJsonItem key val w)))
  = if String.eqb key key' then Return val else fst (getJsonItem key' w).
Proof.
  intros Hwf. rewrite !(reads_fst _ _ _ (reads_getJsonItem _)).
  cbn [setJsonItem setItem snd storage]. rewrite decode_set.
  destruct (String.eqb key key'); [|reflexivity].
  now rewrite JSON_parse_stringify.
Qed.

Lemma getJsonItem_after_removeItem key key' w :
  fst (getJsonItem key' (snd (removeItem key w)))
  = if String.eqb key key' then Return JNull else fst (getJsonItem key' w).
Proof.
  rewrite !(reads_fst _ _ _ (reads_getJsonItem _)).
  cbn [removeItem snd storage]. rewrite decode_remove.
  now destruct (String.eqb key key').
Qed.

(** The account pickle that [storeAccount] stores is the one that
    [getAccount] returns, whatever was stored before; a second
    [storeAccount] replaces the first and keeps the place of the key; and
    after [deleteAllData] [getAccount] returns [null], as in a store that
    never had an account. *)
Theorem storeAccount_then_getAccount (w : World) (accountPickle : string) :
  let stored := snd (storeAccount accountPickle w) in
  fst (storeAccount accountPickle w) = Return tt
  /\ fst (getAccount stored) = Return (JStr accountPickle)
  /\ (forall earlier,
        storage (snd (storeAccount accountPickle
                        (snd (storeAccount earlier w))))
        = storage stored)
  /\ fst (getAccount (snd (deleteAllData stored))) = Return JNull
  /\ fst (getAccount (snd (deleteAllData w))) = Return JNull
  /\ (alist_get (storage w) KEY_END_TO_END_ACCOUNT = None ->
      fst (getAccount w) = Return JNull).
Proof.
  cbv zeta. unfold storeAccount, getAccount, deleteAllData.
  split; [reflexivity|]. split; [|split; [|split; [|split]]].
  - rewrite getJsonItem_after_setJsonItem by reflexivity.
    now rewrite String.eqb_refl.
  - intros earlier. cbn [setJsonItem setItem snd storage].
    apply alist_set_overwrite.
  - rewrite getJsonItem_after_removeItem. now rewrite String.eqb_refl.
  - rewrite getJsonItem_after_removeItem. now rewrite String.eqb_refl.
  - intros H. rewrite (reads_fst _ _ _ (reads_getJsonItem _)).
    unfold decode. now rewrite H.
Qed.

(** The migration state that [setMigrationState] stores is the one that
    [getMigrationState] returns: a number comes back as it is, the number
    of [NOT_STARTED] too, and the default [NOT_STARTED] is returned only
    when the state stored is [null]. *)
Theorem setMigrationState_then_getMigrationState
    (w : World) (migrationState : json) :
  json_wf migrationState = true ->
  let w' := snd (setMigrationState migrationState w) in
  fst (setMigrationState migrationState w) = Return tt
  /\ fst (getMigrationState w')
     = Return (nullish_or migrationState (JNum NOT_STARTED))
  /\ (forall n, migrationState = JNum n ->
                fst (getMigrationState w') = Return (JNum n))
  /\ (migrationState <> JNull ->
      fst (getMigrationState w') = Return migrationState).
Proof.
  intros Hwf. cbv zeta. split; [reflexivity|].
  assert (H : fst (getMigrationState (snd (setMigrationState migrationState w)))
              = Return (nullish_or migrationState (JNum NOT_STARTED))).
  { rewrite (reads_fst _ _ _ reads_getMigrationState).
    unfold setMigrationState. cbn [setJsonItem setItem snd storage].
    now rewrite decode_set_stringify. }
  split; [exact H|]. split.
  - intros n ->. exact H.
  - intros Hne. rewrite H. now destruct migrationState.
Qed.

Lemma keySecretStorePrivateKey_eqb type type' :
  String.eqb (keySecretStorePrivateKey type) (keySecretStorePrivateKey type')
  = String.eqb type type'.
Proof. unfold keySecretStorePrivateKey. now rewrite !append_eqb. Qed.

(** A key of the secret storage cache is stored by its type: after
    [storeSecretStorePrivateKey] for a type, [getSecretStorePrivateKey]
    returns the key stored for that type, and for every other type what it
    returned before. *)
Theorem storeSecretStorePrivateKey_then_get
    (w : World) (type type' : string) (key : json) :
  json_wf key = true ->
  let w' := snd (storeSecretStorePrivateKey type key w) in
  fst (storeSecretStorePrivateKey type key w) = Return tt
  /\ fst (getSecretStorePrivateKey type w') = Return key
  /\ (type' <> type ->
      fst (getSecretStorePrivateKey type' w')
      = fst (getSecretStorePrivateKey type' w)).
Proof.
  intros Hwf. cbv zeta.
  unfold storeSecretStorePrivateKey, getSecretStorePrivateKey.
  split; [reflexivity|]. split.
  - rewrite getJsonItem_after_setJsonItem by exact Hwf.
    now rewrite String.eqb_refl.
  - intros Hne. rewrite getJsonItem_after_setJsonItem by exact Hwf.
    rewrite keySecretStorePrivateKey_eqb.
    destruct (String.eqb type type') eqn:E; [|reflexivity].
    apply String.eqb_eq in E. now subst.
Qed.

Lemma existsb_filter {X} (p q : X -> bool) l :
  existsb p (filter q l) = existsb (fun x => p x && q x) l.
Proof.
  induction l as [|x l IH]; [reflexivity|].
  cbn [filter existsb]. destruct (q x); cbn [existsb]; rewrite IH.
  - now rewrite andb_true_r.
  - now rewrite andb_false_r.
Qed.

Lemma containsData_without_account w :
  fst (containsData (snd (deleteAllData w)))
  = Return (existsb
              (fun k => startsWith k E2E_PREFIX
                        && negb (String.eqb k KEY_END_TO_END_ACCOUNT))
              (alist_keys (storage w))).
Proof.
  rewrite (reads_fst _ _ _ reads_containsData).
  unfold deleteAllData. cbn [removeItem snd storage].
  now rewrite alist_keys_remove, existsb_filter.
Qed.

Lemma containsData_other_record w k :
  In k (alist_keys (storage w)) ->
  startsWith k E2E_PREFIX = true ->
  k <> KEY_END_TO_END_ACCOUNT ->
  fst (containsData (snd (deleteAllData w))) = Return true.
Proof.
  intros Hin Hp Hne. rewrite containsData_without_account. f_equal.
  apply existsb_exists. exists k. split; [exact Hin|].
  rewrite Hp. apply String.eqb_neq in Hne. now rewrite Hne.
Qed.

(** [deleteAllData] removes the account and nothing else, so it does not
    make [containsData] false in a store that holds any other record:
    after [deleteAllData], [containsData] returns true exactly when the
    storage has a key under the prefix other than the key of the account.
    After [storeEndToEndSession], [setMigrationState] or
    [storeEndToEndInboundGroupSession], [deleteAllData] leaves
    [containsData] true. *)
Theorem containsData_after_deleteAllData (w : World) :
  fst (containsData (snd (deleteAllData w)))
  = Return (existsb
              (fun k => startsWith k E2E_PREFIX
                        && negb (String.eqb k KEY_END_TO_END_ACCOUNT))
              (alist_keys (storage w)))
  /\ (forall k,
        In k (alist_keys (storage w)) ->
        startsWith k E2E_PREFIX = true ->
        k <> KEY_END_TO_END_ACCOUNT ->
        fst (containsData (snd (deleteAllData w))) = Return true)
  /\ (forall deviceKey sessionId sessionInfo,
        fst (containsData
               (snd (deleteAllData
                       (snd (storeEndToEndSession deviceKey sessionId
                               sessionInfo w)))))
        = Return true)
  /\ (forall migrationState,
        fst (containsData
               (snd (deleteAllData (snd (setMigrationState migrationState w)))))
        = Return true)
  /\ (forall senderKey sessionId sessionData,
        fst (containsData
               (snd (deleteAllData
                       (snd (storeEndToEndInboundGroupSession senderKey
                               sessionId sessionData w)))))
        = Return true).
Proof.
  split; [apply containsData_without_account|].
  split; [intros k; apply containsData_other_record|].
  split; [|split].
  - intros deviceKey sessionId sessionInfo.
    apply (containsData_other_record _ (keyEndToEndSessions deviceKey));
      [|reflexivity|discriminate].
    destruct (writes_storeEndToEndSession deviceKey sessionId sessionInfo w)
      as [l ->].
    cbn [snd storage]. apply In_keys_after_set.
  - intros migrationState.
    apply (containsData_other_record _ KEY_END_TO_END_MIGRATION_STATE);
      [|reflexivity|discriminate].
    apply In_keys_after_set.
  - intros senderKey sessionId sessionData.
    apply (containsData_other_record _
             (keyEndToEndInboundGroupSession senderKey sessionId));
      [|reflexivity|discriminate].
    apply In_keys_after_set.
Qed.

(** *** Inbound group sessions: store, get, delete *)

Lemma append_inj_length a a' b b' :
  String.length a = String.length a' ->
  (a ++ b)%string = (a' ++ b')%string -> a = a' /\ b = b'.
Proof.
  revert a'. induction a as [|c a IH]; intros [|c' a'] Hlen H;
    cbn in *; try discriminate.
  - now split.
  - injection H as -> H. injection Hlen as Hlen.
    destruct (IH a' Hlen H) as [-> ->]. now split.
Qed.

Lemma keyEndToEndInboundGroupSession_inj k s k' s' :
  String.length k' = String.length k ->
  keyEndToEndInboundGroupSession k' s' = keyEndToEndInboundGroupSession k s ->
  k' = k /\ s' = s.
Proof.
  intros Hlen H. unfold keyEndToEndInboundGroupSession in H.
  rewrite !append_assoc in H.
  apply append_inj_length in H as [_ H]; [|reflexivity].
  apply append_inj_length in H as [Hk H]; [|exact Hlen].
  split; [exact Hk|]. now injection H.
Qed.

Lemma inbound_key_not_withheld k s k' s' :
  String.eqb (keyEndToEndInboundGroupSession k s)
    (keyEndToEndInboundGroupSessionWithheld k' s') = false.
Proof. reflexivity. Qed.

(** An inbound group session stored is the one read, and deleting it
    leaves [null]; the withheld record under the same sender key and
    session id, the second value of [getEndToEndInboundGroupSession], is
    the same before the store, after it and after the delete.  A session
    under another sender key and session id, with a sender key of the same
    length, reads as before throughout. *)
Theorem storeEndToEndInboundGroupSession_then_get_and_delete
    (w : World) (senderKey0 sessionId0 : string) (sessionData0 : json) :
  json_wf sessionData0 = true ->
  let w' :=
    snd (storeEndToEndInboundGroupSession senderKey0 sessionId0 sessionData0 w)
  in
  let w'' :=
    snd (deleteEndToEndInboundGroupSessionsBatch [(senderKey0, sessionId0)] w')
  in
  exists earlier withheld,
    fst (getEndToEndInboundGroupSession senderKey0 sessionId0 w)
    = Return (earlier, withheld)
    /\ fst (getEndToEndInboundGroupSession senderKey0 sessionId0 w')
       = Return (sessionData0, withheld)
    /\ fst (getEndToEndInboundGroupSession senderKey0 sessionId0 w'')
       = Return (JNull, withheld)
    /\ (forall senderKey1 sessionId1,
          String.length senderKey1 = String.length senderKey0 ->
          (senderKey1, sessionId1) <> (senderKey0, sessionId0) ->
          fst (getEndToEndInboundGroupSession senderKey1 sessionId1 w')
          = fst (getEndToEndInboundGroupSession senderKey1 sessionId1 w)
          /\ fst (getEndToEndInboundGroupSession senderKey1 sessionId1 w'')
             = fst (getEndToEndInboundGroupSession senderKey1 sessionId1 w)).
Proof.
  intros Hwf. cbv zeta.
  exists (decode (storage w)
            (keyEndToEndInboundGroupSession senderKey0 sessionId0)),
         (decode (storage w)
            (keyEndToEndInboundGroupSessionWithheld senderKey0 sessionId0)).
  rewrite !(reads_fst _ _ _ (reads_getEndToEndInboundGroupSession _ _)).
  unfold storeEndToEndInboundGroupSession,
    deleteEndToEndInboundGroupSessionsBatch.
  cbn [for_of setJsonItem setItem removeItem bind ret snd storage].
  split; [reflexivity|]. split; [|split].
  - rewrite decode_set_stringify by exact Hwf.
    now rewrite decode_set, inbound_key_not_withheld.
  - rewrite !decode_remove, String.eqb_refl, inbound_key_not_withheld.
    now rewrite decode_set, inbound_key_not_withheld.
  - intros senderKey1 sessionId1 Hlen Hne.
    assert (E : String.eqb
                  (keyEndToEndInboundGroupSession senderKey0 sessionId0)
                  (keyEndToEndInboundGroupSession senderKey1 sessionId1)
                = false).
    { apply String.eqb_neq. intros H. symmetry in H.
      apply keyEndToEndInboundGroupSession_inj in H as [-> ->];
        [now apply Hne|exact Hlen]. }
    rewrite !(reads_fst _ _ _ (reads_getEndToEndInboundGroupSession _ _)).
    cbn [snd storage].
    rewrite !decode_remove, !decode_set, E, !inbound_key_not_withheld.
    now split.
Qed.

(** *** A store without data *)

Lemma startsWith_shorter k p q :
  startsWith k (p ++ q) = true -> startsWith k p = true.
Proof.
  revert k. induction p as [|c p IH]; intros k H; [reflexivity|].
  destruct k as [|d k]; cbn in *; [discriminate|].
  apply andb_true_iff in H as [H1 H2]. rewrite H1. now apply IH.
Qed.

Lemma filter_none {X} (p : X -> bool) l :
  (forall x, In x l -> p x = false) -> filter p l = [].
Proof.
  intros H. induction l as [|x l IH]; [reflexivity|].
  cbn [filter]. rewrite (H x) by now left.
  apply IH. intros y Hy. apply H. now right.
Qed.

Lemma existsb_none {X} (p : X -> bool) l :
  existsb p l = false -> forall x, In x l -> p x = false.
Proof.
  intros H x Hx. destruct (p x) eqn:E; [|reflexivity].
  rewrite <- H. symmetry. apply existsb_exists. now exists x.
Qed.

(** When [containsData] returns false, the store is empty to every read:
    keys of other users of the storage, which do not start with the
    prefix, are not taken for records.  The migration has not started,
    both counts are 0, both batches are [null], a session of a device is
    what the empty object has under the session id, the empty object for
    every session id that is not the name of a member of
    [Object.prototype] and that member for one that is, the sessions of a
    device and the rooms are the empty object, and an inbound group
    session, the account, the cross-signing keys and a key of the secret
    storage are [null]. *)
Theorem containsData_false_reads_defaults (w : World) :
  fst (containsData w) = Return false ->
  fst (getMigrationState w) = Return (JNum NOT_STARTED)
  /\ fst (countEndToEndSessions w) = Return 0
  /\ (forall deviceKey sessionId0,
        fst (getEndToEndSession deviceKey sessionId0 w)
        = Return (or_empty (Object_prototype_get ObjectPrototype sessionId0)))
  /\ (forall deviceKey sessionId0,
        Object_prototype_has sessionId0 = false ->
        fst (getEndToEndSession deviceKey sessionId0 w) = Return (JObj []))
  /\ (forall deviceKey,
        fst (getEndToEndSessions deviceKey w) = Return (JObj []))
  /\ fst (getEndToEndSessionsBatch w) = Return None
  /\ (forall senderKey0 sessionId0,
        fst (getEndToEndInboundGroupSession senderKey0 sessionId0 w)
        = Return (JNull, JNull))
  /\ fst (countEndToEndInboundGroupSessions w) = Return 0
  /\ fst (getEndToEndInboundGroupSessionsBatch w) = Return None
  /\ fst (getEndToEndRooms w) = Return (JObj [])
  /\ fst (getAccount w) = Return JNull
  /\ fst (getCrossSigningKeys w) = Return JNull
  /\ (forall type, fst (getSecretStorePrivateKey type w) = Return JNull).
Proof.
  intros H. rewrite (reads_fst _ _ _ reads_containsData) in H.
  apply Return_inj in H.
  pose proof (existsb_none _ _ H) as Hkeys. cbv beta in Hkeys. clear H.
  assert (Hsub : forall q k,
             In k (alist_keys (storage w)) ->
             startsWith k (E2E_PREFIX ++ q) = false).
  { intros q k Hk. destruct (startsWith k (E2E_PREFIX ++ q)) eqn:E;
      [|reflexivity].
    apply startsWith_shorter in E. rewrite (Hkeys k Hk) in E. discriminate. }
  assert (Hnull : forall q, decode (storage w) (E2E_PREFIX ++ q) = JNull).
  { intros q. unfold decode.
    destruct (alist_get (storage w) (E2E_PREFIX ++ q)) eqn:E; [|reflexivity].
    apply alist_get_In_keys, Hkeys in E.
    now rewrite startsWith_prefix in E. }
  assert (Hsessions : forall deviceKey,
             session_object (storage w) deviceKey = empty_object).
  { intros deviceKey. unfold session_object, keyEndToEndSessions.
    now rewrite append_assoc, Hnull. }
  assert (Hinbound : inbound_keys (storage w) = []).
  { apply filter_none. intros k Hk. apply (Hsub "inboundgroupsessions/" k Hk). }
  repeat split.
  - rewrite (reads_fst _ _ _ reads_getMigrationState).
    unfold KEY_END_TO_END_MIGRATION_STATE. now rewrite Hnull.
  - rewrite (reads_fst _ _ _ reads_countEndToEndSessions). f_equal.
    apply list_sum_zero. intros k Hk. unfold sessions_under.
    unfold keyEndToEndSessions. rewrite append_assoc.
    now rewrite (Hsub _ k Hk).
  - intros deviceKey sessionId0.
    rewrite (reads_fst _ _ _ (reads_getEndToEndSession _ _)).
    now rewrite Hsessions.
  - intros deviceKey sessionId0 Hs.
    rewrite (reads_fst _ _ _ (reads_getEndToEndSession _ _)).
    rewrite Hsessions. unfold js_get, Object_prototype_get.
    cbn [own proto empty_object alist_get]. rewrite Hs.
    destruct (String.eqb sessionId0 "__proto__") eqn:E; [|reflexivity].
    apply String.eqb_eq in E. now subst.
  - intros deviceKey.
    rewrite (reads_fst _ _ _ (reads_getEndToEndSessions _)).
    now rewrite Hsessions.
  - rewrite getEndToEndSessionsBatch_first.
    replace (flat_map (batch_under (storage w)) (alist_keys (storage w)))
      with (@nil json); [reflexivity|].
    symmetry. apply flat_map_nil. intros k Hk. unfold batch_under.
    unfold keyEndToEndSessions. rewrite append_assoc.
    now rewrite (Hsub _ k Hk).
  - intros senderKey0 sessionId0.
    rewrite (reads_fst _ _ _ (reads_getEndToEndInboundGroupSession _ _)).
    unfold keyEndToEndInboundGroupSession,
      keyEndToEndInboundGroupSessionWithheld, KEY_INBOUND_SESSION_PREFIX,
      KEY_INBOUND_SESSION_WITHHELD_PREFIX.
    now rewrite !append_assoc, !Hnull.
  - rewrite (reads_fst _ _ _ reads_countEndToEndInboundGroupSessions).
    now rewrite Hinbound.
  - rewrite getEndToEndInboundGroupSessionsBatch_first.
    + now rewrite inbound_sessions_keys, Hinbound.
    + unfold index_ok, KEY_SESSIONS_NEEDING_BACKUP. now rewrite Hnull.
  - rewrite (reads_fst _ _ _ reads_getEndToEndRooms). do 2 f_equal.
    unfold rooms_of. rewrite filter_none; [reflexivity|].
    intros k Hk. apply (Hsub "rooms/" k Hk).
  - unfold getAccount. rewrite (reads_fst _ _ _ (reads_getJsonItem _)).
    unfold KEY_END_TO_END_ACCOUNT. now rewrite Hnull.
  - unfold getCrossSigningKeys.
    rewrite (reads_fst _ _ _ (reads_getJsonItem _)).
    unfold KEY_CROSS_SIGNING_KEYS. now rewrite Hnull.
  - intros type. unfold getSecretStorePrivateKey.
    rewrite (reads_fst _ _ _ (reads_getJsonItem _)).
    unfold keySecretStorePrivateKey. now rewrite Hnull.
Qed.

Lemma length_filter_out key (keys : list string) :
  NoDup keys ->
  List.length (filter (fun k => negb (String.eqb k key)) keys)
  + (if existsb (String.eqb key) keys then 1 else 0)
  = List.length keys.
Proof.
  intros Hn.
  pose proof (list_sum_filter_out (fun _ => 1) key keys Hn) as H.
  assert (Hl : forall l : list string,
             list_sum (map (fun _ => 1) l) = List.length l).
  { induction l as [|x l IH]; [reflexivity|].
    cbn [map List.length]. now rewrite list_sum_cons, IH. }
  now rewrite !Hl in H.
Qed.

(** [countEndToEndInboundGroupSessions] follows the writes.  In a storage
    whose keys are distinct, as the keys of [localStorage] are, storing a
    session under a sender key and session id that the storage does not
    have makes the count one more, and storing under a sender key and
    session id that it has leaves the count; deleting a session that the
    storage has makes the count one less, and deleting one that it does
    not have leaves the count. *)
Theorem countEndToEndInboundGroupSessions_follows_store_and_delete
    (w : World) (senderKey0 sessionId0 : string) (sessionData0 : json) :
  NoDup (alist_keys (storage w)) ->
  let known :=
    alist_has (storage w)
      (keyEndToEndInboundGroupSession senderKey0 sessionId0) in
  exists n,
    fst (countEndToEndInboundGroupSessions w) = Return n
    /\ fst (countEndToEndInboundGroupSessions
              (snd (storeEndToEndInboundGroupSession senderKey0 sessionId0
                      sessionData0 w)))
       = Return (if known then n else S n)
    /\ fst (countEndToEndInboundGroupSessions
              (snd (deleteEndToEndInboundGroupSessionsBatch
                      [(senderKey0, sessionId0)] w)))
       = Return (if known then n - 1 else n).
Proof.
  intros Hn. cbv zeta. exists (List.length (inbound_keys (storage w))).
  rewrite !(reads_fst _ _ _ reads_countEndToEndInboundGroupSessions).
  unfold storeEndToEndInboundGroupSession,
    deleteEndToEndInboundGroupSessionsBatch.
  cbn [for_of setJsonItem setItem removeItem bind ret snd storage].
  set (key := keyEndToEndInboundGroupSession senderKey0 sessionId0).
  assert (Hkey : is_inbound_key key = true) by reflexivity.
  assert (Hknown : alist_has (storage w) key
                   = existsb (String.eqb key) (inbound_keys (storage w))).
  { rewrite alist_has_keys. unfold inbound_keys.
    now rewrite existsb_filter_eqb. }
  split; [reflexivity|]. split; f_equal.
  - unfold inbound_keys. rewrite alist_keys_set, <- alist_has_keys.
    destruct (alist_has (storage w) key); [reflexivity|].
    rewrite filter_app, length_app. cbn [filter]. rewrite Hkey.
    cbn [List.length]. lia.
  - unfold inbound_keys at 1. rewrite alist_keys_remove, filter_comm.
    fold (inbound_keys (storage w)).
    pose proof (length_filter_out key (inbound_keys (storage w))
                  (NoDup_filter _ Hn)) as H.
    rewrite Hknown.
    destruct (existsb (String.eqb key) (inbound_keys (storage w))); lia.
Qed.

(** *** Text that does not parse, and every read *)

(** C9, as the code has it.  For a key whose text [JSON.parse] rejects,
    [getJsonItem] logs the failure and returns [null], which is what it
    returns for an absent key, and it never raises.  The reads that decode
    records give what they would give without the key: the migration
    state, the account, the cross-signing keys, a secret-store key, an
    inbound group session with its withheld record, one session or all
    sessions of a device, the count of Olm sessions, and the batch of Olm
    sessions when the key is not a device key with a slash.  The reads
    that go by the names of the keys still see the key: [containsData]
    returns true for it; in a storage whose keys are distinct,
    [countEndToEndInboundGroupSessions] returns one more than without it;
    [getEndToEndRooms] returns an object that has [null] for the room,
    where the room id is not [__proto__]; the batch of inbound group
    sessions has an element for it whose data is [null], where the
    sessions fit one batch.  No read raises: [containsData], the count of
    inbound group sessions and the rooms always return, and the batch of
    inbound group sessions returns when the backup index is not a
    primitive value. *)
Theorem unreadable_text_reads_as_null
    (w : World) (key text : string) (e : Exn) :
  alist_get (storage w) key = Some text ->
  JSON_parse text = inr e ->
  let w' := without key w in
  getJsonItem key w
  = (Return JNull,
     mkWorld (storage w)
       (logs w ++ [LogFailedToGetKey key (message e); LogStack (stack e)])%list)
  /\ getJsonItem key w' = (Return JNull, w')
  /\ (forall k, fst (getJsonItem k w) = fst (getJsonItem k w'))
  /\ (forall k w0, exists v, fst (getJsonItem k w0) = Return v)
  /\ fst (getMigrationState w) = fst (getMigrationState w')
  /\ fst (getAccount w) = fst (getAccount w')
  /\ fst (getCrossSigningKeys w) = fst (getCrossSigningKeys w')
  /\ (forall t, fst (getSecretStorePrivateKey t w)
                = fst (getSecretStorePrivateKey t w'))
  /\ (forall k s, fst (getEndToEndInboundGroupSession k s w)
                  = fst (getEndToEndInboundGroupSession k s w'))
  /\ (forall d s, fst (getEndToEndSession d s w)
                  = fst (getEndToEndSession d s w'))
  /\ (forall d, fst (getEndToEndSessions d w) = fst (getEndToEndSessions d w'))
  /\ fst (countEndToEndSessions w) = fst (countEndToEndSessions w')
  /\ (plain_device_key key = true ->
      fst (getEndToEndSessionsBatch w) = fst (getEndToEndSessionsBatch w'))
  /\ (forall w0, exists b, fst (containsData w0) = Return b)
  /\ (startsWith key E2E_PREFIX = true -> fst (containsData w) = Return true)
  /\ (forall w0, exists n,
        fst (countEndToEndInboundGroupSessions w0) = Return n)
  /\ (is_inbound_key key = true ->
      NoDup (alist_keys (storage w)) ->
      exists n,
        fst (countEndToEndInboundGroupSessions w') = Return n
        /\ fst (countEndToEndInboundGroupSessions w) = Return (S n))
  /\ (forall w0, exists rooms, fst (getEndToEndRooms w0) = Return rooms)
  /\ (is_room_key key = true ->
      room_of key <> "__proto__" ->
      exists rooms,
        fst (getEndToEndRooms w) = Return (as_value rooms)
        /\ alist_get (own rooms) (room_of key) = Some JNull)
  /\ (forall w0, index_ok (storage w0) = true ->
        exists batch,
          fst (getEndToEndInboundGroupSessionsBatch w0) = Return batch)
  /\ (is_inbound_key key = true ->
      index_ok (storage w) = true ->
      List.length (inbound_keys (storage w)) <= SESSION_BATCH_SIZE ->
      exists batch,
        fst (getEndToEndInboundGroupSessionsBatch w) = Return (Some batch)
        /\ In (session_at (storage w) key) batch
        /\ sessionData (session_at (storage w) key) = JNull).
Proof.
  intros Hget Hparse w'.
  assert (Hnull : decode (storage w) key = JNull)
    by (eapply decode_unreadable; eassumption).
  assert (Hdec : forall k, decode (storage w') k = decode (storage w) k)
    by (intros k; apply decode_without, Hnull).
  assert (Hitem : forall k, fst (getJsonItem k w) = fst (getJsonItem k w')).
  { intros k. rewrite !(reads_fst _ _ _ (reads_getJsonItem k)).
    now rewrite Hdec. }
  split.
  { unfold getJsonItem, bind, getItem. rewrite Hget, Hparse.
    cbn. now rewrite <- app_assoc. }
  split.
  { unfold getJsonItem, bind, getItem. cbn [storage without w'].
    now rewrite alist_get_remove, String.eqb_refl. }
  split; [exact Hitem|].
  split; [intros k w0; apply returns_getJsonItem|].
  split.
  { rewrite !(reads_fst _ _ _ reads_getMigrationState). now rewrite Hdec. }
  split; [apply Hitem|]. split; [apply Hitem|].
  split; [intros t; apply Hitem|].
  split.
  { intros k s.
    rewrite !(reads_fst _ _ _ (reads_getEndToEndInboundGroupSession k s)).
    now rewrite !Hdec. }
  split.
  { intros d s. rewrite !(reads_fst _ _ _ (reads_getEndToEndSession d s)).
    cbn [storage without w']. now rewrite session_object_without. }
  split.
  { intros d. rewrite !(reads_fst _ _ _ (reads_getEndToEndSessions d)).
    cbn [storage without w']. now rewrite session_object_without. }
  split.
  { rewrite !(reads_fst _ _ _ reads_countEndToEndSessions).
    cbn [storage without w']. rewrite alist_keys_remove. f_equal.
    rewrite <- (list_sum_without (sessions_under (storage w)) key)
      by now apply sessions_under_unreadable.
    f_equal. apply map_ext. intros k. unfold sessions_under.
    now rewrite decode_without. }
  split.
  { intros Hplain.
    rewrite !(reads_fst _ _ _ reads_getEndToEndSessionsBatch).
    cbn [storage without w']. rewrite alist_keys_remove. do 3 f_equal.
    rewrite <- (flat_map_without (batch_under (storage w)) key)
      by now apply batch_under_unreadable.
    apply flat_map_ext. intros k. unfold batch_under.
    now rewrite sessions_of_without. }
  assert (Hkey : In key (alist_keys (storage w)))
    by (eapply alist_get_In_keys; exact Hget).
  split; [exact returns_exists_|].
  split.
  { intros Hp. rewrite (reads_fst _ _ _ reads_containsData). f_equal.
    apply existsb_exists. now exists key. }
  split; [exact returns_countEndToEndInboundGroupSessions|].
  split.
  { intros Hin Hn. eexists. split;
      [apply (reads_fst _ _ _ reads_countEndToEndInboundGroupSessions)|].
    rewrite (reads_fst _ _ _ reads_countEndToEndInboundGroupSessions).
    f_equal. cbn [storage without w'].
    unfold inbound_keys at 2. rewrite alist_keys_remove, filter_comm.
    fold (inbound_keys (storage w)).
    pose proof (length_filter_out key (inbound_keys (storage w))
                  (NoDup_filter _ Hn)) as H.
    replace (existsb (String.eqb key) (inbound_keys (storage w))) with true
      in H; [lia|].
    symmetry. apply existsb_eqb_In, filter_In. now split. }
  split; [exact returns_getEndToEndRooms|].
  split.
  { intros Hin Hp. exists (rooms_of (storage w)).
    split; [apply (reads_fst _ _ _ reads_getEndToEndRooms)|].
    unfold rooms_of. rewrite rooms_fold_get.
    - rewrite <- (room_key_of key Hin), Hnull.
      replace (existsb (String.eqb key) _) with true; [reflexivity|].
      symmetry. apply existsb_eqb_In, filter_In. now split.
    - intros k Hk. apply filter_In in Hk. apply Hk.
    - now apply String.eqb_neq. }
  split.
  { intros w0 Hok.
    rewrite getEndToEndInboundGroupSessionsBatch_first by exact Hok.
    now eexists. }
  intros Hin Hok Hfit.
  assert (Hat : In (session_at (storage w) key) (inbound_sessions (storage w))).
  { rewrite inbound_sessions_keys. apply in_map, filter_In. now split. }
  rewrite getEndToEndInboundGroupSessionsBatch_first by exact Hok.
  destruct (inbound_sessions (storage w)) eqn:E; [destruct Hat|].
  eexists. split; [reflexivity|]. split.
  - rewrite firstn_all2; [exact Hat|].
    rewrite <- E, inbound_sessions_keys, length_map. lia.
  - unfold session_at. cbn [sessionData]. exact Hnull.
Qed.

(** *** Reads change with the writes of their own records only *)

Lemma list_sum_support (g : string -> nat) (p : string -> bool) keys :
  (forall k, p k = false -> g k = 0) ->
  list_sum (map g keys) = list_sum (map g (filter p keys)).
Proof.
  intros H. induction keys as [|k keys IH]; [reflexivity|].
  cbn [map filter]. rewrite list_sum_cons.
  destruct (p k) eqn:E.
  - cbn [map]. now rewrite list_sum_cons, IH.
  - now rewrite (H k E), IH.
Qed.

Lemma flat_map_support {X} (g : string -> list X) (p : string -> bool) keys :
  (forall k, p k = false -> g k = []) ->
  flat_map g keys = flat_map g (filter p keys).
Proof.
  intros H. induction keys as [|k keys IH]; [reflexivity|].
  cbn [flat_map filter]. destruct (p k) eqn:E.
  - cbn [flat_map]. now rewrite IH.
  - now rewrite (H k E), IH.
Qed.

Lemma session_object_agree st st' deviceKey :
  alist_get st' (keyEndToEndSessions deviceKey)
  = alist_get st (keyEndToEndSessions deviceKey) ->
  session_object st' deviceKey = session_object st deviceKey.
Proof.
  intros H. unfold session_object. now rewrite (decode_agree _ _ _ H).
Qed.

Lemma sessions_key_is deviceKey :
  is_sessions_key (keyEndToEndSessions deviceKey) = true.
Proof. apply startsWith_prefix. Qed.

(** The reads of the sessions of devices see the keys of sessions only. *)
Lemma sessions_reads_agree w w' :
  (forall k, is_sessions_key k = true ->
             alist_get (storage w') k = alist_get (storage w) k) ->
  filter is_sessions_key (alist_keys (storage w'))
  = filter is_sessions_key (alist_keys (storage w)) ->
  fst (countEndToEndSessions w') = fst (countEndToEndSessions w)
  /\ fst (getEndToEndSessionsBatch w') = fst (getEndToEndSessionsBatch w)
  /\ (forall deviceKey sessionId0,
        fst (getEndToEndSession deviceKey sessionId0 w')
        = fst (getEndToEndSession deviceKey sessionId0 w))
  /\ (forall deviceKey,
        fst (getEndToEndSessions deviceKey w')
        = fst (getEndToEndSessions deviceKey w)).
Proof.
  intros Hget Hkeys.
  assert (Hs : forall deviceKey,
             session_object (storage w') deviceKey
             = session_object (storage w) deviceKey)
    by (intros d; apply session_object_agree, Hget, sessions_key_is).
  split; [|split; [|split]].
  - rewrite !(reads_fst _ _ _ reads_countEndToEndSessions). f_equal.
    rewrite (list_sum_support (sessions_under (storage w')) is_sessions_key),
      (list_sum_support (sessions_under (storage w)) is_sessions_key).
    + rewrite Hkeys. apply list_sum_agree. intros k Hk.
      apply sessions_under_agree, Hget. apply filter_In in Hk. apply Hk.
    + intros k Hk. unfold sessions_under. unfold is_sessions_key in Hk.
      now rewrite Hk.
    + intros k Hk. unfold sessions_under. unfold is_sessions_key in Hk.
      now rewrite Hk.
  - rewrite !(reads_fst _ _ _ reads_getEndToEndSessionsBatch). do 3 f_equal.
    rewrite (flat_map_support (batch_under (storage w')) is_sessions_key),
      (flat_map_support (batch_under (storage w)) is_sessions_key).
    + rewrite Hkeys. apply flat_map_agree. intros k Hk.
      unfold batch_under, sessions_of. now rewrite Hs.
    + intros k Hk. unfold batch_under. unfold is_sessions_key in Hk.
      now rewrite Hk.
    + intros k Hk. unfold batch_under. unfold is_sessions_key in Hk.
      now rewrite Hk.
  - intros deviceKey sessionId0.
    rewrite !(reads_fst _ _ _ (reads_getEndToEndSession _ _)).
    now rewrite Hs.
  - intros deviceKey.
    rewrite !(reads_fst _ _ _ (reads_getEndToEndSessions _)).
    now rewrite Hs.
Qed.

Lemma touched_not_sessions c k :
  writes_sessions c = false -> In k (touched c) -> is_sessions_key k = false.
Proof.
  destruct c; cbn [writes_sessions touched In]; intros Hc Hin;
    first
      [ discriminate Hc
      | contradiction
      | destruct Hin as [<-|[]]; reflexivity
      | apply in_map_iff in Hin as [x [<- _]]; reflexivity ].
Qed.

Lemma touched_not_inbound c k :
  writes_inbound c = false -> In k (touched c) -> is_inbound_key k = false.
Proof.
  destruct c; cbn [writes_inbound touched In]; intros Hc Hin;
    first
      [ discriminate Hc
      | contradiction
      | destruct Hin as [<-|[]]; reflexivity
      | apply in_map_iff in Hin as [x [<- _]]; reflexivity ].
Qed.

Lemma scan_keys_inbound_support index st keys result :
  scan_keys (inbound_round index st) keys result
  = scan_keys (inbound_round index st) (filter is_inbound_key keys) result.
Proof.
  revert result. induction keys as [|k keys IH]; intros result;
    [reflexivity|].
  cbn [filter scan_keys]. unfold inbound_round at 1, is_inbound_key at 1.
  destruct (startsWith k KEY_INBOUND_SESSION_PREFIX) eqn:E; [|apply IH].
  cbn [scan_keys]. unfold inbound_round at 2. rewrite E. cbv zeta.
  destruct (in_index _ index) as [flag|e]; [|reflexivity].
  destruct (push_batch _ result); [apply IH|reflexivity].
Qed.

Lemma scan_keys_agree {A R} (g g' : option string -> A -> outcome (step A R))
    keys acc :
  (forall k a, In k keys -> g (Some k) a = g' (Some k) a) ->
  scan_keys g keys acc = scan_keys g' keys acc.
Proof.
  revert acc. induction keys as [|k keys IH]; intros acc H; [reflexivity|].
  cbn [scan_keys]. rewrite (H k acc) by now left.
  destruct (g' (Some k) acc) as [[acc'|r]|e]; try reflexivity.
  apply IH. intros k' a Hk'. apply H. now right.
Qed.

(** The batch of inbound group sessions sees the keys of inbound group
    sessions and the index only. *)
Lemma inbound_batch_agree w w' :
  alist_get (storage w') KEY_SESSIONS_NEEDING_BACKUP
  = alist_get (storage w) KEY_SESSIONS_NEEDING_BACKUP ->
  (forall k, is_inbound_key k = true ->
             alist_get (storage w') k = alist_get (storage w) k) ->
  inbound_keys (storage w') = inbound_keys (storage w) ->
  fst (getEndToEndInboundGroupSessionsBatch w')
  = fst (getEndToEndInboundGroupSessionsBatch w).
Proof.
  intros Hidx Hget Hkeys.
  rewrite !(reads_fst _ _ _ reads_getEndToEndInboundGroupSessionsBatch).
  rewrite (decode_agree _ _ _ Hidx).
  set (index := or_empty_object
                  (decode (storage w) KEY_SESSIONS_NEEDING_BACKUP)).
  rewrite (scan_keys_inbound_support index (storage w')),
    (scan_keys_inbound_support index (storage w)).
  fold (inbound_keys (storage w')). fold (inbound_keys (storage w)).
  rewrite Hkeys.
  rewrite (scan_keys_agree
             (inbound_round index (storage w'))
             (inbound_round index (storage w)));
    [reflexivity|].
  intros k a Hk. unfold inbound_round.
  apply filter_In in Hk as [_ Hk].
  now rewrite (decode_agree _ _ _ (Hget k Hk)).
Qed.

Lemma decode_after_exec c w key :
  (forall k, In k (touched c) -> String.eqb k key = false) ->
  decode (storage (snd (exec c w))) key = decode (storage w) key.
Proof.
  intros H. apply decode_agree, (changed_get _ _ _ _ (exec_changed c w)).
  intros Hin. apply H in Hin. now rewrite String.eqb_refl in Hin.
Qed.

Lemma getJsonItem_after_exec c w key :
  (forall k, In k (touched c) -> String.eqb k key = false) ->
  fst (getJsonItem key (snd (exec c w))) = fst (getJsonItem key w).
Proof.
  intros H. rewrite !(reads_fst _ _ _ (reads_getJsonItem _)).
  f_equal. now apply decode_after_exec.
Qed.

(** A read returns what it returned before a call, unless the call is a
    method that writes the records that the read is about.  The reads of
    the sessions of devices change with [storeEndToEndSession] and
    [deleteEndToEndSessionsBatch] only; the reads of inbound group
    sessions with [storeEndToEndInboundGroupSession] and
    [deleteEndToEndInboundGroupSessionsBatch] only, and the flags of their
    batch with [markSessionsNeedingBackup] besides; [getAccount] with
    [storeAccount] and [deleteAllData] only; [getMigrationState] with
    [setMigrationState] only; [getSecretStorePrivateKey] with
    [storeSecretStorePrivateKey] only. *)
Theorem exec_changes_reads_of_own_records_only (c : Call) (w : World) :
  let w' := snd (exec c w) in
  (writes_sessions c = false ->
   fst (countEndToEndSessions w') = fst (countEndToEndSessions w)
   /\ fst (getEndToEndSessionsBatch w') = fst (getEndToEndSessionsBatch w)
   /\ (forall deviceKey sessionId0,
         fst (getEndToEndSession deviceKey sessionId0 w')
         = fst (getEndToEndSession deviceKey sessionId0 w))
   /\ (forall deviceKey,
         fst (getEndToEndSessions deviceKey w')
         = fst (getEndToEndSessions deviceKey w)))
  /\ (writes_inbound c = false ->
      fst (countEndToEndInboundGroupSessions w')
      = fst (countEndToEndInboundGroupSessions w)
      /\ (forall senderKey0 sessionId0,
            fst (getEndToEndInboundGroupSession senderKey0 sessionId0 w')
            = fst (getEndToEndInboundGroupSession senderKey0 sessionId0 w))
      /\ match c with
         | CallMarkSessionsNeedingBackup _ => True
         | _ =>
             fst (getEndToEndInboundGroupSessionsBatch w')
             = fst (getEndToEndInboundGroupSessionsBatch w)
         end)
  /\ match c with
     | CallStoreAccount _ | CallDeleteAllData => True
     | _ => fst (getAccount w') = fst (getAccount w)
     end
  /\ match c with
     | CallSetMigrationState _ => True
     | _ => fst (getMigrationState w') = fst (getMigrationState w)
     end
  /\ match c with
     | CallStoreSecretStorePrivateKey _ _ => True
     | _ =>
         forall type,
           fst (getSecretStorePrivateKey type w')
           = fst (getSecretStorePrivateKey type w)
     end.
Proof.
  cbv zeta. pose proof (exec_changed c w) as H.
  split; [|split; [|split; [|split]]].
  - intros Hc. apply sessions_reads_agree.
    + intros k Hk. apply (changed_get _ _ _ _ H). intros Hin.
      apply (touched_not_sessions c k Hc) in Hin. congruence.
    + apply (changed_filter _ _ _ _ H). intros k.
      apply (touched_not_sessions c k Hc).
  - intros Hc.
    assert (Hin : forall k, is_inbound_key k = true ->
                    alist_get (storage (snd (exec c w))) k
                    = alist_get (storage w) k).
    { intros k Hk. apply (changed_get _ _ _ _ H). intros Hin.
      apply (touched_not_inbound c k Hc) in Hin. congruence. }
    assert (Hkeys : inbound_keys (storage (snd (exec c w)))
                    = inbound_keys (storage w)).
    { apply (changed_filter _ _ _ _ H). intros k.
      apply (touched_not_inbound c k Hc). }
    split; [|split].
    + rewrite !(reads_fst _ _ _ reads_countEndToEndInboundGroupSessions).
      now rewrite Hkeys.
    + intros senderKey0 sessionId0.
      rewrite !(reads_fst _ _ _ (reads_getEndToEndInboundGroupSession _ _)).
      do 2 f_equal.
      * apply decode_agree, Hin. reflexivity.
      * apply decode_agree, exec_keeps_unwritten. right; right. reflexivity.
    + assert (Hbatch :
        ~ In KEY_SESSIONS_NEEDING_BACKUP (touched c) ->
        fst (getEndToEndInboundGroupSessionsBatch (snd (exec c w)))
        = fst (getEndToEndInboundGroupSessionsBatch w)).
      { intros Hidx. apply inbound_batch_agree; [|exact Hin|exact Hkeys].
        apply (changed_get _ _ _ _ H), Hidx. }
      destruct c; try exact I; apply Hbatch; cbn [touched In];
        first
          [ tauto
          | intros [E|[]]; discriminate E
          | intros Hk; apply in_map_iff in Hk as [x [E _]]; discriminate E
          | discriminate Hc ].
  - destruct c; try exact I; unfold getAccount;
      apply getJsonItem_after_exec; cbn [touched In]; intros k Hk;
      first
        [ contradiction
        | destruct Hk as [<-|[]]; reflexivity
        | apply in_map_iff in Hk as [x [<- _]]; reflexivity ].
  - destruct c; try exact I;
      rewrite !(reads_fst _ _ _ reads_getMigrationState); do 2 f_equal;
      apply decode_after_exec; cbn [touched In]; intros k Hk;
      first
        [ contradiction
        | destruct Hk as [<-|[]]; reflexivity
        | apply in_map_iff in Hk as [x [<- _]]; reflexivity ].
  - destruct c; try exact I; intros t; unfold getSecretStorePrivateKey;
      apply getJsonItem_after_exec; cbn [touched In]; intros k Hk;
      first
        [ contradiction
        | destruct Hk as [<-|[]]; reflexivity
        | apply in_map_iff in Hk as [x [<- _]]; reflexivity ].
Qed.

(** *** The log *)

Lemma quiet_ret {A} (a : A) : quiet (ret a).
Proof. now intros w _. Qed.

Lemma quiet_throw {A} e : quiet (@throw A e).
Proof. now intros w _. Qed.

Lemma quiet_bind {A B} (m : M A) (k : A -> M B) :
  quiet m -> (forall a, quiet (k a)) -> quiet (bind m k).
Proof.
  intros Hm Hk w Hw. unfold bind. specialize (Hm w Hw).
  destruct (m w) as [[a|e] w']; cbn [snd] in Hm; subst w';
    [now apply Hk|reflexivity].
Qed.

Lemma quiet_store_key i : quiet (store_key i).
Proof. now intros w _. Qed.

Lemma quiet_js_in k v : quiet (js_in k v).
Proof. destruct v; first [apply quiet_ret | apply quiet_throw]. Qed.

Lemma readable_get st key text :
  readable st = true -> startsWith key E2E_PREFIX = true ->
  alist_get st key = Some text ->
  exists v, JSON_parse text = inl v.
Proof.
  intros Hr Hp Hg. apply alist_get_In in Hg.
  unfold readable in Hr. rewrite forallb_forall in Hr.
  specialize (Hr _ Hg). cbn [fst snd] in Hr. rewrite Hp in Hr.
  cbn [negb orb] in Hr.
  destruct (JSON_parse text) as [v|e]; [now exists v|discriminate].
Qed.

Lemma quiet_getJsonItem key :
  startsWith key E2E_PREFIX = true -> quiet (getJsonItem key).
Proof.
  intros Hp w Hw. unfold getJsonItem, bind, getItem.
  destruct (alist_get (storage w) key) as [text|] eqn:E; [|reflexivity].
  destruct (readable_get _ _ _ Hw Hp E) as [v ->]. reflexivity.
Qed.

Lemma quiet_for_keys_from {A R} fuel i (body : nat -> A -> M (step A R)) acc :
  (forall i acc, quiet (body i acc)) -> quiet (for_keys_from fuel i body acc).
Proof.
  intros Hb. revert i acc. induction fuel as [|fuel IH]; intros i acc;
    [apply quiet_ret|].
  cbn [for_keys_from]. apply quiet_bind; [now intros w _|].
  intros n. destruct (Nat.ltb i n); [|apply quiet_ret].
  apply quiet_bind; [apply Hb|].
  intros [acc'|r]; [apply IH|apply quiet_ret].
Qed.

Lemma quiet_for_keys {A R} (body : nat -> A -> M (step A R)) acc :
  (forall i acc, quiet (body i acc)) -> quiet (for_keys body acc).
Proof.
  intros Hb. unfold for_keys. apply quiet_bind; [now intros w _|].
  intros n. now apply quiet_for_keys_from.
Qed.

Lemma quiet_effect {A} (m : M A) : quiet m -> quiet (effect m).
Proof. intros H. apply quiet_bind; [exact H|intros a; apply quiet_ret]. Qed.

Lemma quiet_exists_ : quiet exists_.
Proof.
  unfold exists_. apply quiet_bind; [now intros w _|].
  intros n. generalize (seq 0 n). intros indices.
  induction indices as [|i indices IH]; [apply quiet_ret|].
  cbn [exists_from]. apply quiet_bind; [apply quiet_store_key|].
  intros key. destruct (key_startsWith key E2E_PREFIX);
    [apply quiet_ret|exact IH].
Qed.

Lemma quiet__getEndToEndSessions deviceKey :
  quiet (_getEndToEndSessions deviceKey).
Proof.
  unfold _getEndToEndSessions. apply quiet_bind;
    [now apply quiet_getJsonItem|intros v; apply quiet_ret].
Qed.

Lemma quiet_countEndToEndSessions : quiet countEndToEndSessions.
Proof.
  unfold countEndToEndSessions. apply quiet_bind;
    [|intros s; apply quiet_ret].
  apply quiet_for_keys. intros i count.
  apply quiet_bind; [apply quiet_store_key|].
  intros [k|]; [|apply quiet_ret].
  destruct (startsWith k (keyEndToEndSessions "")) eqn:E; [|apply quiet_ret].
  apply quiet_bind; [|intros v; apply quiet_ret].
  apply quiet_getJsonItem, (startsWith_shorter k E2E_PREFIX "sessions/"), E.
Qed.

Lemma quiet_getEndToEndSessionsBatch : quiet getEndToEndSessionsBatch.
Proof.
  unfold getEndToEndSessionsBatch. apply quiet_bind;
    [|intros s; apply quiet_ret].
  apply quiet_for_keys. intros i result.
  apply quiet_bind; [apply quiet_store_key|].
  intros key. destruct (key_startsWith key (keyEndToEndSessions ""));
    [|apply quiet_ret].
  apply quiet_bind; [apply quiet_store_key|].
  intros [k|]; [|apply quiet_ret].
  apply quiet_bind; [apply quiet__getEndToEndSessions|].
  intros v. apply quiet_ret.
Qed.

Lemma quiet_getEndToEndInboundGroupSessionsBatch :
  quiet getEndToEndInboundGroupSessionsBatch.
Proof.
  unfold getEndToEndInboundGroupSessionsBatch.
  apply quiet_bind; [now apply quiet_getJsonItem|].
  intros stored. apply quiet_bind; [|intros s; apply quiet_ret].
  apply quiet_for_keys. intros i result.
  apply quiet_bind; [apply quiet_store_key|].
  intros [k|]; [|apply quiet_ret].
  destruct (startsWith k KEY_INBOUND_SESSION_PREFIX) eqn:E;
    [|apply quiet_ret].
  apply quiet_bind.
  - apply quiet_getJsonItem,
      (startsWith_shorter k E2E_PREFIX "inboundgroupsessions/"), E.
  - intros data. apply quiet_bind; [apply quiet_js_in|].
    intros flag. apply quiet_ret.
Qed.

Lemma quiet_getEndToEndRooms : quiet getEndToEndRooms.
Proof.
  unfold getEndToEndRooms. apply quiet_bind; [|intros s; apply quiet_ret].
  apply quiet_for_keys. intros i result.
  apply quiet_bind; [apply quiet_store_key|].
  intros [k|]; [|apply quiet_ret].
  destruct (startsWith k (keyEndToEndRoomsPrefix "")) eqn:E;
    [|apply quiet_ret].
  apply quiet_bind; [|intros v; apply quiet_ret].
  apply quiet_getJsonItem, (startsWith_shorter k E2E_PREFIX "rooms/"), E.
Qed.

Lemma quiet_countEndToEndInboundGroupSessions :
  quiet countEndToEndInboundGroupSessions.
Proof.
  unfold countEndToEndInboundGroupSessions. apply quiet_bind;
    [|intros s; apply quiet_ret].
  apply quiet_for_keys. intros i count.
  apply quiet_bind; [apply quiet_store_key|].
  intros key. destruct (key_startsWith key KEY_INBOUND_SESSION_PREFIX);
    apply quiet_ret.
Qed.

Lemma readable_set st key text v :
  JSON_parse text = inl v -> readable st = true ->
  readable (alist_set st key text) = true.
Proof.
  intros Hp. unfold readable. induction st as [|[k t] st IH]; cbn.
  - intros _. now rewrite Hp, orb_true_r.
  - intros H. apply andb_true_iff in H as [H1 H2].
    destruct (String.eqb k key); cbn.
    + rewrite Hp, orb_true_r. exact H2.
    + rewrite H1. now apply IH.
Qed.

Lemma readable_remove st key :
  readable st = true -> readable (alist_remove st key) = true.
Proof.
  unfold readable. induction st as [|[k t] st IH]; cbn; [reflexivity|].
  intros H. apply andb_true_iff in H as [H1 H2].
  destruct (String.eqb k key); cbn; [now apply IH|].
  rewrite H1. now apply IH.
Qed.

Lemma readable_delete_session st s :
  readable st = true -> readable (delete_session st s) = true.
Proof.
  intros H. unfold delete_session.
  destruct (sessions_of_wf st (fst s)) as (Hn & Hv & _).
  destruct (Nat.eqb _ 0); [now apply readable_remove|].
  eapply readable_set; [|exact H].
  apply JSON_parse_stringify, json_wf_object. split.
  - now apply alist_remove_NoDup.
  - now apply alist_remove_Forall.
Qed.

Lemma logs_deleteEndToEndSessionsBatch sessions w :
  readable (storage w) = true ->
  logs (snd (deleteEndToEndSessionsBatch sessions w)) = logs w.
Proof.
  unfold deleteEndToEndSessionsBatch. revert w.
  induction sessions as [|[d s] sessions IH]; intros w Hw; [reflexivity|].
  cbn [for_of]. unfold bind at 1. unfold bind at 1.
  pose proof (quiet__getEndToEndSessions d w Hw) as Hq.
  destruct (reads__getEndToEndSessions d w) as [l E].
  rewrite E in Hq |- *. cbn [snd] in Hq.
  pose proof (readable_delete_session (storage w) (d, s) Hw) as Hr.
  unfold delete_session in Hr. cbn [fst snd] in Hr.
  destruct (Nat.eqb _ 0).
  - unfold removeItem at 1. rewrite IH; [now rewrite Hq|].
    cbn [storage]. exact Hr.
  - unfold setJsonItem at 1, setItem at 1. rewrite IH; [now rewrite Hq|].
    cbn [storage]. exact Hr.
Qed.

Lemma logs_deleteEndToEndInboundGroupSessionsBatch sessions w :
  logs (snd (deleteEndToEndInboundGroupSessionsBatch sessions w)) = logs w.
Proof.
  destruct (writes_deleteEndToEndInboundGroupSessionsBatch sessions w)
    as [l E].
  unfold deleteEndToEndInboundGroupSessionsBatch in *. revert w l E.
  induction sessions as [|[k s] sessions IH]; intros w l E; [reflexivity|].
  cbn [for_of]. unfold bind, removeItem at 1.
  destruct (writes_deleteEndToEndInboundGroupSessionsBatch sessions
              (mkWorld (alist_remove (storage w)
                          (keyEndToEndInboundGroupSession k s)) (logs w)))
    as [l' E'].
  unfold deleteEndToEndInboundGroupSessionsBatch in E'.
  now rewrite (IH _ l' E').
Qed.

Lemma readable_fold_delete sessions st :
  readable st = true ->
  readable (fold_left delete_session sessions st) = true.
Proof.
  revert st. induction sessions as [|s sessions IH]; intros st H; [exact H|].
  cbn [fold_left]. now apply IH, readable_delete_session.
Qed.

Lemma readable_fold_remove {X} (key : X -> string) xs st :
  readable st = true ->
  readable (fold_left (fun st x => alist_remove st (key x)) xs st) = true.
Proof.
  revert st. induction xs as [|x xs IH]; intros st H; [exact H|].
  cbn [fold_left]. now apply IH, readable_remove.
Qed.

Lemma quiet_world {A} (m : M A) w :
  quiet m -> readable (storage w) = true ->
  snd (effect m w) = w.
Proof. intros Hq Hw. now apply quiet_effect. Qed.

(** The store logs nothing but the failures of [JSON.parse]: in a storage
    where every text under a key of the store parses, no method adds to
    the log, whatever it is called with; and the texts that the methods
    write parse, so that the storage stays such a storage, call after
    call. *)
Theorem exec_logs_only_unreadable_text (c : Call) (w : World) :
  readable (storage w) = true ->
  logs (snd (exec c w)) = logs w
  /\ (proper_call c = true -> readable (storage (snd (exec c w))) = true).
Proof.
  intros Hw.
  assert (Hread : forall A (m : M A),
             quiet m ->
             logs (snd (effect m w)) = logs w
             /\ (true = true -> readable (storage (snd (effect m w))) = true)).
  { intros A m Hq. rewrite (quiet_world m w Hq Hw). now split. }
  assert (Hset : forall key v,
             logs (snd (setJsonItem key v w)) = logs w
             /\ (json_wf v = true ->
                 readable (storage (snd (setJsonItem key v w))) = true)).
  { intros key v. split; [reflexivity|]. intros Hv.
    cbn [setJsonItem setItem snd storage].
    eapply readable_set; [|exact Hw]. now apply JSON_parse_stringify. }
  destruct c; cbn [exec proper_call].
  - apply Hread, quiet_exists_.
  - apply Hread. unfold getMigrationState.
    apply quiet_bind; [now apply quiet_getJsonItem|intros v; apply quiet_ret].
  - apply Hset.
  - apply Hread, quiet_countEndToEndSessions.
  - apply Hread. unfold getEndToEndSession.
    apply quiet_bind; [apply quiet__getEndToEndSessions|].
    intros v; apply quiet_ret.
  - apply Hread. unfold getEndToEndSessions.
    apply quiet_bind; [apply quiet__getEndToEndSessions|].
    intros v; apply quiet_ret.
  - unfold storeEndToEndSession, bind.
    pose proof (quiet__getEndToEndSessions deviceKey w Hw) as Hq.
    destruct (reads__getEndToEndSessions deviceKey w) as [l E].
    rewrite E in Hq |- *. cbn [snd] in Hq.
    cbn [setJsonItem setItem snd storage logs]. split.
    + now rewrite <- Hq at 2.
    + intros Hv. eapply readable_set; [|exact Hw].
      now apply JSON_parse_stringify, stored_sessions_wf.
  - apply Hread, quiet_getEndToEndSessionsBatch.
  - split; [now apply logs_deleteEndToEndSessionsBatch|]. intros _.
    destruct (writes_deleteEndToEndSessionsBatch sessions w) as [l ->].
    cbn [snd storage]. now apply readable_fold_delete.
  - apply Hread. unfold getEndToEndInboundGroupSession.
    apply quiet_bind; [now apply quiet_getJsonItem|].
    intros v. apply quiet_bind; [now apply quiet_getJsonItem|].
    intros v'. apply quiet_ret.
  - apply Hset.
  - apply Hread, quiet_countEndToEndInboundGroupSessions.
  - apply Hread, quiet_getEndToEndInboundGroupSessionsBatch.
  - split; [apply logs_deleteEndToEndInboundGroupSessionsBatch|]. intros _.
    destruct (writes_deleteEndToEndInboundGroupSessionsBatch sessions w)
      as [l ->].
    cbn [snd storage]. now apply readable_fold_remove.
  - apply Hread, quiet_getEndToEndRooms.
  - unfold markSessionsNeedingBackup, bind.
    pose proof (quiet_getJsonItem KEY_SESSIONS_NEEDING_BACKUP eq_refl w Hw)
      as Hq.
    destruct (reads_getJsonItem KEY_SESSIONS_NEEDING_BACKUP w) as [l E].
    rewrite E in Hq |- *. cbn [snd] in Hq.
    rewrite mark_each_mark_all.
    destruct (mark_all sessions _) as [index|e] eqn:Em;
      cbn [setJsonItem setItem snd storage logs].
    + split; [now rewrite <- Hq at 2|]. intros _.
      eapply readable_set; [|exact Hw].
      apply JSON_parse_stringify.
      apply (mark_all_wf _ _ _ (backup_flags_wf (storage w)) Em).
    + split; [now rewrite <- Hq at 2|]. intros _. exact Hw.
  - split; [reflexivity|]. intros _. now apply readable_remove.
  - apply Hread. now apply quiet_getJsonItem.
  - destruct (Hset KEY_END_TO_END_ACCOUNT (JStr accountPickle)) as [H1 H2].
    split; [exact H1|]. intros _. now apply H2.
  - apply Hread. now apply quiet_getJsonItem.
  - apply Hread. now apply quiet_getJsonItem.
  - apply Hset.
Qed.

(** *** The flag of a session in the batch *)

(** [needsBackup] tells whether the index of sessions needing backup has a
    property of the name of the session, the sender key, a slash and the
    session id, whatever the value of the property: a session named with
    the value [false] is reported as needing backup.  With an index that
    is an array, no session is reported as needing backup, whatever the
    array holds: [in] tests its indices, not its items. *)
Theorem needsBackup_is_presence_in_index
    (w : World) (batch : list SessionExtended) (e : SessionExtended) :
  forallb inbound_key_ok (inbound_keys (storage w)) = true ->
  fst (getEndToEndInboundGroupSessionsBatch w) = Return (Some batch) ->
  In e batch ->
  let name := backup_name (session_name e) in
  match or_empty_object (decode (storage w) KEY_SESSIONS_NEEDING_BACKUP) with
  | JObj props =>
      needsBackup e = alist_has props name
      /\ (forall v, alist_get props name = Some v -> needsBackup e = true)
  | JArr _ => needsBackup e = false
  | _ => False
  end.
Proof.
  intros Hkeys Hbatch He. cbv zeta.
  pose proof (batch_some_index_ok w batch Hbatch) as Hok.
  rewrite getEndToEndInboundGroupSessionsBatch_first in Hbatch by exact Hok.
  apply Return_inj, first_batch_some in Hbatch. subst batch.
  apply In_firstn in He. rewrite inbound_sessions_keys in He.
  apply in_map_iff in He as [k [<- Hk]].
  assert (Hin : is_inbound_key k = true)
    by (apply filter_In in Hk; apply Hk).
  assert (Hk' : inbound_key_ok k = true)
    by (rewrite forallb_forall in Hkeys; now apply Hkeys).
  destruct (session_name_at (storage w) k Hin Hk') as [_ ->].
  unfold session_at, index_ok in *. cbn [needsBackup].
  change (slice_from (String.length KEY_INBOUND_SESSION_PREFIX) k)
    with (inbound_suffix k).
  destruct (or_empty_object (decode (storage w) KEY_SESSIONS_NEEDING_BACKUP))
    as [| | | |items|props]; try discriminate Hok.
  - unfold flag_of. cbn [in_index].
    now rewrite has_property_slash by now apply inbound_suffix_slash.
  - unfold flag_of. cbn [in_index].
    rewrite has_property_slash by now apply inbound_suffix_slash.
    split; [reflexivity|].
    intros v Hv. unfold alist_has. now rewrite Hv.
Qed.

(** The batch and the getter agree.  With keys made from sender keys of 43
    characters, every element of a batch that
    [getEndToEndInboundGroupSessionsBatch] returns is a session of the
    storage: [getEndToEndInboundGroupSession], called with the sender key
    and the session id of the element, returns the data of the element,
    and the key made of the two is a key of the storage; no two elements
    of the batch have the same sender key and session id when the keys of
    the storage are distinct. *)
Theorem batch_elements_are_stored_sessions
    (w : World) (batch : list SessionExtended) :
  forallb inbound_key_ok (inbound_keys (storage w)) = true ->
  fst (getEndToEndInboundGroupSessionsBatch w) = Return (Some batch) ->
  (forall e,
     In e batch ->
     In (keyEndToEndInboundGroupSession (senderKey e) (sessionId e))
       (alist_keys (storage w))
     /\ exists withheld,
          fst (getEndToEndInboundGroupSession (senderKey e) (sessionId e) w)
          = Return (sessionData e, withheld))
  /\ (NoDup (alist_keys (storage w)) -> NoDup (map session_name batch)).
Proof.
  intros Hkeys Hbatch.
  pose proof (batch_some_index_ok w batch Hbatch) as Hok.
  rewrite getEndToEndInboundGroupSessionsBatch_first in Hbatch by exact Hok.
  apply Return_inj, first_batch_some in Hbatch. subst batch.
  rewrite inbound_sessions_keys, firstn_map.
  assert (Hin : forall k,
             In k (firstn (Nat.max 1 SESSION_BATCH_SIZE)
                     (inbound_keys (storage w))) ->
             In k (alist_keys (storage w))
             /\ keyEndToEndInboundGroupSession
                  (senderKey (session_at (storage w) k))
                  (sessionId (session_at (storage w) k))
                = k).
  { intros k Hk. apply In_firstn in Hk.
    assert (Hk' : inbound_key_ok k = true)
      by (rewrite forallb_forall in Hkeys; now apply Hkeys).
    apply filter_In in Hk as [Hk Hi]. split; [exact Hk|].
    apply (session_name_at (storage w) k Hi Hk'). }
  split.
  - intros e He. apply in_map_iff in He as [k [<- Hk]].
    destruct (Hin k Hk) as [Hk1 Hk2]. rewrite Hk2. split; [exact Hk1|].
    rewrite (reads_fst _ _ _ (reads_getEndToEndInboundGroupSession _ _)).
    rewrite Hk2. eexists. reflexivity.
  - intros Hn. rewrite map_map.
    apply NoDup_map_NoDup_ForallPairs.
    + intros a b Ha Hb E.
      destruct (Hin a Ha) as [_ Ea], (Hin b Hb) as [_ Eb].
      assert (H : keyEndToEndInboundGroupSession
                    (fst (session_name (session_at (storage w) a)))
                    (snd (session_name (session_at (storage w) a)))
                  = keyEndToEndInboundGroupSession
                      (fst (session_name (session_at (storage w) b)))
                      (snd (session_name (session_at (storage w) b))))
        by now rewrite E.
      cbn [session_name fst snd] in H. now rewrite Ea, Eb in H.
    + unfold inbound_keys.
      pose proof (NoDup_filter is_inbound_key Hn) as Hf.
      rewrite <- (firstn_skipn (Nat.max 1 SESSION_BATCH_SIZE)) in Hf.
      now apply NoDup_app_remove_r in Hf.
Qed.

End LocalStorageCryptoStore.

(** ** MiniJson keeps the laws of the platform's JSON *)

Module MiniJsonFacts.
Import MiniJson.

Lemma size_array items : size (JArr items) = S (items_size items).
Proof. reflexivity. Qed.

Lemma size_object props : size (JObj props) = S (members_size props).
Proof. reflexivity. Qed.

Lemma write_items_unfold k r :
  (fix more (l : list json) : string :=
     match l with
     | [] => String "]" k
     | y :: l' => String "," (write y (more l'))
     end) r
  = write_items r k.
Proof.
  induction r as [|y r IH]; [reflexivity|].
  cbn [write_items]. rewrite <- IH. reflexivity.
Qed.

Lemma write_members_unfold k r :
  (fix more (l : list (string * json)) : string :=
     match l with
     | [] => String "}" k
     | (name', y) :: l' =>
         String "," (write_string name' (String ":" (write y (more l'))))
     end) r
  = write_members r k.
Proof.
  induction r as [|[n y] r IH]; [reflexivity|].
  cbn [write_members]. rewrite <- IH. reflexivity.
Qed.

Lemma write_array x r k :
  write (JArr (x :: r)) k = String "[" (write x (write_items r k)).
Proof. rewrite <- write_items_unfold. reflexivity. Qed.

Lemma write_object name x r k :
  write (JObj ((name, x) :: r)) k
  = String "{" (write_string name (String ":" (write x (write_members r k)))).
Proof. rewrite <- write_members_unfold. reflexivity. Qed.

(** Induction over values, with the items and members of a value. *)
Lemma json_induction (P : json -> Prop) :
  P JNull -> (forall b, P (JBool b)) -> (forall n, P (JNum n)) ->
  (forall s, P (JStr s)) ->
  (forall items, Forall P items -> P (JArr items)) ->
  (forall props, Forall (fun m => P (snd m)) props -> P (JObj props)) ->
  forall v, P v.
Proof.
  intros Hnull Hbool Hnum Hstr Harr Hobj.
  fix IH 1. intros [|b|n|s|items|props].
  - exact Hnull.
  - apply Hbool.
  - apply Hnum.
  - apply Hstr.
  - apply Harr. induction items as [|x r IHr]; constructor; [apply IH|exact IHr].
  - apply Hobj. induction props as [|[n x] r IHr]; constructor;
      [apply IH|exact IHr].
Qed.

Lemma read_chars_write s k : read_chars (write_chars s k) = Some (s, k).
Proof.
  induction s as [|c s IH]; cbn.
  - reflexivity.
  - destruct (needs_escape c) eqn:E; cbn.
    + rewrite E, IH. reflexivity.
    + unfold needs_escape in E. apply orb_false_iff in E as [E1 E2].
      rewrite E1, E2, IH. reflexivity.
Qed.

Lemma read_digits_write u k :
  ends_number k -> read_digits (write_digits u k) = (u, k).
Proof.
  intros Hk. induction u; cbn; try (rewrite IHu; reflexivity).
  destruct k as [|c k]; [reflexivity|]. cbn in *. now rewrite Hk.
Qed.

Lemma read_natural_write p k :
  ends_number k ->
  read_natural (write_digits (Pos.to_uint p) k) = Some (Zpos p, k).
Proof.
  intros Hk. unfold read_natural. rewrite read_digits_write by exact Hk.
  pose proof (DecimalPos.Unsigned.to_uint_nonnil p) as Hn.
  pose proof (DecimalPos.Unsigned.of_to p) as Hp.
  destruct (Pos.to_uint p); try contradiction; now rewrite Hp.
Qed.

Lemma ends_number_items r k : ends_number (write_items r k).
Proof. destruct r; reflexivity. Qed.

Lemma ends_number_members r k : ends_number (write_members r k).
Proof. destruct r as [|[n y] r]; reflexivity. Qed.

Lemma read_value_closing fuel k : read_value fuel (String "]" k) = None.
Proof. destruct fuel; reflexivity. Qed.

Lemma map_pair_id {V} (l : list (string * V)) :
  map (fun kv => (fst kv, snd kv)) l = l.
Proof. induction l as [|[k v] l IH]; cbn; congruence. Qed.

Lemma fold_add_member props :
  NoDup (alist_keys props) -> fold_left add_member props [] = props.
Proof.
  intros H.
  change (fold_left add_member props [])
    with (fold_left (fun a kv => alist_set a (fst kv) ((fun x => x) (snd kv)))
            props []).
  rewrite fold_set_distinct by exact H. cbn. apply map_pair_id.
Qed.

Lemma read_items_write r :
  Forall reads_back r -> forallb json_wf r = true ->
  forall k fuel, ends_number k -> S (items_size r) <= fuel ->
  read_items fuel (write_items r k) = Some (r, k).
Proof.
  induction 1 as [|y r Hy Hr IH]; intros Hwf k fuel Hk Hfuel;
    (destruct fuel as [|fuel]; [lia|]).
  - reflexivity.
  - cbn in Hwf. apply andb_true_iff in Hwf as [Hwy Hwr].
    cbn [write_items read_items]. cbn in Hfuel.
    replace (Ascii.eqb "," "]") with false by reflexivity.
    replace (Ascii.eqb "," ",") with true by reflexivity.
    rewrite (Hy Hwy) by (try apply ends_number_items; lia).
    rewrite IH by (try assumption; lia). reflexivity.
Qed.

Lemma read_member_write name x k fuel :
  reads_back x -> json_wf x = true -> ends_number k -> S (size x) <= fuel ->
  read_member fuel (write_string name (String ":" (write x k)))
  = Some ((name, x), k).
Proof.
  intros Hx Hwf Hk Hfuel. destruct fuel as [|fuel]; [lia|].
  unfold write_string. cbn [read_member].
  replace (Ascii.eqb dquote dquote) with true by reflexivity.
  rewrite read_chars_write.
  replace (Ascii.eqb ":" ":") with true by reflexivity.
  rewrite (Hx Hwf) by (try assumption; lia). reflexivity.
Qed.

Lemma read_members_write r :
  Forall (fun m => reads_back (snd m)) r -> Forall value_wf r ->
  forall k fuel, ends_number k -> S (members_size r) <= fuel ->
  read_members fuel (write_members r k) = Some (r, k).
Proof.
  induction 1 as [|[n y] r Hy Hr IH]; intros Hwf k fuel Hk Hfuel;
    (destruct fuel as [|fuel]; [lia|]).
  - reflexivity.
  - inversion Hwf as [|? ? Hwy Hwr]; subst.
    cbn [write_members read_members]. cbn in Hfuel.
    replace (Ascii.eqb "," "}") with false by reflexivity.
    replace (Ascii.eqb "," ",") with true by reflexivity.
    rewrite read_member_write
      by (try assumption; try apply ends_number_members; lia).
    rewrite IH by (try assumption; lia). reflexivity.
Qed.

Lemma digits_head u k :
  u <> Decimal.Nil ->
  exists c r, write_digits u k = String c r
              /\ (exists d, digit_of c = Some d).
Proof.
  destruct u; [contradiction| | | | | | | | | | ]; intros _; cbn;
    eexists; eexists; (split; [reflexivity|]); eexists; reflexivity.
Qed.

Lemma read_value_digit fuel c r :
  (exists d, digit_of c = Some d) ->
  read_value (S fuel) (String c r)
  = match read_natural (String c r) with
    | Some (n, rest) => Some (JNum n, rest)
    | None => None
    end.
Proof.
  intros [d Hd]. unfold digit_of in Hd. cbn [read_value].
  repeat match type of Hd with
         | (if Ascii.eqb c ?x then _ else _) = _ =>
             let E := fresh "E" in
             destruct (Ascii.eqb c x) eqn:E;
             [apply Ascii.eqb_eq in E; subst c; reflexivity|]
         end.
  discriminate.
Qed.

Lemma read_write_value v : reads_back v.
Proof.
  induction v as [|b|n|s|items IH|props IH] using json_induction;
    intros Hwf k fuel Hk Hfuel;
    (destruct fuel as [|fuel]; [cbn in Hfuel; lia|]).
  - reflexivity.
  - destruct b; reflexivity.
  - destruct n as [|p|p]; cbn [write write_number].
    + rewrite read_value_digit by (eexists; reflexivity).
      unfold read_natural. cbn [read_digits digit_of].
      replace (Ascii.eqb "0" "0") with true by reflexivity.
      destruct k as [|c k]; [reflexivity|]. cbn in Hk.
      cbn [read_digits]. now rewrite Hk.
    + destruct (digits_head (Pos.to_uint p) k
                  (DecimalPos.Unsigned.to_uint_nonnil p))
        as (c & r & E & Hd).
      pose proof (read_natural_write p k Hk) as Hn.
      rewrite E in *. rewrite read_value_digit by exact Hd.
      now rewrite Hn.
    + cbn [read_value].
      replace (Ascii.eqb "-" "n") with false by reflexivity.
      replace (Ascii.eqb "-" "t") with false by reflexivity.
      replace (Ascii.eqb "-" "f") with false by reflexivity.
      replace (Ascii.eqb "-" dquote) with false by reflexivity.
      replace (Ascii.eqb "-" "-") with true by reflexivity.
      now rewrite read_natural_write.
  - cbn [write]. unfold write_string. cbn [read_value].
    replace (Ascii.eqb dquote "n") with false by reflexivity.
    replace (Ascii.eqb dquote "t") with false by reflexivity.
    replace (Ascii.eqb dquote "f") with false by reflexivity.
    replace (Ascii.eqb dquote dquote) with true by reflexivity.
    now rewrite read_chars_write.
  - destruct items as [|x r].
    + cbn [write append read_value].
      replace (Ascii.eqb "[" "n") with false by reflexivity.
      replace (Ascii.eqb "[" "t") with false by reflexivity.
      replace (Ascii.eqb "[" "f") with false by reflexivity.
      replace (Ascii.eqb "[" dquote) with false by reflexivity.
      replace (Ascii.eqb "[" "-") with false by reflexivity.
      replace (Ascii.eqb "[" "[") with true by reflexivity.
      now rewrite read_value_closing.
    + rewrite write_array. rewrite size_array in Hfuel. cbn in Hfuel.
      cbn in Hwf. apply andb_true_iff in Hwf as [Hwx Hwr].
      inversion IH as [|? ? Hx Hr]; subst.
      cbn [read_value].
      replace (Ascii.eqb "[" "n") with false by reflexivity.
      replace (Ascii.eqb "[" "t") with false by reflexivity.
      replace (Ascii.eqb "[" "f") with false by reflexivity.
      replace (Ascii.eqb "[" dquote) with false by reflexivity.
      replace (Ascii.eqb "[" "-") with false by reflexivity.
      replace (Ascii.eqb "[" "[") with true by reflexivity.
      rewrite (Hx Hwx) by (try apply ends_number_items; lia).
      rewrite read_items_write by (try assumption; lia).
      reflexivity.
  - apply json_wf_object in Hwf as [Hn Hv].
    destruct props as [|[name x] r].
    + reflexivity.
    + rewrite write_object. rewrite size_object in Hfuel. cbn in Hfuel.
      inversion IH as [|? ? Hx Hr]; subst.
      inversion Hv as [|? ? Hwx Hwr]; subst.
      unfold write_string at 1.
      cbn [read_value].
      replace (Ascii.eqb "{" "n") with false by reflexivity.
      replace (Ascii.eqb "{" "t") with false by reflexivity.
      replace (Ascii.eqb "{" "f") with false by reflexivity.
      replace (Ascii.eqb "{" dquote) with false by reflexivity.
      replace (Ascii.eqb "{" "-") with false by reflexivity.
      replace (Ascii.eqb "{" "[") with false by reflexivity.
      replace (Ascii.eqb "{" "{") with true by reflexivity.
      replace (Ascii.eqb dquote "}") with false by reflexivity.
      change (String dquote (write_chars name
                (String ":" (write x (write_members r k)))))
        with (write_string name (String ":" (write x (write_members r k)))).
      rewrite read_member_write
        by (try assumption; try apply ends_number_members; lia).
      rewrite read_members_write by (try assumption; lia).
      now rewrite fold_add_member.
Qed.

(** *** The text is long enough to be read back *)

Lemma length_write_chars s k :
  S (String.length k) <= String.length (write_chars s k).
Proof.
  induction s as [|c s IH]; cbn; [lia|].
  destruct (needs_escape c); cbn; lia.
Qed.

Lemma length_write_digits u k :
  String.length k <= String.length (write_digits u k).
Proof. induction u; cbn; lia. Qed.

Lemma length_write_digits_nonnil u k :
  u <> Decimal.Nil ->
  S (String.length k) <= String.length (write_digits u k).
Proof.
  destruct u; [contradiction|..]; intros _; cbn;
    pose proof (length_write_digits u k); lia.
Qed.

Lemma length_write_number n k :
  S (String.length k) <= String.length (write_number n k).
Proof.
  destruct n as [|p|p]; cbn [write_number].
  - cbn. lia.
  - apply length_write_digits_nonnil, DecimalPos.Unsigned.to_uint_nonnil.
  - pose proof (length_write_digits (Pos.to_uint p) k). cbn. lia.
Qed.

Lemma length_write_items r :
  Forall long_enough r ->
  forall k,
    String.length k + S (items_size r) <= String.length (write_items r k).
Proof.
  induction 1 as [|y r Hy Hr IH]; intros k; cbn; [lia|].
  specialize (Hy (write_items r k)). specialize (IH k). lia.
Qed.

Lemma length_write_members r :
  Forall (fun m => long_enough (snd m)) r ->
  forall k,
    String.length k + S (members_size r) <= String.length (write_members r k).
Proof.
  induction 1 as [|[n y] r Hy Hr IH]; intros k; cbn; [lia|].
  pose proof (length_write_chars n
                (String ":" (write y (write_members r k)))) as Hn.
  cbn in Hn, Hy. specialize (Hy (write_members r k)). specialize (IH k). lia.
Qed.

Lemma size_le_length v : long_enough v.
Proof.
  induction v as [|b|n|s|items IH|props IH] using json_induction; intros k.
  - cbn. lia.
  - destruct b; cbn; lia.
  - cbn [write size]. pose proof (length_write_number n k). lia.
  - cbn. pose proof (length_write_chars s k). lia.
  - destruct items as [|x r]; [cbn; lia|].
    rewrite write_array, size_array. inversion IH as [|? ? Hx Hr]; subst.
    pose proof (length_write_items r Hr k).
    specialize (Hx (write_items r k)). cbn. lia.
  - destruct props as [|[name x] r]; [cbn; lia|].
    rewrite write_object, size_object. inversion IH as [|? ? Hx Hr]; subst.
    pose proof (length_write_members r Hr k).
    pose proof (length_write_chars name
                  (String ":" (write x (write_members r k)))) as Hn.
    cbn in Hx. specialize (Hx (write_members r k)). cbn in *. lia.
Qed.

(** A proper value survives writing and parsing. *)
Lemma parse_stringify v :
  json_wf v = true -> parse (stringify v) = inl v.
Proof.
  intros Hwf. unfold parse, stringify.
  rewrite (read_write_value v Hwf); [reflexivity|exact I|].
  pose proof (size_le_length v EmptyString). cbn in *. lia.
Qed.

(** *** What is read is a proper value *)

Lemma add_member_wf props m :
  NoDup (alist_keys props) /\ Forall value_wf props ->
  value_wf m ->
  NoDup (alist_keys (add_member props m))
  /\ Forall value_wf (add_member props m).
Proof.
  intros [Hn Hv] Hm. unfold add_member. split.
  - now apply alist_set_NoDup.
  - apply alist_set_Forall; [intros k'; exact Hm|exact Hv].
Qed.

Lemma fold_add_member_wf ms props :
  NoDup (alist_keys props) /\ Forall value_wf props ->
  Forall value_wf ms ->
  json_wf (JObj (fold_left add_member ms props)) = true.
Proof.
  revert props. induction ms as [|m ms IH]; intros props Hp Hms; cbn.
  - now apply json_wf_object.
  - inversion Hms; subst. apply IH; [|assumption].
    now apply add_member_wf.
Qed.

Lemma expect_wf word s v x rest :
  json_wf v = true -> expect word s v = Some (x, rest) -> json_wf x = true.
Proof.
  unfold expect. destruct (startsWith s word); [|discriminate].
  now intros H [= <- _].
Qed.

Lemma read_wf fuel :
  (forall s v rest, read_value fuel s = Some (v, rest) -> json_wf v = true)
  /\ (forall s vs rest,
        read_items fuel s = Some (vs, rest) -> forallb json_wf vs = true)
  /\ (forall s m rest, read_member fuel s = Some (m, rest) -> value_wf m)
  /\ (forall s ms rest,
        read_members fuel s = Some (ms, rest) -> Forall value_wf ms).
Proof.
  induction fuel as [|fuel (IHv & IHi & IHm & IHms)].
  - repeat split; intros; discriminate.
  - repeat split.
    + intros s v rest. cbn [read_value].
      destruct s as [|c r]; [discriminate|].
      destruct (Ascii.eqb c "n"); [now apply expect_wf|].
      destruct (Ascii.eqb c "t"); [now apply expect_wf|].
      destruct (Ascii.eqb c "f"); [now apply expect_wf|].
      destruct (Ascii.eqb c dquote).
      { destruct (read_chars r) as [[t rest']|]; [|discriminate].
        now intros [= <- _]. }
      destruct (Ascii.eqb c "-").
      { destruct (read_natural r) as [[n rest']|]; [|discriminate].
        now intros [= <- _]. }
      destruct (Ascii.eqb c "[").
      { destruct (read_value fuel r) as [[x rest1]|] eqn:Ex.
        - destruct (read_items fuel rest1) as [[xs rest2]|] eqn:Exs;
            [|discriminate].
          intros [= <- _]. cbn. apply andb_true_iff. split.
          + eapply IHv. exact Ex.
          + eapply IHi. exact Exs.
        - destruct r as [|d rest1]; [discriminate|].
          destruct (Ascii.eqb d "]"); [|discriminate].
          now intros [= <- _]. }
      destruct (Ascii.eqb c "{").
      { destruct r as [|d rest1]; [discriminate|].
        destruct (Ascii.eqb d "}"); [now intros [= <- _]|].
        destruct (read_member fuel (String d rest1)) as [[m rest2]|] eqn:Em;
          [|discriminate].
        destruct (read_members fuel rest2) as [[ms rest3]|] eqn:Ems;
          [|discriminate].
        intros [= <- _]. apply (fold_add_member_wf (m :: ms) []).
        - split; [apply NoDup_nil|apply Forall_nil].
        - constructor; [eapply IHm; exact Em|eapply IHms; exact Ems]. }
      destruct (read_natural (String c r)) as [[n rest']|]; [|discriminate].
      now intros [= <- _].
    + intros s vs rest. cbn [read_items].
      destruct s as [|c r]; [discriminate|].
      destruct (Ascii.eqb c "]"); [now intros [= <- _]|].
      destruct (Ascii.eqb c ","); [|discriminate].
      destruct (read_value fuel r) as [[x rest1]|] eqn:Ex; [|discriminate].
      destruct (read_items fuel rest1) as [[xs rest2]|] eqn:Exs;
        [|discriminate].
      intros [= <- _]. cbn. apply andb_true_iff. split.
      * eapply IHv. exact Ex.
      * eapply IHi. exact Exs.
    + intros s m rest. cbn [read_member].
      destruct s as [|c r]; [discriminate|].
      destruct (Ascii.eqb c dquote); [|discriminate].
      destruct (read_chars r) as [[name [|d rest1]]|]; try discriminate.
      destruct (Ascii.eqb d ":"); [|discriminate].
      destruct (read_value fuel rest1) as [[x rest2]|] eqn:Ex;
        [|discriminate].
      intros [= <- _]. unfold value_wf. cbn. eapply IHv. exact Ex.
    + intros s ms rest. cbn [read_members].
      destruct s as [|c r]; [discriminate|].
      destruct (Ascii.eqb c "}"); [intros [= <- _]; constructor|].
      destruct (Ascii.eqb c ","); [|discriminate].
      destruct (read_member fuel r) as [[m rest1]|] eqn:Em; [|discriminate].
      destruct (read_members fuel rest1) as [[ms' rest2]|] eqn:Ems;
        [|discriminate].
      intros [= <- _]. constructor;
        [eapply IHm; exact Em|eapply IHms; exact Ems].
Qed.

(** Parsing yields proper values. *)
Lemma parse_wf text v : parse text = inl v -> json_wf v = true.
Proof.
  unfold parse.
  destruct (read_value (S (String.length text)) text) as [[x [|c rest]]|]
    eqn:E; try discriminate.
  intros [= <-]. eapply (proj1 (read_wf _)). exact E.
Qed.
End MiniJsonFacts.

(** ** The theorems at work on concrete stores *)

Import Examples.

(** A migration state that does not parse reads as [NOT_STARTED]. *)
Lemma getMigrationState_witness :
  alist_get (storage broken_migration_world) KEY_END_TO_END_MIGRATION_STATE
  = Some broken_text
  /\ MiniJson.parse broken_text = inr MiniJson.syntax_error
  /\ fst (getMigrationState MiniJson.parse 0 broken_migration_world)
     = Return (JNum 0).
Proof.
  split; [reflexivity|]. split; [reflexivity|].
  refine (proj1 (getMigrationState_defaults_to_NOT_STARTED MiniJson.parse 0
                   broken_migration_world _)).
  right. exists broken_text, MiniJson.syntax_error. split; reflexivity.
Defined.

(** The slices of the key of a session whose id has a slash in it. *)
Lemma inbound_group_session_key_witness :
  String.length sender_key = 43
  /\ slice_to 43
       (slice_from (String.length KEY_INBOUND_SESSION_PREFIX)
          (keyEndToEndInboundGroupSession sender_key session_id))
     = sender_key
  /\ slice_from 44
       (slice_from (String.length KEY_INBOUND_SESSION_PREFIX)
          (keyEndToEndInboundGroupSession sender_key session_id))
     = session_id.
Proof.
  split; [reflexivity|].
  destruct (inbound_group_session_key_round_trip MiniJson.parse
              MiniJson.stringify batch_size sender_key session_id eq_refl)
    as (Hk & Hs & _).
  split; assumption.
Defined.



(** C3: the code at a store whose only device has a slash in its key.
    The device has one session: [countEndToEndSessions] returns 1 and
    [getEndToEndSessions] returns the session, but
    [getEndToEndSessionsBatch] takes the part of the key between the first
    two slashes for the device key, finds no sessions under it, and returns
    [null], whatever the batch size. *)
Theorem getEndToEndSessionsBatch_skips_device_with_slash
    (SESSION_BATCH_SIZE : nat) :
  String.length slash_device_key = 43
  /\ second_segment (keyEndToEndSessions slash_device_key)
     = "hPQNcabIABgGnx3"
  /\ fst (countEndToEndSessions MiniJson.parse slash_world) = Return 1
  /\ fst (getEndToEndSessions MiniJson.parse slash_device_key slash_world)
     = Return (JObj [("s1", session_info "p1")])
  /\ fst (getEndToEndSessionsBatch MiniJson.parse SESSION_BATCH_SIZE slash_world)
     = Return None.
Proof.
  split; [reflexivity|]. split; [reflexivity|].
  split; [vm_compute; reflexivity|]. split; [vm_compute; reflexivity|].
  rewrite getEndToEndSessionsBatch_first.
  replace (flat_map (batch_under MiniJson.parse (storage slash_world))
             (alist_keys (storage slash_world))) with (@nil json)
    by (vm_compute; reflexivity).
  reflexivity.
Qed.



(** Deleting a session that [DEVICE] does not have reports no error. *)
Lemma delete_absent_session_witness :
  Forall
    (fun s =>
       alist_get (sessions_of MiniJson.parse (storage legacy_world) (fst s))
         (snd s) = None)
    [("DEVICE", "nope")]
  /\ fst (deleteEndToEndSessionsBatch MiniJson.parse MiniJson.stringify
            [("DEVICE", "nope")] legacy_world)
     = Return tt.
Proof.
  assert (H : Forall
                (fun s =>
                   alist_get
                     (sessions_of MiniJson.parse (storage legacy_world) (fst s))
                     (snd s) = None)
                [("DEVICE", "nope")])
    by (constructor; [vm_compute; reflexivity|constructor]).
  split; [exact H|].
  exact (proj1 (deleteEndToEndSessionsBatch_absent_keeps_sessions
                  MiniJson.parse MiniJson.stringify
                  MiniJsonFacts.parse_wf MiniJsonFacts.parse_stringify
                  legacy_world [("DEVICE", "nope")] H)).
Defined.

(** C5, as stated, fails: deleting a session that the device does not
    have rewrites the text under the device's key.  The old session [s1],
    stored as a bare pickle, is stored as [{ session: pickle }] afterwards:
    the contents of the store have changed. *)
Lemma delete_absent_session_counterexample :
  alist_get (sessions_of MiniJson.parse (storage legacy_world) "DEVICE") "nope"
  = None
  /\ alist_get (storage legacy_world) (keyEndToEndSessions "DEVICE")
     = Some (MiniJson.stringify
               (JObj [("s1", JStr "pickle"); ("s2", session_info "p2")]))
  /\ alist_get
       (storage
          (snd (deleteEndToEndSessionsBatch MiniJson.parse MiniJson.stringify
                  [("DEVICE", "nope")] legacy_world)))
       (keyEndToEndSessions "DEVICE")
     = Some (MiniJson.stringify
               (JObj [("s1", session_info "pickle"); ("s2", session_info "p2")]))
  /\ storage
       (snd (deleteEndToEndSessionsBatch MiniJson.parse MiniJson.stringify
               [("DEVICE", "nope")] legacy_world))
     <> storage legacy_world.
Proof.
  split; [vm_compute; reflexivity|]. split; [vm_compute; reflexivity|].
  split; [vm_compute; reflexivity|].
  vm_compute. intros H. discriminate H.
Qed.

(** An empty store has not started to migrate. *)
Lemma getMigrationState_absent_example :
  fst (getMigrationState MiniJson.parse 0 (world_of [])) = Return (JNum 0).
Proof. reflexivity. Qed.

(** Marking a session adds its name to the flags that were there. *)
Lemma markSessionsNeedingBackup_witness :
  or_empty_object
    (decode MiniJson.parse (storage flagged_world) KEY_SESSIONS_NEEDING_BACKUP)
  = JObj [("other/session", JBool true)]
  /\ backup_flags MiniJson.parse
       (storage
          (snd (markSessionsNeedingBackup MiniJson.parse MiniJson.stringify
                  [(sender_key, session_id)] flagged_world)))
     = [("other/session", JBool true);
        (backup_name (sender_key, session_id), JBool true)].
Proof.
  split; [vm_compute; reflexivity|].
  destruct (markSessionsNeedingBackup_idempotent_monotone
              MiniJson.parse MiniJson.stringify
              MiniJsonFacts.parse_wf MiniJsonFacts.parse_stringify
              flagged_world sender_key session_id
              [("other/session", JBool true)])
    as (_ & _ & _ & _ & _ & H & _).
  - vm_compute; reflexivity.
  - exact H.
Defined.

(** An inbound group session whose text does not parse reads as the
    session of a store without the key. *)
Lemma unreadable_text_witness :
  alist_get (storage broken_inbound_world)
    (keyEndToEndInboundGroupSession sender_key session_id)
  = Some broken_text
  /\ MiniJson.parse broken_text = inr MiniJson.syntax_error
  /\ fst (getEndToEndInboundGroupSession MiniJson.parse sender_key session_id
            broken_inbound_world)
     = fst (getEndToEndInboundGroupSession MiniJson.parse sender_key session_id
              (without (keyEndToEndInboundGroupSession sender_key session_id)
                 broken_inbound_world)).
Proof.
  split; [reflexivity|]. split; [reflexivity|].
  destruct (unreadable_text_reads_as_null MiniJson.parse batch_size 0
              broken_inbound_world
              (keyEndToEndInboundGroupSession sender_key session_id)
              broken_text MiniJson.syntax_error eq_refl eq_refl)
    as (_ & _ & _ & _ & _ & _ & _ & _ & H & _).
  apply H.
Defined.

(** C9, as stated, fails: a key whose text is not JSON is not absent to
    every read.  With one inbound group session whose text does not parse,
    [countEndToEndInboundGroupSessions] returns 1, and 0 once the key is
    removed; and the batch of inbound group sessions has an element for the
    key, with [null] for its data, where the store without the key gives
    [null] for the batch. *)
Lemma unreadable_text_counterexample :
  alist_get (storage broken_inbound_world)
    (keyEndToEndInboundGroupSession sender_key session_id)
  = Some broken_text
  /\ MiniJson.parse broken_text = inr MiniJson.syntax_error
  /\ fst (countEndToEndInboundGroupSessions broken_inbound_world) = Return 1
  /\ fst (countEndToEndInboundGroupSessions
            (without (keyEndToEndInboundGroupSession sender_key session_id)
               broken_inbound_world))
     = Return 0
  /\ fst (getEndToEndInboundGroupSessionsBatch MiniJson.parse batch_size
            broken_inbound_world)
     = Return (Some [mkSessionExtended sender_key session_id JNull false])
  /\ fst (getEndToEndInboundGroupSessionsBatch MiniJson.parse batch_size
            (without (keyEndToEndInboundGroupSession sender_key session_id)
               broken_inbound_world))
     = Return None.
Proof.
  repeat split; vm_compute; reflexivity.
Qed.



(** With two devices whose keys have no slash, the batch is [null] exactly
    when there are no sessions. *)
Lemma getEndToEndSessionsBatch_plain_keys_witness :
  0 < batch_size
  /\ (forall k, In k (alist_keys (storage two_devices)) ->
                plain_device_key k = true)
  /\ (fst (getEndToEndSessionsBatch MiniJson.parse batch_size two_devices)
      = Return None
      <-> all_sessions MiniJson.parse (storage two_devices) = []).
Proof.
  assert (Hpos : 0 < batch_size) by (unfold batch_size; lia).
  assert (Hplain : forall k, In k (alist_keys (storage two_devices)) ->
                             plain_device_key k = true)
    by (intros k [<-|[<-|[]]]; reflexivity).
  split; [exact Hpos|]. split; [exact Hplain|].
  exact (proj1 (getEndToEndSessionsBatch_plain_keys MiniJson.parse batch_size
                  MiniJsonFacts.parse_wf two_devices Hpos Hplain)).
Defined.

(** The session [s3] stored for [DEVICE] is the session read. *)
Lemma storeEndToEndSession_then_getEndToEndSession_witness :
  json_wf (session_info "p3") = true
  /\ "s3" <> "__proto__"
  /\ fst (getEndToEndSession MiniJson.parse "DEVICE" "s3"
            (snd (storeEndToEndSession MiniJson.parse MiniJson.stringify
                    "DEVICE" "s3" (session_info "p3") legacy_world)))
     = Return (session_info "p3").
Proof.
  assert (Hp : "s3" <> "__proto__") by discriminate.
  split; [reflexivity|]. split; [exact Hp|].
  exact (proj1 (storeEndToEndSession_then_getEndToEndSession
                  MiniJson.parse MiniJson.stringify
                  MiniJsonFacts.parse_wf MiniJsonFacts.parse_stringify
                  legacy_world "DEVICE" "s3" [("session", JStr "p3")]
                  eq_refl Hp)).
Defined.

(** The two inbound group sessions of [inbound_world] are counted, and a
    batch of one is the first of them. *)
Lemma getEndToEndInboundGroupSessionsBatch_null_iff_count_zero_witness :
  index_ok MiniJson.parse (storage inbound_world) = true
  /\ exists n,
       fst (countEndToEndInboundGroupSessions inbound_world) = Return n
       /\ (fst (getEndToEndInboundGroupSessionsBatch MiniJson.parse 1
                  inbound_world) = Return None <-> n = 0).
Proof.
  assert (H : index_ok MiniJson.parse (storage inbound_world) = true)
    by (vm_compute; reflexivity).
  split; [exact H|].
  destruct (getEndToEndInboundGroupSessionsBatch_null_iff_count_zero
              MiniJson.parse 1 inbound_world H) as (n & Hn & Hnull & _).
  exists n. split; assumption.
Defined.

(** Marking the first session of [inbound_world] flags it in the batch. *)
Lemma markSessionsNeedingBackup_then_batch_witness :
  or_empty_object
    (decode MiniJson.parse (storage inbound_world) KEY_SESSIONS_NEEDING_BACKUP)
  = JObj [(other_sender_key ++ "/sid2", JBool true)]
  /\ forallb inbound_key_ok (inbound_keys (storage inbound_world)) = true
  /\ fst (markSessionsNeedingBackup MiniJson.parse MiniJson.stringify
            [(sender_key, session_id)] inbound_world)
     = Return tt.
Proof.
  split; [vm_compute; reflexivity|]. split; [vm_compute; reflexivity|].
  refine (proj1 (markSessionsNeedingBackup_then_batch
                   MiniJson.parse MiniJson.stringify batch_size
                   MiniJsonFacts.parse_wf MiniJsonFacts.parse_stringify
                   inbound_world [(sender_key, session_id)]
                   [(other_sender_key ++ "/sid2", JBool true)] _ _));
    vm_compute; reflexivity.
Defined.

(** In [inbound_world], with a batch size of 1, deleting the batch read
    makes the second session the next batch. *)
Lemma deleteEndToEndInboundGroupSessionsBatch_removes_batch_witness :
  NoDup (alist_keys (storage inbound_world))
  /\ forallb inbound_key_ok (inbound_keys (storage inbound_world)) = true
  /\ fst (getEndToEndInboundGroupSessionsBatch MiniJson.parse 1 inbound_world)
     = Return (Some [first_session])
  /\ fst (getEndToEndInboundGroupSessionsBatch MiniJson.parse 1
            (snd (deleteEndToEndInboundGroupSessionsBatch
                    (map session_name [first_session]) inbound_world)))
     = Return (Some [second_session]).
Proof.
  assert (Hn : NoDup (alist_keys (storage inbound_world)))
    by (apply distinct_NoDup; vm_compute; reflexivity).
  assert (Hk : forallb inbound_key_ok (inbound_keys (storage inbound_world))
               = true) by (vm_compute; reflexivity).
  assert (Hb : fst (getEndToEndInboundGroupSessionsBatch MiniJson.parse 1
                      inbound_world)
               = Return (Some [first_session])) by (vm_compute; reflexivity).
  split; [exact Hn|]. split; [exact Hk|]. split; [exact Hb|].
  exact (proj1 (proj2 (proj2 (proj2 (proj2
           (deleteEndToEndInboundGroupSessionsBatch_removes_batch
              MiniJson.parse 1 inbound_world [first_session] Hn Hk Hb)))))).
Defined.

(** Deleting the session [t1] of [OTHER] leaves the empty object for it. *)
Lemma deleteEndToEndSessionsBatch_then_getEndToEndSession_witness :
  fst (getEndToEndSession MiniJson.parse "OTHER" "t1"
         (snd (deleteEndToEndSessionsBatch MiniJson.parse MiniJson.stringify
                 [("OTHER", "t1")] two_devices)))
  = Return (JObj [])
  /\ prototype_of MiniJson.parse (storage two_devices) "OTHER"
     = Object_prototype
  /\ fst (getEndToEndSession MiniJson.parse "OTHER" "t2"
            (snd (deleteEndToEndSessionsBatch MiniJson.parse MiniJson.stringify
                    [("OTHER", "t1")] two_devices)))
     = fst (getEndToEndSession MiniJson.parse "OTHER" "t2" two_devices).
Proof.
  assert (Hp : prototype_of MiniJson.parse (storage two_devices) "OTHER"
               = Object_prototype) by (vm_compute; reflexivity).
  split; [|split; [exact Hp|]].
  - exact (proj1 (proj2
             (deleteEndToEndSessionsBatch_then_getEndToEndSession
                MiniJson.parse MiniJson.stringify
                MiniJsonFacts.parse_wf MiniJsonFacts.parse_stringify
                two_devices [("OTHER", "t1")] "OTHER" "t1")) eq_refl).
  - exact (proj2 (proj2 (proj2
             (deleteEndToEndSessionsBatch_then_getEndToEndSession
                MiniJson.parse MiniJson.stringify
                MiniJsonFacts.parse_wf MiniJsonFacts.parse_stringify
                two_devices [("OTHER", "t1")] "OTHER" "t2")))
             eq_refl (or_intror Hp)).
Defined.

(** Storing a session [s3] for [DEVICE] leaves its session [s2]. *)
Lemma storeEndToEndSession_keeps_other_sessions_witness :
  json_wf (session_info "p3") = true
  /\ ("DEVICE", "s2") <> ("DEVICE", "s3")
  /\ prototype_of MiniJson.parse (storage legacy_world) "DEVICE"
     = Object_prototype
  /\ fst (getEndToEndSession MiniJson.parse "DEVICE" "s2"
            (snd (storeEndToEndSession MiniJson.parse MiniJson.stringify
                    "DEVICE" "s3" (session_info "p3") legacy_world)))
     = fst (getEndToEndSession MiniJson.parse "DEVICE" "s2" legacy_world).
Proof.
  assert (Hne : ("DEVICE", "s2") <> ("DEVICE", "s3")) by discriminate.
  assert (Hp : prototype_of MiniJson.parse (storage legacy_world) "DEVICE"
               = Object_prototype) by (vm_compute; reflexivity).
  split; [reflexivity|]. split; [exact Hne|]. split; [exact Hp|].
  exact (proj2 (storeEndToEndSession_keeps_other_sessions
                  MiniJson.parse MiniJson.stringify
                  MiniJsonFacts.parse_wf MiniJsonFacts.parse_stringify
                  legacy_world "DEVICE" "s3" (session_info "p3")
                  "DEVICE" "s2" eq_refl Hne (fun _ => Hp))).
Defined.

(** The count of [proto_world] is the number of its fixed sessions and
    one for the entry [__proto__]. *)
Lemma countEndToEndSessions_counts_fixed_sessions_witness :
  fst (countEndToEndSessions MiniJson.parse proto_world)
  = Return (List.length (all_sessions MiniJson.parse (storage proto_world))
            + List.length
                (filter
                   (fun k => is_sessions_key k
                             && has_proto_entry MiniJson.parse
                                  (storage proto_world) k)
                   (alist_keys (storage proto_world)))).
Proof.
  exact (proj1 (countEndToEndSessions_counts_fixed_sessions
                  MiniJson.parse MiniJsonFacts.parse_wf proto_world)).
Defined.

(** In [two_devices], storing a session [s9] for [DEVICE], which does not
    have it, makes the count one more. *)
Lemma countEndToEndSessions_follows_store_and_delete_witness :
  NoDup (alist_keys (storage two_devices))
  /\ json_wf (session_info "p9") = true
  /\ has_proto_entry MiniJson.parse (storage two_devices)
       (keyEndToEndSessions "DEVICE")
     = false
  /\ alist_has (sessions_of MiniJson.parse (storage two_devices) "DEVICE") "s9"
     = false
  /\ exists n,
       fst (countEndToEndSessions MiniJson.parse two_devices) = Return n
       /\ fst (countEndToEndSessions MiniJson.parse
                 (snd (storeEndToEndSession MiniJson.parse MiniJson.stringify
                         "DEVICE" "s9" (session_info "p9") two_devices)))
          = Return (S n).
Proof.
  assert (Hn : NoDup (alist_keys (storage two_devices)))
    by (apply distinct_NoDup; vm_compute; reflexivity).
  assert (Hf : has_proto_entry MiniJson.parse (storage two_devices)
                 (keyEndToEndSessions "DEVICE")
               = false) by (vm_compute; reflexivity).
  assert (Hk : alist_has
                 (sessions_of MiniJson.parse (storage two_devices) "DEVICE")
                 "s9"
               = false) by (vm_compute; reflexivity).
  split; [exact Hn|]. split; [reflexivity|]. split; [exact Hf|].
  split; [exact Hk|].
  destruct (countEndToEndSessions_follows_store_and_delete
              MiniJson.parse MiniJson.stringify
              MiniJsonFacts.parse_wf MiniJsonFacts.parse_stringify
              two_devices "DEVICE" "s9" (session_info "p9") Hn eq_refl Hf)
    as (n & H1 & H2 & _).
  exists n. split; [exact H1|].
  rewrite Hk in H2. exact H2.
Defined.

(** The account stored in an empty storage is the account read. *)
Lemma storeAccount_then_getAccount_witness :
  fst (getAccount MiniJson.parse
         (snd (storeAccount MiniJson.stringify "pickle" (world_of []))))
  = Return (JStr "pickle").
Proof.
  exact (proj1 (proj2 (storeAccount_then_getAccount
                         MiniJson.parse MiniJson.stringify
                         MiniJsonFacts.parse_stringify (world_of [])
                         "pickle"))).
Defined.

(** A migration state 2 replaces one that did not parse. *)
Lemma setMigrationState_then_getMigrationState_witness :
  json_wf (JNum 2) = true
  /\ fst (getMigrationState MiniJson.parse 0
            (snd (setMigrationState MiniJson.stringify (JNum 2)
                    broken_migration_world)))
     = Return (JNum 2).
Proof.
  split; [reflexivity|].
  exact (proj1 (proj2 (setMigrationState_then_getMigrationState
                         MiniJson.parse MiniJson.stringify 0
                         MiniJsonFacts.parse_stringify broken_migration_world
                         (JNum 2) eq_refl))).
Defined.

(** A key of the secret storage cache stored for a type is the key read
    for the type. *)
Lemma storeSecretStorePrivateKey_then_get_witness :
  json_wf (JStr "key") = true
  /\ fst (getSecretStorePrivateKey MiniJson.parse "m.megolm_backup.v1"
            (snd (storeSecretStorePrivateKey MiniJson.stringify
                    "m.megolm_backup.v1" (JStr "key") (world_of []))))
     = Return (JStr "key").
Proof.
  split; [reflexivity|].
  exact (proj1 (proj2 (storeSecretStorePrivateKey_then_get
                         MiniJson.parse MiniJson.stringify
                         MiniJsonFacts.parse_stringify (world_of [])
                         "m.megolm_backup.v1" "m.cross_signing.master"
                         (JStr "key") eq_refl))).
Defined.

(** An inbound group session stored over one whose text did not parse is
    the session read. *)
Lemma storeEndToEndInboundGroupSession_then_get_and_delete_witness :
  json_wf (session_of_room "!a:example.org") = true
  /\ exists earlier withheld,
       fst (getEndToEndInboundGroupSession MiniJson.parse sender_key session_id
              broken_inbound_world)
       = Return (earlier, withheld)
       /\ fst (getEndToEndInboundGroupSession MiniJson.parse sender_key
                 session_id
                 (snd (storeEndToEndInboundGroupSession MiniJson.stringify
                         sender_key session_id
                         (session_of_room "!a:example.org")
                         broken_inbound_world)))
          = Return (session_of_room "!a:example.org", withheld).
Proof.
  split; [reflexivity|].
  destruct (storeEndToEndInboundGroupSession_then_get_and_delete
              MiniJson.parse MiniJson.stringify MiniJsonFacts.parse_stringify
              broken_inbound_world sender_key session_id
              (session_of_room "!a:example.org") eq_refl)
    as (earlier & withheld & H1 & H2 & _).
  exists earlier, withheld. split; [exact H1|exact H2].
Defined.

(** A storage that only other users have written to reads as empty. *)
Lemma containsData_false_reads_defaults_witness :
  fst (containsData foreign_world) = Return false
  /\ fst (countEndToEndSessions MiniJson.parse foreign_world) = Return 0
  /\ fst (getEndToEndSessionsBatch MiniJson.parse batch_size foreign_world)
     = Return None
  /\ fst (getEndToEndInboundGroupSessionsBatch MiniJson.parse batch_size
            foreign_world)
     = Return None.
Proof.
  assert (H : fst (containsData foreign_world) = Return false)
    by reflexivity.
  split; [exact H|].
  destruct (containsData_false_reads_defaults MiniJson.parse batch_size 0
              foreign_world H)
    as (_ & Hc & _ & _ & _ & Hb & _ & _ & Hi & _).
  split; [exact Hc|]. split; [exact Hb|exact Hi].
Defined.

(** In [inbound_world], storing a session under a new session id makes
    the count one more. *)
Lemma countEndToEndInboundGroupSessions_follows_store_and_delete_witness :
  NoDup (alist_keys (storage inbound_world))
  /\ alist_has (storage inbound_world)
       (keyEndToEndInboundGroupSession sender_key "sid3")
     = false
  /\ exists n,
       fst (countEndToEndInboundGroupSessions inbound_world) = Return n
       /\ fst (countEndToEndInboundGroupSessions
                 (snd (storeEndToEndInboundGroupSession MiniJson.stringify
                         sender_key "sid3" (session_of_room "!c:example.org")
                         inbound_world)))
          = Return (S n).
Proof.
  assert (Hn : NoDup (alist_keys (storage inbound_world)))
    by (apply distinct_NoDup; vm_compute; reflexivity).
  split; [exact Hn|]. split; [vm_compute; reflexivity|].
  destruct (countEndToEndInboundGroupSessions_follows_store_and_delete
              MiniJson.stringify inbound_world sender_key "sid3"
              (session_of_room "!c:example.org") Hn)
    as (n & H1 & H2 & _).
  exists n. split; [exact H1|exact H2].
Defined.

(** Every text of [two_devices] parses: reading the batch of its
    sessions logs nothing. *)
Lemma exec_logs_only_unreadable_text_witness :
  readable MiniJson.parse (storage two_devices) = true
  /\ logs (snd (exec MiniJson.parse MiniJson.stringify batch_size 0
                  CallGetEndToEndSessionsBatch two_devices))
     = logs two_devices.
Proof.
  assert (H : readable MiniJson.parse (storage two_devices) = true)
    by (vm_compute; reflexivity).
  split; [exact H|].
  exact (proj1 (exec_logs_only_unreadable_text
                  MiniJson.parse MiniJson.stringify batch_size 0
                  MiniJsonFacts.parse_wf MiniJsonFacts.parse_stringify
                  CallGetEndToEndSessionsBatch two_devices H)).
Defined.

(** A session that the index names with the value [false] is reported as
    needing backup. *)
Lemma needsBackup_is_presence_in_index_witness :
  forallb inbound_key_ok (inbound_keys (storage false_flag_world)) = true
  /\ fst (getEndToEndInboundGroupSessionsBatch MiniJson.parse batch_size
            false_flag_world)
     = Return (Some [false_flag_session])
  /\ In false_flag_session [false_flag_session]
  /\ match
       or_empty_object
         (decode MiniJson.parse (storage false_flag_world)
            KEY_SESSIONS_NEEDING_BACKUP)
     with
     | JObj props =>
         needsBackup false_flag_session
         = alist_has props (backup_name (session_name false_flag_session))
         /\ (forall v,
               alist_get props (backup_name (session_name false_flag_session))
               = Some v ->
               needsBackup false_flag_session = true)
     | JArr _ => needsBackup false_flag_session = false
     | _ => False
     end.
Proof.
  assert (Hk : forallb inbound_key_ok
                 (inbound_keys (storage false_flag_world)) = true)
    by (vm_compute; reflexivity).
  assert (Hb : fst (getEndToEndInboundGroupSessionsBatch MiniJson.parse
                      batch_size false_flag_world)
               = Return (Some [false_flag_session]))
    by (vm_compute; reflexivity).
  assert (Hin : In false_flag_session [false_flag_session]) by now left.
  split; [exact Hk|]. split; [exact Hb|]. split; [exact Hin|].
  exact (needsBackup_is_presence_in_index MiniJson.parse batch_size
           false_flag_world [false_flag_session] false_flag_session
           Hk Hb Hin).
Defined.

(** The first element of the batch of [inbound_world] is the session that
    the getter returns for its sender key and session id. *)
Lemma batch_elements_are_stored_sessions_witness :
  forallb inbound_key_ok (inbound_keys (storage inbound_world)) = true
  /\ fst (getEndToEndInboundGroupSessionsBatch MiniJson.parse batch_size
            inbound_world)
     = Return (Some [first_session; second_session])
  /\ exists withheld,
       fst (getEndToEndInboundGroupSession MiniJson.parse
              (senderKey first_session) (sessionId first_session)
              inbound_world)
       = Return (sessionData first_session, withheld).
Proof.
  assert (Hk : forallb inbound_key_ok (inbound_keys (storage inbound_world))
               = true) by (vm_compute; reflexivity).
  assert (Hb : fst (getEndToEndInboundGroupSessionsBatch MiniJson.parse
                      batch_size inbound_world)
               = Return (Some [first_session; second_session]))
    by (vm_compute; reflexivity).
  split; [exact Hk|]. split; [exact Hb|].
  exact (proj2 (proj1 (batch_elements_are_stored_sessions
                         MiniJson.parse batch_size inbound_world
                         [first_session; second_session] Hk Hb)
                  first_session (or_introl eq_refl))).
Defined.
